(** * upb/util/compare.c: comparison of unknown-field buffers

    A shallow embedding of [upb_Message_UnknownFieldsAreEqual] and of the
    static functions it is built from, followed by the properties that the
    specification states about them.

    Conventions of the embedding.
    - A buffer [const char *buf, size_t size] is a [list byte]; its size is
      the length of the list.  A [const char *] into the buffer is a byte
      offset ([Z]) from the start of the buffer.
    - [uint64_t], [uint32_t] and [int] values are [Z]; where the C arithmetic
      can wrap, the wrap-around is written out.  Element counts ([size_t]
      indices into field arrays) are [nat]: they are bounded by the length of
      the buffer, so the [size_t] arithmetic on them cannot wrap.
    - Control that leaves a function other than by returning is explicit in
      the [outcome] type: [UPB_LONGJMP], and undefined behaviour (a failed
      [UPB_ASSERT], [UPB_UNREACHABLE], an access outside an object).
    - The allocators are external.  Each request ([upb_arena_new],
      [upb_arena_realloc], [upb_arena_malloc], [realloc]) asks an oracle,
      by the number of the request, whether it succeeds. *)

From Stdlib Require Import ZArith List Lia Bool Arith PeanoNat Permutation.
From Stdlib Require Import Strings.Byte.
Import ListNotations.
Open Scope Z_scope.

(** ** Results and control *)

(** Modelled from the spec: [upb_UnknownCompareResult] of
    upb/util/compare.h, which is not among the sources: the four results of
    a comparison. *)
Inductive upb_UnknownCompareResult : Type :=
| kUpb_UnknownCompareResult_Equal
| kUpb_UnknownCompareResult_NotEqual
| kUpb_UnknownCompareResult_OutOfMemory
| kUpb_UnknownCompareResult_MaxDepthExceeded.

(** How a call ends. [OutOfFuel] belongs to the embedding only: loops and
    recursion are bounded by a fuel argument, and the lemmas below show that
    the fuel each caller passes is never used up. *)
Inductive outcome (A : Type) : Type :=
| Ret (a : A)
| LongJmp (r : upb_UnknownCompareResult)
| Undefined
| OutOfFuel.

Arguments Ret {A} a.
Arguments LongJmp {A} r.
Arguments Undefined {A}.
Arguments OutOfFuel {A}.

Definition bind {A B : Type} (m : outcome A) (k : A -> outcome B) : outcome B :=
  match m with
  | Ret a => k a
  | LongJmp r => LongJmp r
  | Undefined => Undefined
  | OutOfFuel => OutOfFuel
  end.

Notation "' pat <- m ;; k" := (bind m (fun x => match x with pat => k end))
  (at level 61, pat pattern, m at next level, right associativity).
Notation "x <- m ;; k" := (bind m (fun x => k))
  (at level 61, m at next level, right associativity).

(** Modelled from the spec: [UPB_ASSERT] of upb/port_def.inc, which is not
    among the sources.  The input is trusted to be valid wire format; a
    failed assertion is a violated precondition, outside the behaviour the
    code defines. *)
Definition UPB_ASSERT (c : bool) : outcome unit :=
  if c then Ret tt else Undefined.

(** ** Bytes and machine integers *)

Definition UINT32_MAX : Z := 4294967295.
Definition INT_MIN : Z := -2147483648.

Definition u8 (b : byte) : Z := Z.of_N (Byte.to_N b).
Definition wrap64 (z : Z) : Z := z mod 2 ^ 64.

(** The byte at offset [ptr], if [ptr] is inside the buffer. *)
Definition load (buf : list byte) (ptr : Z) : option byte :=
  if ptr <? 0 then None else nth_error buf (Z.to_nat ptr).

(** [n] raw bytes starting at [ptr] (the source of a [memcpy]). *)
Definition load_bytes (buf : list byte) (ptr : Z) (n : nat) : list byte :=
  firstn n (skipn (Z.to_nat ptr) buf).

(** The value an unsigned integer object holds after the given raw bytes
    were copied into it (little-endian host, as upb assumes). *)
Fixpoint le_value (bs : list byte) : Z :=
  match bs with
  | [] => 0
  | b :: bs' => u8 b + 256 * le_value bs'
  end.

(** ** The wire types *)

(** Modelled from the spec: the [UPB_WIRE_TYPE_] constants of upb/upb.h,
    which is not among the sources; the values are those of the
    protocol-buffer wire format. *)

Definition UPB_WIRE_TYPE_VARINT : Z := 0.
Definition UPB_WIRE_TYPE_64BIT : Z := 1.
Definition UPB_WIRE_TYPE_DELIMITED : Z := 2.
Definition UPB_WIRE_TYPE_START_GROUP : Z := 3.
Definition UPB_WIRE_TYPE_END_GROUP : Z := 4.
Definition UPB_WIRE_TYPE_32BIT : Z := 5.

(** ** The data structures *)

(** [upb_UnknownField], its [data] union and [upb_UnknownFields]. A
    [upb_strview] into the input is the list of bytes it spans; a
    [upb_UnknownFields *] is the set it points to. *)
Inductive upb_UnknownField : Type :=
| UnknownField (tag : Z) (data : upb_UnknownField_data)
with upb_UnknownField_data : Type :=
| data_varint (v : Z)
| data_uint64 (v : Z)
| data_uint32 (v : Z)
| data_delimited (s : list byte)
| data_group (g : upb_UnknownFields)
with upb_UnknownFields : Type :=
| UnknownFields (fields : list upb_UnknownField) (capacity : nat).

Definition tag (f : upb_UnknownField) : Z :=
  match f with UnknownField t _ => t end.
Definition data (f : upb_UnknownField) : upb_UnknownField_data :=
  match f with UnknownField _ d => d end.
Definition fields (uf : upb_UnknownFields) : list upb_UnknownField :=
  match uf with UnknownFields fs _ => fs end.
Definition capacity (uf : upb_UnknownFields) : nat :=
  match uf with UnknownFields _ c => c end.
Definition size (uf : upb_UnknownFields) : nat := length (fields uf).

(** [upb_UnknownField_Context]. [arena] counts the allocation requests made
    so far (the oracle is a parameter of the functions that allocate);
    [tmp] is [None] for a null scratch pointer and [Some n] for a block of
    [n] elements.  The contents of the scratch block are not state: every
    merge fills the part it reads before reading it.  [jmp_buf err] is the
    [LongJmp] outcome. *)
Record upb_UnknownField_Context : Type := mkContext {
  ctx_end : Z;
  arena : nat;
  tmp : option nat;
  tmp_size : nat;
  depth : Z
}.

Definition set_end (ctx : upb_UnknownField_Context) (e : Z) :=
  mkContext e (arena ctx) (tmp ctx) (tmp_size ctx) (depth ctx).
Definition set_arena (ctx : upb_UnknownField_Context) (a : nat) :=
  mkContext (ctx_end ctx) a (tmp ctx) (tmp_size ctx) (depth ctx).
Definition set_tmp (ctx : upb_UnknownField_Context) (t : option nat) (n : nat) :=
  mkContext (ctx_end ctx) (arena ctx) t n (depth ctx).
Definition set_depth (ctx : upb_UnknownField_Context) (d : Z) :=
  mkContext (ctx_end ctx) (arena ctx) (tmp ctx) (tmp_size ctx) d.

(** Modelled from the spec: the arena ([upb_arena_new], [upb_arena_realloc],
    [upb_arena_malloc] of upb/upb.h, not among the sources) and [realloc]
    are external, and every request to them may fail.  The oracle says which
    do: request number [n] of a comparison succeeds iff [alloc n]. *)
Definition allocator : Type := nat -> bool.

(** One allocation request. *)
Definition request (alloc : allocator) (ctx : upb_UnknownField_Context)
  : bool * upb_UnknownField_Context :=
  (alloc (arena ctx), set_arena ctx (S (arena ctx))).

(** ** upb_UnknownFields_Grow *)

(** [arr_base], [arr_ptr] and [arr_end] of the caller are the array's
    contents (of length [arr_ptr - arr_base]) and its capacity
    ([arr_end - arr_base]); growing keeps the contents. *)
Definition upb_UnknownFields_Grow (alloc : allocator)
    (ctx : upb_UnknownField_Context) (arr : list upb_UnknownField)
  : outcome (upb_UnknownField_Context * nat) :=
  let old := length arr in
  let new := Nat.max 4 (old * 2) in
  let '(ok, ctx) := request alloc ctx in
  if negb ok then LongJmp kUpb_UnknownCompareResult_OutOfMemory
  else Ret (ctx, new).

(** ** upb_UnknownFields_ParseVarint *)

(** The body of the do-while loop, entered with the current [ptr], [bitpos]
    and [*val].  The assertion stops the loop once [bitpos] is 70, so eleven
    units of fuel cover every run that starts at [bitpos = 0]. *)
Fixpoint ParseVarint_loop (fuel : nat) (buf : list byte) (ptr limit : Z)
    (bitpos : Z) (val : Z) : outcome (Z * Z) :=
  match fuel with
  | O => OutOfFuel
  | S fuel' =>
      _ <- UPB_ASSERT ((bitpos <? 70) && (ptr <? limit)) ;;
      match load buf ptr with
      | None => Undefined
      | Some b =>
          let byte := u8 b in
          let val := Z.lor val (wrap64 (Z.shiftl (Z.land byte 127) bitpos)) in
          let ptr := ptr + 1 in
          let bitpos := bitpos + 7 in
          if Z.land byte 128 =? 0 then Ret (ptr, val)
          else ParseVarint_loop fuel' buf ptr limit bitpos val
      end
  end.

(** Returns the advanced pointer and [*val]. *)
Definition upb_UnknownFields_ParseVarint (buf : list byte) (ptr limit : Z)
  : outcome (Z * Z) :=
  ParseVarint_loop 11 buf ptr limit 0 0.

(** ** upb_UnknownFields_Merge *)

(** [arr[i] = x]. *)
Definition store (arr : list upb_UnknownField) (i : nat) (x : upb_UnknownField)
  : outcome (list upb_UnknownField) :=
  if (i <? length arr)%nat then Ret (firstn i arr ++ x :: skipn (S i) arr)
  else Undefined.

(** [memcpy(&dst[doff], &src[soff], n * sizeof(upb_UnknownField))]. *)
Definition memcpy_fields (dst : list upb_UnknownField) (doff : nat)
    (src : list upb_UnknownField) (soff n : nat)
  : outcome (list upb_UnknownField) :=
  if ((soff + n <=? length src) && (doff + n <=? length dst))%nat
  then Ret (firstn doff dst ++ firstn n (skipn soff src) ++ skipn (doff + n) dst)
  else Undefined.

(** The while loop of the merge. [t] is the filled part of the scratch
    block; [ptr1], [end1], [ptr2], [end2] are indices into it and [out] is an
    index into [arr]. *)
Fixpoint Merge_loop (fuel : nat) (t : list upb_UnknownField) (end1 end2 : nat)
    (arr : list upb_UnknownField) (ptr1 ptr2 out : nat)
  : outcome (list upb_UnknownField * nat * nat * nat) :=
  if ((ptr1 <? end1) && (ptr2 <? end2))%nat then
    match fuel with
    | O => OutOfFuel
    | S fuel' =>
        match nth_error t ptr1, nth_error t ptr2 with
        | Some f1, Some f2 =>
            if tag f1 <=? tag f2 then
              arr <- store arr out f1 ;;
              Merge_loop fuel' t end1 end2 arr (S ptr1) ptr2 (S out)
            else
              arr <- store arr out f2 ;;
              Merge_loop fuel' t end1 end2 arr ptr1 (S ptr2) (S out)
        | _, _ => Undefined
        end
    end
  else Ret (arr, ptr1, ptr2, out).

(** The first [memcpy] fills the scratch block from [arr[start .. end)]; it
    needs a scratch pointer that is not null and a block with room for
    [end - start] elements.  The second of the two trailing copies reads
    from [ptr1], as the source does. *)
Definition upb_UnknownFields_Merge (arr : list upb_UnknownField)
    (start mid end_ : nat) (tmp : option nat)
  : outcome (list upb_UnknownField) :=
  match tmp with
  | None => Undefined
  | Some room =>
      if ((end_ - start <=? room) && (start <=? end_) && (end_ <=? length arr))%nat
      then
        let t := firstn (end_ - start) (skipn start arr) in
        let end1 := (mid - start)%nat in
        let end2 := (end_ - start)%nat in
        ' (arr, ptr1, ptr2, out) <-
          Merge_loop (end_ - start) t end1 end2 arr 0 (mid - start) start ;;
        if (ptr1 <? end1)%nat then
          memcpy_fields arr out t ptr1 (end1 - ptr1)
        else if (ptr2 <? end2)%nat then
          memcpy_fields arr out t ptr1 (end2 - ptr2)
        else Ret arr
      else Undefined
  end.

(** ** upb_UnknownFields_SortRecursive *)

(** Every call has [start <= end], so that the [size_t] difference does not
    wrap.  A range of [n] elements needs no more than [n] units of fuel. *)

Fixpoint upb_UnknownFields_SortRecursive (fuel : nat)
    (arr : list upb_UnknownField) (start end_ : nat) (tmp : option nat)
  : outcome (list upb_UnknownField) :=
  if (1 <? end_ - start)%nat then
    match fuel with
    | O => OutOfFuel
    | S fuel' =>
        let mid := (start + (end_ - start) / 2)%nat in
        arr <- upb_UnknownFields_SortRecursive fuel' arr start mid tmp ;;
        arr <- upb_UnknownFields_SortRecursive fuel' arr mid end_ tmp ;;
        upb_UnknownFields_Merge arr start mid end_ tmp
    end
  else Ret arr.

(** ** upb_UnknownFields_Sort *)

(** [while (ctx->tmp_size < fields->size) ctx->tmp_size *= 2;] *)
Fixpoint tmp_size_loop (fuel : nat) (tmp_size size : nat) : outcome nat :=
  if (tmp_size <? size)%nat then
    match fuel with
    | O => OutOfFuel
    | S fuel' => tmp_size_loop fuel' (tmp_size * 2) size
    end
  else Ret tmp_size.

(** The result of [realloc] is stored unchecked: after a failed request
    [ctx->tmp] is null. *)
Definition upb_UnknownFields_Sort (alloc : allocator)
    (ctx : upb_UnknownField_Context) (uf : upb_UnknownFields)
  : outcome (upb_UnknownField_Context * upb_UnknownFields) :=
  ctx <- (if (tmp_size ctx <? size uf)%nat then
            n <- tmp_size_loop (size uf) (Nat.max 8 (tmp_size ctx)) (size uf) ;;
            let '(ok, ctx) := request alloc ctx in
            Ret (set_tmp ctx (if ok then Some n else None) n)
          else Ret ctx) ;;
  arr <- upb_UnknownFields_SortRecursive (size uf) (fields uf) 0 (size uf)
           (tmp ctx) ;;
  Ret (ctx, UnknownFields arr (capacity uf)).

(** ** upb_UnknownFields_DoBuild *)

(** The code after the loop: [*buf = ptr], the allocation of the result and
    the sort of an array that was not seen in ascending order. *)
Definition DoBuild_finish (alloc : allocator) (ctx : upb_UnknownField_Context)
    (arr : list upb_UnknownField) (cap : nat) (ptr : Z) (sorted : bool)
  : outcome (upb_UnknownFields * Z * upb_UnknownField_Context) :=
  let '(ok, ctx) := request alloc ctx in
  if negb ok then LongJmp kUpb_UnknownCompareResult_OutOfMemory
  else
    let ret := UnknownFields arr cap in
    if negb sorted then
      ' (ctx, ret) <- upb_UnknownFields_Sort alloc ctx ret ;;
      Ret (ret, ptr, ctx)
    else Ret (ret, ptr, ctx).

(** The function from the head of its while loop on, with its locals: the
    field array ([arr] holds [arr_base .. arr_ptr), [cap] is
    [arr_end - arr_base]), [ptr], [last_tag] and [sorted].  The result is the
    returned set together with [*buf] and the context as the call leaves
    them.  A field is appended to [arr] once its payload is known; the
    array is grown before the payload is parsed, as in the source.
    [--ctx->depth] overflows at [INT_MIN], which is undefined. *)
Fixpoint DoBuild_loop (fuel : nat) (alloc : allocator) (buf : list byte)
    (ctx : upb_UnknownField_Context) (arr : list upb_UnknownField) (cap : nat)
    (ptr : Z) (last_tag : Z) (sorted : bool)
  : outcome (upb_UnknownFields * Z * upb_UnknownField_Context) :=
  if ptr <? ctx_end ctx then
    match fuel with
    | O => OutOfFuel
    | S fuel' =>
        ' (ptr, tag) <- upb_UnknownFields_ParseVarint buf ptr (ctx_end ctx) ;;
        _ <- UPB_ASSERT (tag <=? UINT32_MAX) ;;
        let wire_type := Z.land tag 7 in
        if wire_type =? UPB_WIRE_TYPE_END_GROUP then
          DoBuild_finish alloc ctx arr cap ptr sorted
        else
          let sorted := if tag <? last_tag then false else sorted in
          let last_tag := tag in
          ' (ctx, cap) <- (if (length arr =? cap)%nat
                           then upb_UnknownFields_Grow alloc ctx arr
                           else Ret (ctx, cap)) ;;
          if wire_type =? UPB_WIRE_TYPE_VARINT then
            ' (ptr, v) <- upb_UnknownFields_ParseVarint buf ptr (ctx_end ctx) ;;
            DoBuild_loop fuel' alloc buf ctx
              (arr ++ [UnknownField tag (data_varint v)]) cap ptr last_tag sorted
          else if wire_type =? UPB_WIRE_TYPE_64BIT then
            _ <- UPB_ASSERT (8 <=? ctx_end ctx - ptr) ;;
            let v := le_value (load_bytes buf ptr 8) in
            DoBuild_loop fuel' alloc buf ctx
              (arr ++ [UnknownField tag (data_uint64 v)]) cap (ptr + 8)
              last_tag sorted
          else if wire_type =? UPB_WIRE_TYPE_32BIT then
            _ <- UPB_ASSERT (4 <=? ctx_end ctx - ptr) ;;
            let v := le_value (load_bytes buf ptr 4) in
            DoBuild_loop fuel' alloc buf ctx
              (arr ++ [UnknownField tag (data_uint32 v)]) cap (ptr + 4)
              last_tag sorted
          else if wire_type =? UPB_WIRE_TYPE_DELIMITED then
            ' (ptr, size) <- upb_UnknownFields_ParseVarint buf ptr (ctx_end ctx) ;;
            _ <- UPB_ASSERT (size <=? ctx_end ctx - ptr) ;;
            let s := load_bytes buf ptr (Z.to_nat size) in
            DoBuild_loop fuel' alloc buf ctx
              (arr ++ [UnknownField tag (data_delimited s)]) cap (ptr + size)
              last_tag sorted
          else if wire_type =? UPB_WIRE_TYPE_START_GROUP then
            if depth ctx =? INT_MIN then Undefined
            else
              let ctx := set_depth ctx (depth ctx - 1) in
              if depth ctx =? 0 then
                LongJmp kUpb_UnknownCompareResult_MaxDepthExceeded
              else
                ' (g, ptr, ctx) <-
                  DoBuild_loop fuel' alloc buf ctx [] 0 ptr 0 true ;;
                let ctx := set_depth ctx (depth ctx + 1) in
                DoBuild_loop fuel' alloc buf ctx
                  (arr ++ [UnknownField tag (data_group g)]) cap ptr
                  last_tag sorted
          else Undefined
    end
  else DoBuild_finish alloc ctx arr cap ptr sorted.

(** A call of the function: the locals start out empty. *)
Definition upb_UnknownFields_DoBuild (fuel : nat) (alloc : allocator)
    (buf : list byte) (ctx : upb_UnknownField_Context) (ptr : Z)
  : outcome (upb_UnknownFields * Z * upb_UnknownField_Context) :=
  DoBuild_loop fuel alloc buf ctx [] 0 ptr 0 true.

(** ** upb_UnknownFields_Build *)

(** Every iteration of the loop and every nested call consumes a byte, so
    one unit of fuel per byte (and one to leave the loop) is enough. *)
Definition upb_UnknownFields_Build (alloc : allocator)
    (ctx : upb_UnknownField_Context) (buf : list byte)
  : outcome (upb_UnknownFields * upb_UnknownField_Context) :=
  let ctx := set_end ctx (Z.of_nat (length buf)) in
  ' (uf, ptr, ctx) <-
    upb_UnknownFields_DoBuild (S (length buf)) alloc buf ctx 0 ;;
  _ <- UPB_ASSERT (ptr =? ctx_end ctx) ;;
  Ret (uf, ctx).

(** ** upb_UnknownFields_IsEqual *)

(** Modelled from the spec: [upb_strview_eql] of upb/upb.h, which is not part
    of this file.  It is the byte-span equality primitive: true iff the two
    spans have the same length and the same bytes. *)
Fixpoint upb_strview_eql (a b : list byte) : bool :=
  match a, b with
  | [], [] => true
  | x :: a', y :: b' => Byte.eqb x y && upb_strview_eql a' b'
  | _, _ => false
  end.

(** The for loop runs over the two field arrays in step; [l1] and [l2] are
    [uf1->fields[i ..]] and [uf2->fields[i ..]].  The member of the union
    that is read is the one the wire type of [f1->tag] selects; a field that
    holds another member is outside the behaviour the source defines. *)
Fixpoint upb_UnknownFields_IsEqual (uf1 uf2 : upb_UnknownFields) {struct uf1}
  : outcome bool :=
  match uf1 with
  | UnknownFields fs1 _ =>
      if negb (length fs1 =? size uf2)%nat then Ret false
      else
        (fix loop (l1 l2 : list upb_UnknownField) {struct l1} : outcome bool :=
           match l1 with
           | [] => Ret true
           | UnknownField tag1 data1 :: l1' =>
               match l2 with
               | [] => Undefined
               | f2 :: l2' =>
                   if negb (tag1 =? tag f2) then Ret false
                   else
                     let wire_type := Z.land tag1 7 in
                     if wire_type =? UPB_WIRE_TYPE_VARINT then
                       match data1, data f2 with
                       | data_varint v1, data_varint v2 =>
                           if negb (v1 =? v2) then Ret false else loop l1' l2'
                       | _, _ => Undefined
                       end
                     else if wire_type =? UPB_WIRE_TYPE_64BIT then
                       match data1, data f2 with
                       | data_uint64 v1, data_uint64 v2 =>
                           if negb (v1 =? v2) then Ret false else loop l1' l2'
                       | _, _ => Undefined
                       end
                     else if wire_type =? UPB_WIRE_TYPE_32BIT then
                       match data1, data f2 with
                       | data_uint32 v1, data_uint32 v2 =>
                           if negb (v1 =? v2) then Ret false else loop l1' l2'
                       | _, _ => Undefined
                       end
                     else if wire_type =? UPB_WIRE_TYPE_DELIMITED then
                       match data1, data f2 with
                       | data_delimited s1, data_delimited s2 =>
                           if negb (upb_strview_eql s1 s2) then Ret false
                           else loop l1' l2'
                       | _, _ => Undefined
                       end
                     else if wire_type =? UPB_WIRE_TYPE_START_GROUP then
                       match data1, data f2 with
                       | data_group g1, data_group g2 =>
                           eq <- upb_UnknownFields_IsEqual g1 g2 ;;
                           if negb eq then Ret false else loop l1' l2'
                       | _, _ => Undefined
                       end
                     else Undefined
               end
           end) fs1 (fields uf2)
  end.

(** ** upb_Message_UnknownFieldsAreEqual *)

(** The result of [memcmp] on two objects that hold [n] bytes each: the
    bytes are compared in order as unsigned values and the first difference
    decides; only the sign of the result is specified. *)
Fixpoint memcmp_bytes (s1 s2 : list byte) (n : nat) : Z :=
  match n, s1, s2 with
  | S n', a :: s1', b :: s2' =>
      if u8 a <? u8 b then -1
      else if u8 b <? u8 a then 1
      else memcmp_bytes s1' s2' n'
  | _, _, _ => 0
  end.

(** [memcmp(s1, s2, n)] is given two objects of [n] bytes.  The call
    [memcmp(buf1, buf2, size1)] of the entry point does not look at [size2]:
    when [n] exceeds the size of one of the objects the call reads past its
    end, wherever the first difference lies, and the behaviour is
    undefined. *)
Definition memcmp (s1 s2 : list byte) (n : nat) : outcome Z :=
  if ((n <=? length s1) && (n <=? length s2))%nat
  then Ret (memcmp_bytes s1 s2 n)
  else Undefined.

(** What [UPB_SETJMP] and the code it guards come to: a [UPB_LONGJMP] out of
    the guarded code makes [UPB_SETJMP] return the value jumped with, which
    the function then returns.  (The two values jumped with, OutOfMemory and
    MaxDepthExceeded, are not 0 in upb/util/compare.h.) *)
Definition catch (m : outcome upb_UnknownCompareResult)
  : outcome upb_UnknownCompareResult :=
  match m with
  | LongJmp r => Ret r
  | _ => m
  end.

(** The entry point.  [size1] and [size2] are the lengths of the lists.
    Releasing the arena and the scratch block does not show in the result. *)
Definition upb_Message_UnknownFieldsAreEqual (alloc : allocator)
    (buf1 buf2 : list byte) (max_depth : Z)
  : outcome upb_UnknownCompareResult :=
  let size1 := length buf1 in
  let size2 := length buf2 in
  if ((size1 =? 0) && (size2 =? 0))%nat then Ret kUpb_UnknownCompareResult_Equal
  else if ((size1 =? 0) || (size2 =? 0))%nat
  then Ret kUpb_UnknownCompareResult_NotEqual
  else
    c <- memcmp buf1 buf2 size1 ;;
    if c =? 0 then Ret kUpb_UnknownCompareResult_Equal
    else
      let ctx := mkContext 0 0 None 0 max_depth in
      let '(ok, ctx) := request alloc ctx in
      if negb ok then Ret kUpb_UnknownCompareResult_OutOfMemory
      else
        catch (
          ' (uf1, ctx) <- upb_UnknownFields_Build alloc ctx buf1 ;;
          ' (uf2, ctx) <- upb_UnknownFields_Build alloc ctx buf2 ;;
          eq <- upb_UnknownFields_IsEqual uf1 uf2 ;;
          if eq then Ret kUpb_UnknownCompareResult_Equal
          else Ret kUpb_UnknownCompareResult_NotEqual).

(** An allocator that never fails, and one whose request number [k] fails. *)
Definition alloc_ok : allocator := fun _ => true.
Definition alloc_fail_at (k : nat) : allocator := fun n => negb (n =? k)%nat.



(** * Wire format

    What the specification calls well-formed input, stated on the bytes. *)

(** ** Varints *)

(** The continuation bit of a byte and its 7-bit group. *)
Definition continuation (b : byte) : bool := negb (Z.land (u8 b) 128 =? 0).
Definition group7 (b : byte) : Z := Z.land (u8 b) 127.

(** The bytes of one varint: every byte but the last has its continuation
    bit set, the last has it clear. *)
Fixpoint varint_ok (bs : list byte) : bool :=
  match bs with
  | [] => false
  | [b] => negb (continuation b)
  | b :: bs' => continuation b && varint_ok bs'
  end.

(** The 7-bit groups assembled little-endian: the group of the byte with
    index [i] is shifted by [7 * i]. *)
Fixpoint varint_groups (bs : list byte) : Z :=
  match bs with
  | [] => 0
  | b :: bs' => group7 b + 2 ^ 7 * varint_groups bs'
  end.

(** A well-formed varint within [[ptr, limit)]: its bytes [bs] lie at
    [ptr], end before [limit], and are at most ten. *)
Definition varint_at (buf : list byte) (ptr limit : Z) (bs : list byte) : Prop :=
  0 <= ptr /\ ptr + Z.of_nat (length bs) <= limit /\
  load_bytes buf ptr (length bs) = bs /\
  varint_ok bs = true /\ (length bs <= 10)%nat.


(** The decoded [uint64_t]: the assembled groups, truncated to 64 bits. *)
Definition varint_value (bs : list byte) : Z := wrap64 (varint_groups bs).

Definition is_varint (bs : list byte) : bool :=
  varint_ok bs && (length bs <=? 10)%nat.

(** A tag with wire type [w]: a varint that fits [uint32_t]. *)
Definition is_tag (bs : list byte) (w : Z) : bool :=
  is_varint bs && (varint_value bs <=? UINT32_MAX)
  && (Z.land (varint_value bs) 7 =? w).

(** ** Fields and groups *)

(** One field as it lies in the buffer: the bytes of its tag and of its
    payload.  A group is its start tag, its fields and its end tag. *)
#[warnings="-register-all"]
Inductive wire_field : Type :=
| W_varint (t v : list byte)
| W_64bit (t raw : list byte)
| W_delimited (t len body : list byte)
| W_group (t : list byte) (body : list wire_field) (e : list byte)
| W_32bit (t raw : list byte).

Fixpoint wire_bytes (f : wire_field) : list byte :=
  match f with
  | W_varint t v => t ++ v
  | W_64bit t raw => t ++ raw
  | W_delimited t len body => t ++ len ++ body
  | W_group t body e => t ++ flat_map wire_bytes body ++ e
  | W_32bit t raw => t ++ raw
  end.

(** Well-formedness, as far as the parser depends on it.  Any end-group tag
    closes a group: the parser does not look at its field number, so groups
    whose two tags carry the same field number are a special case. *)
Fixpoint wire_ok (f : wire_field) : bool :=
  match f with
  | W_varint t v => is_tag t UPB_WIRE_TYPE_VARINT && is_varint v
  | W_64bit t raw => is_tag t UPB_WIRE_TYPE_64BIT && (length raw =? 8)%nat
  | W_delimited t len body =>
      is_tag t UPB_WIRE_TYPE_DELIMITED && is_varint len
      && (varint_value len =? Z.of_nat (length body))
  | W_group t body e =>
      is_tag t UPB_WIRE_TYPE_START_GROUP && forallb wire_ok body
      && is_tag e UPB_WIRE_TYPE_END_GROUP
  | W_32bit t raw => is_tag t UPB_WIRE_TYPE_32BIT && (length raw =? 4)%nat
  end.

(** The group nesting depth: 0 without groups, one more than the depth of
    its deepest body for a group. *)
Fixpoint wire_depth (f : wire_field) : nat :=
  match f with
  | W_group _ body _ => S (list_max (map wire_depth body))
  | _ => 0%nat
  end.

Definition nesting_depth (fs : list wire_field) : nat :=
  list_max (map wire_depth fs).

(** The tag of a field, decoded. *)
Definition wire_tag (f : wire_field) : Z :=
  match f with
  | W_varint t _ | W_64bit t _ | W_delimited t _ _ | W_group t _ _
  | W_32bit t _ => varint_value t
  end.

(** [buf] is the well-formed top-level buffer made of the fields [fs]. *)
Definition encodes (buf : list byte) (fs : list wire_field) : Prop :=
  forallb wire_ok fs = true /\ buf = flat_map wire_bytes fs.

(** An allocator that never fails. *)
Definition never_fails (alloc : allocator) : Prop := forall n, alloc n = true.

(** * Field sets *)

(** The for loop of [upb_UnknownFields_IsEqual] under a name of its own;
    [IsEqual_unfold] below shows that the function is this loop behind the
    size test. *)
Fixpoint IsEqual_loop (l1 l2 : list upb_UnknownField) {struct l1}
  : outcome bool :=
  match l1 with
  | [] => Ret true
  | UnknownField tag1 data1 :: l1' =>
      match l2 with
      | [] => Undefined
      | f2 :: l2' =>
          if negb (tag1 =? tag f2) then Ret false
          else
            let wire_type := Z.land tag1 7 in
            if wire_type =? UPB_WIRE_TYPE_VARINT then
              match data1, data f2 with
              | data_varint v1, data_varint v2 =>
                  if negb (v1 =? v2) then Ret false else IsEqual_loop l1' l2'
              | _, _ => Undefined
              end
            else if wire_type =? UPB_WIRE_TYPE_64BIT then
              match data1, data f2 with
              | data_uint64 v1, data_uint64 v2 =>
                  if negb (v1 =? v2) then Ret false else IsEqual_loop l1' l2'
              | _, _ => Undefined
              end
            else if wire_type =? UPB_WIRE_TYPE_32BIT then
              match data1, data f2 with
              | data_uint32 v1, data_uint32 v2 =>
                  if negb (v1 =? v2) then Ret false else IsEqual_loop l1' l2'
              | _, _ => Undefined
              end
            else if wire_type =? UPB_WIRE_TYPE_DELIMITED then
              match data1, data f2 with
              | data_delimited s1, data_delimited s2 =>
                  if negb (upb_strview_eql s1 s2) then Ret false
                  else IsEqual_loop l1' l2'
              | _, _ => Undefined
              end
            else if wire_type =? UPB_WIRE_TYPE_START_GROUP then
              match data1, data f2 with
              | data_group g1, data_group g2 =>
                  eq <- upb_UnknownFields_IsEqual g1 g2 ;;
                  if negb eq then Ret false else IsEqual_loop l1' l2'
              | _, _ => Undefined
              end
            else Undefined
      end
  end.

(** The invariant of the data model: the member of the union a field holds
    is the one its wire type selects, in nested sets too.  The builder
    establishes it ([Build_typed] below). *)
Fixpoint set_typed (uf : upb_UnknownFields) : bool :=
  match uf with
  | UnknownFields fs _ =>
      forallb (fun f =>
        match f with
        | UnknownField t (data_varint _) => Z.land t 7 =? UPB_WIRE_TYPE_VARINT
        | UnknownField t (data_uint64 _) => Z.land t 7 =? UPB_WIRE_TYPE_64BIT
        | UnknownField t (data_uint32 _) => Z.land t 7 =? UPB_WIRE_TYPE_32BIT
        | UnknownField t (data_delimited _) =>
            Z.land t 7 =? UPB_WIRE_TYPE_DELIMITED
        | UnknownField t (data_group g) =>
            (Z.land t 7 =? UPB_WIRE_TYPE_START_GROUP) && set_typed g
        end) fs
  end.

Definition field_typed (f : upb_UnknownField) : bool :=
  match f with
  | UnknownField t (data_varint _) => Z.land t 7 =? UPB_WIRE_TYPE_VARINT
  | UnknownField t (data_uint64 _) => Z.land t 7 =? UPB_WIRE_TYPE_64BIT
  | UnknownField t (data_uint32 _) => Z.land t 7 =? UPB_WIRE_TYPE_32BIT
  | UnknownField t (data_delimited _) => Z.land t 7 =? UPB_WIRE_TYPE_DELIMITED
  | UnknownField t (data_group g) =>
      (Z.land t 7 =? UPB_WIRE_TYPE_START_GROUP) && set_typed g
  end.

(** Two payloads are equal under a wire type: the same integer, the same
    bytes, or groups that the comparator finds equal. *)
Definition payload_match (wire_type : Z) (d1 d2 : upb_UnknownField_data)
  : Prop :=
  match d1, d2 with
  | data_varint v1, data_varint v2 =>
      wire_type = UPB_WIRE_TYPE_VARINT /\ v1 = v2
  | data_uint64 v1, data_uint64 v2 =>
      wire_type = UPB_WIRE_TYPE_64BIT /\ v1 = v2
  | data_uint32 v1, data_uint32 v2 =>
      wire_type = UPB_WIRE_TYPE_32BIT /\ v1 = v2
  | data_delimited s1, data_delimited s2 =>
      wire_type = UPB_WIRE_TYPE_DELIMITED /\ s1 = s2
  | data_group g1, data_group g2 =>
      wire_type = UPB_WIRE_TYPE_START_GROUP
      /\ upb_UnknownFields_IsEqual g1 g2 = Ret true
  | _, _ => False
  end.

(** Two fields match: the tags are the same and the payloads are equal under
    the wire type of the tag. *)
Definition field_match (f1 f2 : upb_UnknownField) : Prop :=
  tag f1 = tag f2 /\ payload_match (Z.land (tag f1) 7) (data f1) (data f2).

(** * Invariants of the context *)

(** The scratch block is either not yet allocated, with [tmp_size] still 0,
    or a block of [tmp_size] elements. *)
Definition tmp_inv (ctx : upb_UnknownField_Context) : Prop :=
  (tmp ctx = None /\ tmp_size ctx = 0%nat) \/ tmp ctx = Some (tmp_size ctx).

(** * Positions in a buffer *)

(** The bytes [s] lie in [buf] at offset [p]. *)
Definition at_offset (buf : list byte) (p : Z) (s : list byte) : Prop :=
  exists pre post, buf = pre ++ s ++ post /\ p = Z.of_nat (length pre).

(** The bytes [s] are what is left of [buf] from offset [p] on. *)
Definition suffix_at (buf : list byte) (p : Z) (s : list byte) : Prop :=
  exists pre, buf = pre ++ s /\ p = Z.of_nat (length pre).

(** What follows the fields of one nesting level: nothing, at the end of
    the buffer, or an end-group tag [e]. *)
Definition closes (rest e : list byte) : Prop :=
  (rest = [] /\ e = [])
  \/ (is_tag e UPB_WIRE_TYPE_END_GROUP = true /\ exists rest', rest = e ++ rest').

(** The part of the loop body of [upb_UnknownFields_DoBuild] that follows
    the growth of the array: the switch on the wire type, and the rest of
    the call. *)
Definition DoBuild_payload (fuel' : nat) (alloc : allocator) (buf : list byte)
    (ctx : upb_UnknownField_Context) (arr : list upb_UnknownField) (cap : nat)
    (ptr : Z) (tag : Z) (sorted : bool)
  : outcome (upb_UnknownFields * Z * upb_UnknownField_Context) :=
  let wire_type := Z.land tag 7 in
  let last_tag := tag in
  if wire_type =? UPB_WIRE_TYPE_VARINT then
    ' (ptr, v) <- upb_UnknownFields_ParseVarint buf ptr (ctx_end ctx) ;;
    DoBuild_loop fuel' alloc buf ctx
      (arr ++ [UnknownField tag (data_varint v)]) cap ptr last_tag sorted
  else if wire_type =? UPB_WIRE_TYPE_64BIT then
    _ <- UPB_ASSERT (8 <=? ctx_end ctx - ptr) ;;
    let v := le_value (load_bytes buf ptr 8) in
    DoBuild_loop fuel' alloc buf ctx
      (arr ++ [UnknownField tag (data_uint64 v)]) cap (ptr + 8)
      last_tag sorted
  else if wire_type =? UPB_WIRE_TYPE_32BIT then
    _ <- UPB_ASSERT (4 <=? ctx_end ctx - ptr) ;;
    let v := le_value (load_bytes buf ptr 4) in
    DoBuild_loop fuel' alloc buf ctx
      (arr ++ [UnknownField tag (data_uint32 v)]) cap (ptr + 4)
      last_tag sorted
  else if wire_type =? UPB_WIRE_TYPE_DELIMITED then
    ' (ptr, size) <- upb_UnknownFields_ParseVarint buf ptr (ctx_end ctx) ;;
    _ <- UPB_ASSERT (size <=? ctx_end ctx - ptr) ;;
    let s := load_bytes buf ptr (Z.to_nat size) in
    DoBuild_loop fuel' alloc buf ctx
      (arr ++ [UnknownField tag (data_delimited s)]) cap (ptr + size)
      last_tag sorted
  else if wire_type =? UPB_WIRE_TYPE_START_GROUP then
    if depth ctx =? INT_MIN then Undefined
    else
      let ctx := set_depth ctx (depth ctx - 1) in
      if depth ctx =? 0 then
        LongJmp kUpb_UnknownCompareResult_MaxDepthExceeded
      else
        ' (g, ptr, ctx) <-
          DoBuild_loop fuel' alloc buf ctx [] 0 ptr 0 true ;;
        let ctx := set_depth ctx (depth ctx + 1) in
        DoBuild_loop fuel' alloc buf ctx
          (arr ++ [UnknownField tag (data_group g)]) cap ptr
          last_tag sorted
  else Undefined.

(** The builder gets through well-formed fields: started with [fuel] at the
    fields [fs] of one nesting level, with a budget above their depth and an
    allocator that does not fail, it returns with the cursor behind the
    fields and behind the end-group tag that closes them, if there is one. *)
Definition parses (fuel : nat) : Prop :=
  forall (alloc : allocator) (buf : list byte) (fs : list wire_field)
         (rest e : list byte) (ctx : upb_UnknownField_Context)
         (arr : list upb_UnknownField) (cap : nat) (p last : Z) (sorted : bool),
    never_fails alloc -> tmp_inv ctx ->
    forallb wire_ok fs = true ->
    suffix_at buf p (flat_map wire_bytes fs ++ rest) ->
    ctx_end ctx = Z.of_nat (length buf) ->
    closes rest e ->
    Z.of_nat (nesting_depth fs) < depth ctx ->
    (length (flat_map wire_bytes fs ++ rest) < fuel)%nat ->
    exists uf ctx',
      DoBuild_loop fuel alloc buf ctx arr cap p last sorted
      = Ret (uf,
             p + Z.of_nat (length (flat_map wire_bytes fs))
               + Z.of_nat (length e),
             ctx')
      /\ depth ctx' = depth ctx /\ ctx_end ctx' = ctx_end ctx /\ tmp_inv ctx'.

(** * The merge as a function on lists *)

(** The code of [upb_UnknownFields_Merge] after its loop: the two trailing
    copies. *)
Definition Merge_tail (t : list upb_UnknownField) (end1 end2 : nat)
    (st : list upb_UnknownField * nat * nat * nat)
  : outcome (list upb_UnknownField) :=
  let '(arr, ptr1, ptr2, out) := st in
  if (ptr1 <? end1)%nat then memcpy_fields arr out t ptr1 (end1 - ptr1)
  else if (ptr2 <? end2)%nat then memcpy_fields arr out t ptr1 (end2 - ptr2)
  else Ret arr.

(** What the merge writes for the runs [l1] and [l2], where [run2] is the
    whole second run, of which [l2] is what has not been taken yet: the
    smaller head first, the head of [l1] on a tie; what is left of [l1] once
    [l2] is used up; and, once [l1] is used up, as many elements as are left
    in [l2], taken from the start of [run2]. *)
Fixpoint merged (run2 l1 : list upb_UnknownField) {struct l1}
  : list upb_UnknownField -> list upb_UnknownField :=
  fix inner (l2 : list upb_UnknownField) : list upb_UnknownField :=
    match l1, l2 with
    | [], _ => firstn (length l2) run2
    | _, [] => l1
    | a :: l1', b :: l2' =>
        if tag a <=? tag b then a :: merged run2 l1' l2 else b :: inner l2'
    end.

(** The stable merge of two runs. *)
Fixpoint stable_merge (l1 : list upb_UnknownField) {struct l1}
  : list upb_UnknownField -> list upb_UnknownField :=
  fix inner (l2 : list upb_UnknownField) : list upb_UnknownField :=
    match l1, l2 with
    | [], _ => l2
    | _, [] => l1
    | a :: l1', b :: l2' =>
        if tag a <=? tag b then a :: stable_merge l1' l2 else b :: inner l2'
    end.

(** The tags of an array do not decrease. *)
Fixpoint ascending (l : list upb_UnknownField) : Prop :=
  match l with
  | [] => True
  | a :: l' => match l' with
               | [] => True
               | b :: _ => tag a <= tag b
               end /\ ascending l'
  end.

(** * Field sets without their capacities *)

(** The comparator does not read [capacity]. [erase] sets it to 0 in a set
    and in the sets nested in it, so that two sets with the same fields are
    the same term. *)
Fixpoint erase (uf : upb_UnknownFields) : upb_UnknownFields :=
  match uf with
  | UnknownFields fs _ =>
      UnknownFields
        (map (fun f =>
                match f with
                | UnknownField t (data_group g) =>
                    UnknownField t (data_group (erase g))
                | _ => f
                end) fs) 0
  end.

Definition erase_field (f : upb_UnknownField) : upb_UnknownField :=
  match f with
  | UnknownField t (data_group g) => UnknownField t (data_group (erase g))
  | _ => f
  end.

(** * The tree the builder returns *)

(** The capacity of the field array after one more field: the array grows
    when it is full, to [UPB_MAX(4, old * 2)]. *)
Definition grow_cap (len cap : nat) : nat :=
  if (len =? cap)%nat then Nat.max 4 (len * 2) else cap.

(** The context after the growth, if any, of a successful request. *)
Definition grow_ctx (ctx : upb_UnknownField_Context) (len cap : nat)
  : upb_UnknownField_Context :=
  if (len =? cap)%nat then set_arena ctx (S (arena ctx)) else ctx.

(** The capacity after [n] more fields. *)
Fixpoint grown (len cap n : nat) : nat :=
  match n with
  | O => cap
  | S n' => grown (S len) (grow_cap len cap) n'
  end.

(** The [sorted] flag of the builder after the tags [tags], from
    [last_tag = last] and [sorted]. *)
Fixpoint seen_sorted (last : Z) (sorted : bool) (tags : list Z) : bool :=
  match tags with
  | [] => sorted
  | t :: tags' => seen_sorted t (if t <? last then false else sorted) tags'
  end.

(** What [upb_UnknownFields_SortRecursive] makes of a whole array when the
    scratch block has room for it. *)
Definition sorted_by_code (l : list upb_UnknownField) : list upb_UnknownField :=
  match upb_UnknownFields_SortRecursive (length l) l 0 (length l)
          (Some (length l)) with
  | Ret r => r
  | _ => l
  end.

(** The set the builder returns for an array, a capacity and a flag. *)
Definition finished (arr : list upb_UnknownField) (cap : nat) (sorted : bool)
  : upb_UnknownFields :=
  UnknownFields (if sorted then arr else sorted_by_code arr) cap.

(** The field the builder appends for a well-formed field of the buffer,
    and the set it returns for the fields of one nesting level. *)
Fixpoint built_field (f : wire_field) : upb_UnknownField :=
  match f with
  | W_varint t v => UnknownField (varint_value t) (data_varint (varint_value v))
  | W_64bit t raw => UnknownField (varint_value t) (data_uint64 (le_value raw))
  | W_delimited t len body =>
      UnknownField (varint_value t) (data_delimited body)
  | W_group t body e =>
      UnknownField (varint_value t)
        (data_group
           (finished (map built_field body) (grown 0 0 (length body))
              (seen_sorted 0 true (map wire_tag body))))
  | W_32bit t raw => UnknownField (varint_value t) (data_uint32 (le_value raw))
  end.

Definition built_set (fs : list wire_field) : upb_UnknownFields :=
  finished (map built_field fs) (grown 0 0 (length fs))
    (seen_sorted 0 true (map wire_tag fs)).

(** The builder, started with [fuel] at the well-formed fields [fs] of one
    nesting level: the set it returns. *)
Definition builds (fuel : nat) : Prop :=
  forall (alloc : allocator) (buf : list byte) (fs : list wire_field)
         (rest e : list byte) (ctx : upb_UnknownField_Context)
         (arr : list upb_UnknownField) (cap : nat) (p last : Z) (sorted : bool),
    never_fails alloc -> tmp_inv ctx ->
    forallb wire_ok fs = true ->
    suffix_at buf p (flat_map wire_bytes fs ++ rest) ->
    ctx_end ctx = Z.of_nat (length buf) ->
    closes rest e ->
    Z.of_nat (nesting_depth fs) < depth ctx ->
    (length (flat_map wire_bytes fs ++ rest) < fuel)%nat ->
    exists ctx',
      DoBuild_loop fuel alloc buf ctx arr cap p last sorted
      = Ret (finished (arr ++ map built_field fs)
               (grown (length arr) cap (length fs))
               (seen_sorted last sorted (map wire_tag fs)),
             p + Z.of_nat (length (flat_map wire_bytes fs))
               + Z.of_nat (length e),
             ctx')
      /\ depth ctx' = depth ctx /\ ctx_end ctx' = ctx_end ctx /\ tmp_inv ctx'.
(** * Properties *)

(** ** Generic facts about outcomes *)

Lemma bind_Ret_inv {A B : Type} (m : outcome A) (k : A -> outcome B) (b : B) :
  bind m k = Ret b -> exists a, m = Ret a /\ k a = Ret b.
Proof.
  destruct m as [a| | |]; simpl; intros H; try discriminate.
  exists a; split; [reflexivity | exact H].
Qed.

Lemma UPB_ASSERT_true (c : bool) : c = true -> UPB_ASSERT c = Ret tt.
Proof. intros ->; reflexivity. Qed.

Lemma UPB_ASSERT_Ret_inv (c : bool) (u : unit) : UPB_ASSERT c = Ret u -> c = true.
Proof. destruct c; simpl; [reflexivity | discriminate]. Qed.

(** ** Bytes *)

Lemma u8_range (b : byte) : 0 <= u8 b < 256.
Proof.
  unfold u8. pose proof (Byte.to_N_bounded b) as H.
  split; [apply N2Z.is_nonneg | ].
  apply N2Z.inj_le in H. simpl in H. lia.
Qed.

Lemma u8_inj (a b : byte) : u8 a = u8 b -> a = b.
Proof.
  unfold u8; intros H. apply N2Z.inj in H.
  pose proof (Byte.of_to_N a) as Ha. pose proof (Byte.of_to_N b) as Hb.
  rewrite H in Ha. rewrite Ha in Hb. now inversion Hb.
Qed.

Lemma load_app (pre rest : list byte) (b : byte) :
  load (pre ++ b :: rest) (Z.of_nat (length pre)) = Some b.
Proof.
  unfold load.
  destruct (Z.of_nat (length pre) <? 0) eqn:E; [apply Z.ltb_lt in E; lia | ].
  rewrite Nat2Z.id, nth_error_app2 by lia.
  now rewrite Nat.sub_diag.
Qed.

Lemma load_bytes_app (pre bs rest : list byte) :
  load_bytes (pre ++ bs ++ rest) (Z.of_nat (length pre)) (length bs) = bs.
Proof.
  unfold load_bytes. rewrite Nat2Z.id, skipn_app, skipn_all, Nat.sub_diag.
  simpl. rewrite firstn_app, firstn_all, Nat.sub_diag. simpl.
  apply app_nil_r.
Qed.

(** A buffer splits around any range of bytes that lies inside it. *)
Lemma load_bytes_split (buf : list byte) (ptr : Z) (bs : list byte) :
  0 <= ptr -> load_bytes buf ptr (length bs) = bs ->
  bs <> [] ->
  exists pre rest, buf = pre ++ bs ++ rest /\ ptr = Z.of_nat (length pre).
Proof.
  intros Hp Hl Hne. unfold load_bytes in Hl.
  exists (firstn (Z.to_nat ptr) buf), (skipn (length bs) (skipn (Z.to_nat ptr) buf)).
  assert (Hlen : (Z.to_nat ptr <= length buf)%nat).
  { destruct (Nat.le_gt_cases (Z.to_nat ptr) (length buf)) as [H|H]; [exact H|].
    rewrite skipn_all2 in Hl by lia. rewrite firstn_nil in Hl.
    now symmetry in Hl. }
  split.
  - rewrite <- Hl at 1. rewrite firstn_skipn. now rewrite firstn_skipn.
  - rewrite length_firstn, Nat.min_l by exact Hlen. lia.
Qed.

(** ** The varint decoder *)

Lemma group7_range (b : byte) : 0 <= group7 b < 128.
Proof.
  unfold group7. change 127 with (Z.ones 7). rewrite Z.land_ones by lia.
  apply Z.mod_pos_bound. lia.
Qed.

Lemma varint_groups_nonneg (bs : list byte) : 0 <= varint_groups bs.
Proof.
  induction bs as [|b bs IH]; cbn [varint_groups]; [lia | ].
  pose proof (group7_range b). lia.
Qed.

Lemma wrap64_range (z : Z) : 0 <= wrap64 z < 2 ^ 64.
Proof. unfold wrap64. apply Z.mod_pos_bound. lia. Qed.

Lemma wrap64_small (z : Z) : 0 <= z < 2 ^ 64 -> wrap64 z = z.
Proof. unfold wrap64. intros H. now apply Z.mod_small. Qed.

Lemma wrap64_add_l (a b : Z) : wrap64 (wrap64 a + b) = wrap64 (a + b).
Proof. unfold wrap64. apply Zplus_mod_idemp_l. Qed.

(** Or-ing a shifted group into the bits below it adds it. *)
Lemma lor_shifted_group (val g bitpos : Z) :
  0 <= bitpos -> 0 <= val < 2 ^ bitpos -> val < 2 ^ 64 -> 0 <= g ->
  Z.lor val (wrap64 (Z.shiftl g bitpos)) = wrap64 (val + g * 2 ^ bitpos).
Proof.
  intros Hb Hv Hv64 Hg.
  assert (Hdisj : Z.land val (Z.shiftl g bitpos) = 0).
  { apply Z.bits_inj'. intros n Hn. rewrite Z.land_spec, Z.bits_0.
    destruct (Z.lt_ge_cases n bitpos) as [Hlt|Hge].
    - rewrite Z.shiftl_spec_low by lia. apply andb_false_r.
    - rewrite <- (Z.mod_small val (2 ^ bitpos)) by lia.
      rewrite Z.mod_pow2_bits_high by lia. reflexivity. }
  rewrite <- (wrap64_small val) at 1 by lia.
  unfold wrap64. change (2 ^ 64) with (2 ^ 64) .
  rewrite <- !Z.land_ones by lia.
  rewrite <- Z.land_lor_distr_l.
  f_equal.
  rewrite <- Z.lxor_lor by exact Hdisj.
  rewrite <- Z.add_nocarry_lxor by exact Hdisj.
  now rewrite Z.shiftl_mul_pow2 by lia.
Qed.

Lemma ParseVarint_loop_ok (bs : list byte) :
  forall (fuel : nat) (pre rest : list byte) (limit : Z) (j : nat) (val : Z),
    varint_ok bs = true ->
    (j + length bs <= 10)%nat ->
    (length bs <= fuel)%nat ->
    Z.of_nat (length pre) + Z.of_nat (length bs) <= limit ->
    0 <= val < 2 ^ (7 * Z.of_nat j) -> val < 2 ^ 64 ->
    ParseVarint_loop fuel (pre ++ bs ++ rest) (Z.of_nat (length pre)) limit
      (7 * Z.of_nat j) val
    = Ret (Z.of_nat (length pre) + Z.of_nat (length bs),
           wrap64 (val + varint_groups bs * 2 ^ (7 * Z.of_nat j))).
Proof.
  induction bs as [|b bs IH]; intros fuel pre rest limit j val Hok Hj Hf Hlim Hv Hv64.
  - discriminate.
  - destruct fuel as [|fuel]; [simpl in Hf; lia | ].
    cbn [ParseVarint_loop length] in *.
    rewrite UPB_ASSERT_true; cycle 1.
    { apply andb_true_intro; split; [apply Z.ltb_lt | apply Z.ltb_lt]; lia. }
    cbn [bind]. simpl app. rewrite load_app.
    pose proof (group7_range b) as Hg.
    fold (group7 b).
    rewrite lor_shifted_group by lia.
    assert (Hnext : 0 <= val + group7 b * 2 ^ (7 * Z.of_nat j)
                    < 2 ^ (7 * Z.of_nat (S j))).
    { replace (7 * Z.of_nat (S j)) with (7 * Z.of_nat j + 7) by lia.
      rewrite Z.pow_add_r by lia. change (2 ^ 7) with 128. nia. }
    destruct bs as [|b' bs].
    + cbn [varint_ok] in Hok. unfold continuation in Hok.
      rewrite negb_involutive in Hok. rewrite Hok.
      cbn [varint_groups]. rewrite Z.mul_0_r, Z.add_0_r. reflexivity.
    + cbn [varint_ok] in Hok. apply andb_prop in Hok as [Hc Hok].
      unfold continuation in Hc. apply negb_true_iff in Hc. rewrite Hc.
      replace (pre ++ b :: (b' :: bs) ++ rest)
        with ((pre ++ [b]) ++ (b' :: bs) ++ rest)
        by (rewrite <- app_assoc; reflexivity).
      replace (Z.of_nat (length pre) + 1) with (Z.of_nat (length (pre ++ [b])))
        by (rewrite length_app; simpl; lia).
      replace (7 * Z.of_nat j + 7) with (7 * Z.of_nat (S j)) by lia.
      rewrite IH;
        [ | exact Hok | simpl length in *; lia | simpl length in *; lia
          | rewrite length_app; simpl length in *; lia | | apply wrap64_range ].
      * f_equal. f_equal; [rewrite length_app; simpl length; lia | ].
        rewrite wrap64_add_l. f_equal.
        cbn [varint_groups].
        replace (7 * Z.of_nat (S j)) with (7 * Z.of_nat j + 7) by lia.
        rewrite Z.pow_add_r by lia. ring.
      * pose proof (wrap64_range (val + group7 b * 2 ^ (7 * Z.of_nat j))).
        unfold wrap64 in *. split; [lia|].
        eapply Z.le_lt_trans; [apply Z.mod_le; lia | lia].
Qed.

Lemma ParseVarint_app (pre bs rest : list byte) (limit : Z) :
  varint_ok bs = true -> (length bs <= 10)%nat ->
  Z.of_nat (length pre) + Z.of_nat (length bs) <= limit ->
  upb_UnknownFields_ParseVarint (pre ++ bs ++ rest) (Z.of_nat (length pre)) limit
  = Ret (Z.of_nat (length pre) + Z.of_nat (length bs), wrap64 (varint_groups bs)).
Proof.
  intros Hok Hlen Hlim. unfold upb_UnknownFields_ParseVarint.
  change 0 with (7 * Z.of_nat 0) at 1.
  rewrite ParseVarint_loop_ok;
    [ | exact Hok | lia | lia | exact Hlim | simpl; lia | lia ].
  change (2 ^ (7 * Z.of_nat 0)) with 1.
  now rewrite Z.mul_1_r, Z.add_0_l.
Qed.

(** Whatever the bytes are, a call that returns has consumed between one and
    ten bytes, all of them before [limit]. *)
Lemma ParseVarint_loop_bounds (fuel : nat) :
  forall (buf : list byte) (ptr limit bitpos val p v : Z),
    ParseVarint_loop fuel buf ptr limit bitpos val = Ret (p, v) ->
    ptr < p <= limit /\ p - ptr <= Z.of_nat fuel.
Proof.
  induction fuel as [|fuel IH]; intros buf ptr limit bitpos val p v H.
  - discriminate.
  - cbn [ParseVarint_loop] in H.
    apply bind_Ret_inv in H as [u [Ha H]].
    apply UPB_ASSERT_Ret_inv in Ha. apply andb_prop in Ha as [_ Hl].
    apply Z.ltb_lt in Hl.
    destruct (load buf ptr) as [b|]; [ | discriminate].
    destruct (Z.land (u8 b) 128 =? 0).
    + inversion H; subst. lia.
    + apply IH in H. lia.
Qed.

Lemma ParseVarint_bounds (buf : list byte) (ptr limit p v : Z) :
  upb_UnknownFields_ParseVarint buf ptr limit = Ret (p, v) ->
  ptr < p <= limit /\ p <= ptr + 10.
Proof.
  unfold upb_UnknownFields_ParseVarint. intros H.
  assert (Hten : forall fuel bitpos val,
             ParseVarint_loop fuel buf ptr limit bitpos val = Ret (p, v) ->
             0 <= bitpos -> 7 * (p - ptr) + bitpos <= 76).
  { clear H. intros fuel. generalize ptr.
    induction fuel as [|fuel IH]; intros q bitpos val H Hb; [discriminate | ].
    cbn [ParseVarint_loop] in H.
    apply bind_Ret_inv in H as [u [Ha H]].
    apply UPB_ASSERT_Ret_inv in Ha. apply andb_prop in Ha as [Hbp _].
    apply Z.ltb_lt in Hbp.
    destruct (load buf q) as [b|]; [ | discriminate].
    destruct (Z.land (u8 b) 128 =? 0).
    - inversion H; subst. lia.
    - apply IH in H; lia. }
  pose proof (ParseVarint_loop_bounds _ _ _ _ _ _ _ _ H) as [Hp _].
  apply Hten in H; lia.
Qed.

(** The eleven units of fuel are never used up. *)
Lemma ParseVarint_fuel (buf : list byte) (ptr limit : Z) :
  upb_UnknownFields_ParseVarint buf ptr limit <> OutOfFuel.
Proof.
  unfold upb_UnknownFields_ParseVarint.
  assert (H : forall fuel q bitpos val,
             70 <= bitpos + 7 * Z.of_nat fuel ->
             ParseVarint_loop (S fuel) buf q limit bitpos val <> OutOfFuel).
  { induction fuel as [|fuel IH]; intros q bitpos val Hb.
    - cbn [ParseVarint_loop]. unfold UPB_ASSERT.
      destruct (bitpos <? 70) eqn:E; [apply Z.ltb_lt in E; lia | ].
      simpl; discriminate.
    - remember (S fuel) as fuel1. cbn [ParseVarint_loop]. unfold UPB_ASSERT.
      destruct (bitpos <? 70) eqn:E; [ | simpl; discriminate].
      destruct (q <? limit); [ | simpl; discriminate]. cbn [andb bind].
      destruct (load buf q) as [b|]; [ | discriminate].
      destruct (Z.land (u8 b) 128 =? 0); [discriminate | ].
      subst fuel1. apply IH. lia. }
  apply H. lia.
Qed.

(** C10. For a well-formed varint within [[ptr, limit)] the decoder returns
    the 7-bit groups assembled little-endian (truncated to 64 bits), having
    stopped at the first byte without continuation bit, and the cursor
    advanced by the number of bytes of the varint, which is at most ten. *)
Theorem ParseVarint_decodes (buf : list byte) (ptr limit : Z) (bs : list byte) :
  varint_at buf ptr limit bs ->
  upb_UnknownFields_ParseVarint buf ptr limit
  = Ret (ptr + Z.of_nat (length bs), varint_value bs)
  /\ 1 <= Z.of_nat (length bs) <= 10
  /\ 0 <= varint_value bs < 2 ^ 64.
Proof.
  intros (Hp & Hlim & Hload & Hok & Hlen).
  assert (Hne : bs <> []) by (intros ->; discriminate).
  destruct (load_bytes_split buf ptr bs Hp Hload Hne) as (pre & rest & -> & ->).
  split; [ | split].
  - now apply ParseVarint_app.
  - destruct bs; [contradiction | simpl length in *; lia].
  - apply wrap64_range.
Qed.

Lemma ParseVarint_decodes_witness :
  upb_UnknownFields_ParseVarint [x08; x96; x01; x10] 1 4 = Ret (1 + 2, 150)
  /\ 1 <= 2 <= 10 /\ 0 <= 150 < 2 ^ 64.
Proof.
  apply (ParseVarint_decodes [x08; x96; x01; x10] 1 4 [x96; x01]).
  repeat split; simpl; lia.
Defined.

(** ** The fast paths of the entry point *)

Lemma memcmp_Ret_length (s1 s2 : list byte) (n : nat) (c : Z) :
  memcmp s1 s2 n = Ret c -> (n <= length s1)%nat /\ (n <= length s2)%nat.
Proof.
  unfold memcmp.
  destruct (Nat.leb_spec n (length s1)); [ | discriminate].
  destruct (Nat.leb_spec n (length s2)); [ | discriminate].
  now split.
Qed.

Lemma memcmp_bytes_prefix (s rest : list byte) :
  memcmp_bytes s (s ++ rest) (length s) = 0.
Proof.
  induction s as [|b s IH]; [reflexivity | ].
  cbn [memcmp_bytes length app]. now rewrite Z.ltb_irrefl.
Qed.

Lemma memcmp_prefix (s rest : list byte) :
  memcmp s (s ++ rest) (length s) = Ret 0.
Proof.
  unfold memcmp. rewrite Nat.leb_refl, length_app.
  destruct (Nat.leb_spec (length s) (length s + length rest)) as [_|H]; [ | lia].
  cbn [andb]. now rewrite memcmp_bytes_prefix.
Qed.

(** Where both objects hold the bytes compared, the result is 0 exactly
    when the bytes are the same. *)
Lemma memcmp_bytes_zero (s1 : list byte) :
  forall s2, (length s1 <= length s2)%nat ->
    (memcmp_bytes s1 s2 (length s1) = 0 <-> firstn (length s1) s2 = s1).
Proof.
  induction s1 as [|a s1 IH]; intros s2 Hlen; [now split | ].
  destruct s2 as [|b s2]; [cbn [length] in Hlen; lia | ].
  cbn [length] in Hlen. cbn [memcmp_bytes length firstn].
  destruct (Z.ltb_spec (u8 a) (u8 b)) as [Hlt|Hge].
  - split; [discriminate | intros E; injection E as E _; subst; lia].
  - destruct (Z.ltb_spec (u8 b) (u8 a)) as [Hlt|Hge'].
    + split; [discriminate | intros E; injection E as E _; subst; lia].
    + assert (E : a = b) by (apply u8_inj; lia). subst b.
      rewrite (IH s2) by lia.
      split; [now intros -> | now intros [= ->]].
Qed.

(** The three ways [memcmp(buf1, buf2, size1)] can go. *)
Lemma memcmp_spec (s1 s2 : list byte) :
  (memcmp s1 s2 (length s1) = Ret 0 /\ firstn (length s1) s2 = s1)
  \/ (memcmp s1 s2 (length s1) = Undefined /\ (length s2 < length s1)%nat)
  \/ (exists c, memcmp s1 s2 (length s1) = Ret c /\ c <> 0
                /\ (length s1 <= length s2)%nat
                /\ firstn (length s1) s2 <> s1).
Proof.
  unfold memcmp. rewrite Nat.leb_refl. cbn [andb].
  destruct (Nat.leb_spec (length s1) (length s2)) as [Hle|Hlt].
  - pose proof (memcmp_bytes_zero s1 s2 Hle) as Hz.
    destruct (Z.eq_dec (memcmp_bytes s1 s2 (length s1)) 0) as [E|E].
    + left. rewrite E. split; [reflexivity | now apply Hz].
    + right; right. exists (memcmp_bytes s1 s2 (length s1)).
      repeat split; try assumption. intros H. now apply E, Hz.
  - right; left. now split.
Qed.

Lemma memcmp_same (s : list byte) : memcmp s s (length s) = Ret 0.
Proof. rewrite <- (app_nil_r s) at 2. apply memcmp_prefix. Qed.

(** A buffer compared with itself never reaches the parser. *)
Lemma compare_same_buffer (alloc : allocator) (buf : list byte) (d : Z) :
  upb_Message_UnknownFieldsAreEqual alloc buf buf d
  = Ret kUpb_UnknownCompareResult_Equal.
Proof.
  unfold upb_Message_UnknownFieldsAreEqual.
  rewrite memcmp_same. now destruct buf.
Qed.

(** ** Claims on the fast paths *)

(** C8. Reflexivity: for every well-formed buffer [X] and every [d] at least
    the nesting depth of [X], comparing [X] with itself returns Equal.  (The
    code answers on a fast path, so that the result does not depend on the
    two conditions: [compare_same_buffer].) *)
Theorem compare_reflexive (alloc : allocator) (X : list byte)
    (fs : list wire_field) (d : Z) :
  encodes X fs -> Z.of_nat (nesting_depth fs) <= d ->
  upb_Message_UnknownFieldsAreEqual alloc X X d
  = Ret kUpb_UnknownCompareResult_Equal.
Proof. intros _ _. apply compare_same_buffer. Qed.

Lemma compare_reflexive_witness :
  upb_Message_UnknownFieldsAreEqual alloc_ok
    [x0b; x08; x01; x0c] [x0b; x08; x01; x0c] 1
  = Ret kUpb_UnknownCompareResult_Equal.
Proof.
  apply (compare_reflexive alloc_ok [x0b; x08; x01; x0c]
           [W_group [x0b] [W_varint [x08] [x01]] [x0c]] 1).
  - split; reflexivity.
  - simpl. lia.
Defined.

(** C3. A non-empty buffer that is a strict prefix of the other one compares
    Equal: the byte comparison looks at the first [size1] bytes only and the
    two sizes are not compared. *)
Theorem strict_prefix_compares_Equal (alloc : allocator)
    (buf1 buf2 : list byte) (d : Z) :
  buf1 <> [] -> (length buf1 < length buf2)%nat ->
  firstn (length buf1) buf2 = buf1 ->
  upb_Message_UnknownFieldsAreEqual alloc buf1 buf2 d
  = Ret kUpb_UnknownCompareResult_Equal.
Proof.
  intros Hne Hlt Hpre. unfold upb_Message_UnknownFieldsAreEqual.
  assert (E : memcmp buf1 buf2 (length buf1) = Ret 0).
  { rewrite <- (firstn_skipn (length buf1) buf2), Hpre. apply memcmp_prefix. }
  rewrite E.
  destruct buf1 as [|a buf1]; [contradiction | ].
  destruct buf2 as [|b buf2]; [simpl in Hlt; lia | reflexivity].
Qed.

Lemma strict_prefix_compares_Equal_witness :
  upb_Message_UnknownFieldsAreEqual alloc_ok [x08; x01] [x08; x01; x10; x02] 1
  = Ret kUpb_UnknownCompareResult_Equal.
Proof.
  apply (strict_prefix_compares_Equal alloc_ok [x08; x01]
           [x08; x01; x10; x02] 1).
  - discriminate.
  - simpl. lia.
  - reflexivity.
Defined.

(** ** The comparator *)

Lemma IsEqual_unfold (fs1 : list upb_UnknownField) (c1 : nat)
    (uf2 : upb_UnknownFields) :
  upb_UnknownFields_IsEqual (UnknownFields fs1 c1) uf2
  = if negb (length fs1 =? size uf2)%nat then Ret false
    else IsEqual_loop fs1 (fields uf2).
Proof.
  cbn [upb_UnknownFields_IsEqual].
  destruct (negb (length fs1 =? size uf2)%nat); reflexivity.
Qed.

Lemma set_typed_unfold (fs : list upb_UnknownField) (c : nat) :
  set_typed (UnknownFields fs c) = forallb field_typed fs.
Proof.
  cbn [set_typed]. induction fs as [|[t d] fs IH]; [reflexivity | ].
  cbn [forallb]. now rewrite IH.
Qed.

Lemma upb_strview_eql_spec (a b : list byte) :
  upb_strview_eql a b = true <-> a = b.
Proof.
  revert b. induction a as [|x a IH]; intros [|y b]; simpl;
    try (split; [discriminate | discriminate]); try tauto.
  rewrite andb_true_iff, IH. split.
  - intros [Hx ->]. apply Byte.byte_dec_bl in Hx. now subst.
  - intros H. inversion H; subst. split; [now apply Byte.byte_dec_lb | reflexivity].
Qed.

(** Induction over a set and the sets nested in its groups. *)
Lemma upb_UnknownFields_nested_ind (P : upb_UnknownFields -> Prop) :
  (forall fs c,
      (forall t g, In (UnknownField t (data_group g)) fs -> P g) ->
      P (UnknownFields fs c)) ->
  forall uf, P uf.
Proof.
  intros H. fix IH 1. intros [fs c]. apply H.
  induction fs as [|[t d] fs IHfs].
  - intros t g [].
  - intros t' g [E|Hin].
    + destruct d as [ | | | |g0]; try discriminate.
      replace g with g0 by congruence. apply IH.
    + exact (IHfs t' g Hin).
Qed.

Ltac unfold_wire_types :=
  unfold UPB_WIRE_TYPE_VARINT, UPB_WIRE_TYPE_64BIT, UPB_WIRE_TYPE_32BIT,
    UPB_WIRE_TYPE_DELIMITED, UPB_WIRE_TYPE_START_GROUP,
    UPB_WIRE_TYPE_END_GROUP in *.

Lemma Forall2_cons_iff {A B : Type} (R : A -> B -> Prop) a b l1 l2 :
  Forall2 R (a :: l1) (b :: l2) <-> R a b /\ Forall2 R l1 l2.
Proof.
  split; [intros H; inversion H; subst; tauto | intros [? ?]; now constructor].
Qed.

(** The loop on arrays of the same length whose fields hold the members their
    tags select: it returns, and it returns true iff the fields match
    position by position. *)
Lemma IsEqual_loop_spec (l1 : list upb_UnknownField) :
  (forall t g, In (UnknownField t (data_group g)) l1 ->
     forall g2, set_typed g2 = true ->
       exists b, upb_UnknownFields_IsEqual g g2 = Ret b) ->
  forallb field_typed l1 = true ->
  forall l2, forallb field_typed l2 = true -> length l1 = length l2 ->
  exists b, IsEqual_loop l1 l2 = Ret b /\ (b = true <-> Forall2 field_match l1 l2).
Proof.
  induction l1 as [|[t1 d1] l1 IH]; intros Hg Ht1 l2 Ht2 Hlen.
  - destruct l2; [ | discriminate]. exists true. split; [reflexivity | ].
    split; [constructor | reflexivity].
  - destruct l2 as [|[t2 d2] l2]; [discriminate | ].
    cbn [forallb] in Ht1, Ht2.
    apply andb_prop in Ht1 as [Hf1 Ht1]. apply andb_prop in Ht2 as [Hf2 Ht2].
    injection Hlen as Hlen.
    destruct (IH (fun t g H => Hg t g (or_intror H)) Ht1 l2 Ht2 Hlen)
      as (b & Hb & Hiff).
    assert (Hhead : forall P : Prop,
               (field_match (UnknownField t1 d1) (UnknownField t2 d2) <-> P) ->
               (P -> exists b', IsEqual_loop (UnknownField t1 d1 :: l1)
                                  (UnknownField t2 d2 :: l2) = Ret b'
                                /\ b' = b) ->
               (~ P -> IsEqual_loop (UnknownField t1 d1 :: l1)
                         (UnknownField t2 d2 :: l2) = Ret false) ->
               (P \/ ~ P) ->
               exists b', IsEqual_loop (UnknownField t1 d1 :: l1)
                            (UnknownField t2 d2 :: l2) = Ret b'
                 /\ (b' = true <->
                     Forall2 field_match (UnknownField t1 d1 :: l1)
                       (UnknownField t2 d2 :: l2))).
    { intros P HP Hyes Hno [Hp|Hn].
      - destruct (Hyes Hp) as (b' & Hb' & ->). exists b. split; [exact Hb' | ].
        rewrite Forall2_cons_iff, Hiff, HP. tauto.
      - exists false. split; [exact (Hno Hn) | ].
        rewrite Forall2_cons_iff, HP. split; [discriminate | tauto]. }
    cbn [IsEqual_loop tag data] in Hhead |- *.
    unfold field_match in Hhead. cbn [tag data] in Hhead.
    destruct (Z.eqb_spec t1 t2) as [<-|Hne]; cbn [negb] in Hhead |- *;
      [ | apply (Hhead False); [tauto | tauto | reflexivity | tauto]].
    destruct d1 as [v1|v1|v1|s1|g1]; cbn [field_typed] in Hf1;
      try (apply andb_prop in Hf1 as [Hf1 Hs1]); apply Z.eqb_eq in Hf1;
      destruct d2 as [v2|v2|v2|s2|g2]; cbn [field_typed] in Hf2;
      try (apply andb_prop in Hf2 as [Hf2 Hs2]); apply Z.eqb_eq in Hf2;
      unfold_wire_types;
      try (exfalso; rewrite Hf1 in Hf2; discriminate);
      rewrite Hf1 in Hhead |- *; cbn [Z.eqb Pos.eqb payload_match] in Hhead |- *.
    + apply (Hhead (v1 = v2)); [tauto | | | lia].
      * intros ->. rewrite Z.eqb_refl. cbn [negb]. now exists b.
      * intros Hv. apply Z.eqb_neq in Hv. now rewrite Hv.
    + apply (Hhead (v1 = v2)); [tauto | | | lia].
      * intros ->. rewrite Z.eqb_refl. cbn [negb]. now exists b.
      * intros Hv. apply Z.eqb_neq in Hv. now rewrite Hv.
    + apply (Hhead (v1 = v2)); [tauto | | | lia].
      * intros ->. rewrite Z.eqb_refl. cbn [negb]. now exists b.
      * intros Hv. apply Z.eqb_neq in Hv. now rewrite Hv.
    + apply (Hhead (upb_strview_eql s1 s2 = true));
        [rewrite upb_strview_eql_spec; tauto | | | ].
      * intros ->. cbn [negb]. now exists b.
      * intros Hs. apply not_true_is_false in Hs. now rewrite Hs.
      * destruct (upb_strview_eql s1 s2); [now left | now right].
    + destruct (Hg t1 g1 (or_introl eq_refl) g2 Hs2) as [bg Hbg].
      apply (Hhead (bg = true)); try rewrite Hbg; cbn [bind].
      * split; [intros [_ [_ E]]; congruence | intros ->; tauto].
      * intros ->. cbn [negb]. now exists b.
      * intros Hs. apply not_true_is_false in Hs. now rewrite Hs.
      * destruct bg; [now left | now right].
Qed.

(** On sets that satisfy the invariant the comparator always returns. *)
Lemma IsEqual_total (uf1 : upb_UnknownFields) :
  set_typed uf1 = true ->
  forall uf2, set_typed uf2 = true ->
  exists b, upb_UnknownFields_IsEqual uf1 uf2 = Ret b.
Proof.
  induction uf1 as [fs1 c1 IH] using upb_UnknownFields_nested_ind.
  intros Ht1 [fs2 c2] Ht2. rewrite IsEqual_unfold.
  destruct (length fs1 =? size (UnknownFields fs2 c2))%nat eqn:E; cbn [negb];
    [ | now exists false].
  apply Nat.eqb_eq in E. rewrite set_typed_unfold in Ht1, Ht2.
  assert (Hg : forall t g, In (UnknownField t (data_group g)) fs1 ->
                 forall g2, set_typed g2 = true ->
                   exists b, upb_UnknownFields_IsEqual g g2 = Ret b).
  { intros t g Hin. apply (IH t g Hin).
    rewrite forallb_forall in Ht1. specialize (Ht1 _ Hin).
    cbn [field_typed] in Ht1. now apply andb_prop in Ht1 as [_ ?]. }
  destruct (IsEqual_loop_spec fs1 Hg Ht1 fs2 Ht2 E) as (b & Hb & _).
  now exists b.
Qed.

(** One round of the loop: the comparison of the fields at one position
    decides whether the loop goes on. *)
Lemma IsEqual_loop_cons (f1 f2 : upb_UnknownField)
    (l1 l2 : list upb_UnknownField) :
  IsEqual_loop (f1 :: l1) (f2 :: l2)
  = (b <- IsEqual_loop [f1] [f2] ;;
     if b then IsEqual_loop l1 l2 else Ret false).
Proof.
  destruct f1 as [t1 d1]. cbn [IsEqual_loop].
  destruct (negb (t1 =? tag f2)); [reflexivity | ].
  repeat match goal with
         | |- context [if Z.land t1 7 =? ?w then _ else _] =>
             destruct (Z.land t1 7 =? w)
         end;
    try reflexivity;
    destruct d1, (data f2); try reflexivity;
    try match goal with
        | |- context [negb ?c] => destruct c; reflexivity
        end.
  destruct (upb_UnknownFields_IsEqual g g0) as [[|]| | |]; reflexivity.
Qed.

Lemma IsEqual_loop_app (l1 : list upb_UnknownField) :
  forall l2 x y,
    IsEqual_loop l1 l2 = Ret true -> length l1 = length l2 ->
    IsEqual_loop (l1 ++ x) (l2 ++ y) = IsEqual_loop x y.
Proof.
  induction l1 as [|f1 l1 IH]; intros [|f2 l2] x y H Hlen; try discriminate.
  - reflexivity.
  - injection Hlen as Hlen. cbn [app].
    rewrite IsEqual_loop_cons in H |- *.
    destruct (IsEqual_loop [f1] [f2]) as [[|]| | |]; cbn [bind] in H |- *;
      try discriminate.
    now apply IH.
Qed.

Lemma Forall2_nth_error {A B : Type} (R : A -> B -> Prop) (l1 : list A) :
  forall l2, length l1 = length l2 ->
    (Forall2 R l1 l2 <->
     forall i a b, nth_error l1 i = Some a -> nth_error l2 i = Some b -> R a b).
Proof.
  induction l1 as [|x l1 IH]; intros [|y l2] Hlen; try discriminate.
  - split; [intros _ [|i] a b; discriminate | constructor].
  - injection Hlen as Hlen. rewrite Forall2_cons_iff, (IH l2 Hlen). split.
    + intros [Hxy Hrest] [|i] a b Ha Hb.
      * cbn in Ha, Hb. congruence.
      * exact (Hrest i a b Ha Hb).
    + intros H. split; [exact (H 0%nat x y eq_refl eq_refl) | ].
      intros i a b Ha Hb. exact (H (S i) a b Ha Hb).
Qed.

(** C7. On two built sets the comparator returns not-equal when the sizes
    differ; otherwise it returns true iff at every position the tags are the
    same and the payloads are equal under the wire type of the tag (integers
    for varint, fixed64 and fixed32, byte spans for delimited, the comparator
    itself for groups).  It stops at the first position that does not match:
    whatever follows that position, the result is not-equal. *)
Theorem IsEqual_correct (uf1 uf2 : upb_UnknownFields) :
  set_typed uf1 = true -> set_typed uf2 = true ->
  (exists b, upb_UnknownFields_IsEqual uf1 uf2 = Ret b
     /\ (size uf1 <> size uf2 -> b = false)
     /\ (size uf1 = size uf2 ->
         (b = true <->
          forall i f1 f2, nth_error (fields uf1) i = Some f1 ->
                          nth_error (fields uf2) i = Some f2 ->
                          field_match f1 f2)))
  /\ (forall f1 f2 r1 r2 c1 c2,
        size uf1 = size uf2 ->
        upb_UnknownFields_IsEqual uf1 uf2 = Ret true ->
        field_typed f1 = true -> field_typed f2 = true ->
        ~ field_match f1 f2 -> length r1 = length r2 ->
        upb_UnknownFields_IsEqual (UnknownFields (fields uf1 ++ f1 :: r1) c1)
          (UnknownFields (fields uf2 ++ f2 :: r2) c2) = Ret false).
Proof.
  destruct uf1 as [fs1 c1], uf2 as [fs2 c2]. intros Ht1 Ht2.
  assert (Hgroups : forall l, forallb field_typed l = true ->
            forall t g, In (UnknownField t (data_group g)) l ->
              forall g2, set_typed g2 = true ->
                exists b, upb_UnknownFields_IsEqual g g2 = Ret b).
  { intros l Hl t g Hin. apply IsEqual_total.
    rewrite forallb_forall in Hl. specialize (Hl _ Hin).
    cbn [field_typed] in Hl. now apply andb_prop in Hl as [_ ?]. }
  split.
  - rewrite IsEqual_unfold. unfold size. cbn [fields].
    rewrite set_typed_unfold in Ht1, Ht2.
    destruct (Nat.eqb_spec (length fs1) (length fs2)) as [E|E]; cbn [negb].
    + destruct (IsEqual_loop_spec fs1 (Hgroups fs1 Ht1) Ht1 fs2 Ht2 E)
        as (b & Hb & Hiff).
      exists b. split; [exact Hb | ]. split; [contradiction | ].
      intros _. rewrite Hiff. now apply Forall2_nth_error.
    + exists false. split; [reflexivity | ]. split; [reflexivity | ].
      contradiction.
  - intros f1 f2 r1 r2 c1' c2' Hsize Heq Hf1 Hf2 Hmis Hr.
    unfold size in Hsize. cbn [fields] in *.
    rewrite IsEqual_unfold in Heq |- *. unfold size in Heq |- *.
    cbn [fields] in Heq |- *.
    rewrite !length_app. cbn [length]. rewrite Hsize, Hr, Nat.eqb_refl.
    rewrite Hsize, Nat.eqb_refl in Heq. cbn [negb] in Heq |- *.
    rewrite (IsEqual_loop_app fs1 fs2 _ _ Heq Hsize), IsEqual_loop_cons.
    assert (H1 : forallb field_typed [f1] = true) by (cbn; now rewrite Hf1).
    assert (H2 : forallb field_typed [f2] = true) by (cbn; now rewrite Hf2).
    destruct (IsEqual_loop_spec [f1] (Hgroups [f1] H1) H1 [f2] H2 eq_refl)
      as (b & Hb & Hiff).
    rewrite Hb. cbn [bind]. destruct b; [ | reflexivity].
    exfalso. apply Hmis. destruct Hiff as [Hiff _].
    specialize (Hiff eq_refl). now inversion Hiff.
Qed.

Lemma IsEqual_correct_witness :
  let g := UnknownFields [UnknownField 18 (data_delimited [x61])] 4 in
  let uf1 := UnknownFields
               [UnknownField 8 (data_varint 5); UnknownField 11 (data_group g)] 4 in
  let uf2 := UnknownFields
               [UnknownField 8 (data_varint 5); UnknownField 11 (data_group g)] 8 in
  exists b, upb_UnknownFields_IsEqual uf1 uf2 = Ret b
    /\ (size uf1 <> size uf2 -> b = false)
    /\ (size uf1 = size uf2 ->
        (b = true <->
         forall i f1 f2, nth_error (fields uf1) i = Some f1 ->
                         nth_error (fields uf2) i = Some f2 ->
                         field_match f1 f2)).
Proof.
  intros g uf1 uf2.
  apply (IsEqual_correct uf1 uf2); reflexivity.
Defined.

(** ** The sort stays inside its arrays *)

Lemma store_Ret (arr : list upb_UnknownField) (i : nat) (x : upb_UnknownField) :
  (i < length arr)%nat ->
  exists arr', store arr i x = Ret arr' /\ length arr' = length arr.
Proof.
  intros Hi. unfold store.
  destruct (Nat.ltb_spec i (length arr)) as [_|H]; [ | lia].
  eexists. split; [reflexivity | ].
  rewrite length_app. cbn [length]. rewrite length_firstn, length_skipn. lia.
Qed.

Lemma memcpy_fields_Ret (dst src : list upb_UnknownField) (doff soff n : nat) :
  (soff + n <= length src)%nat -> (doff + n <= length dst)%nat ->
  exists arr', memcpy_fields dst doff src soff n = Ret arr'
               /\ length arr' = length dst.
Proof.
  intros Hs Hd. unfold memcpy_fields.
  destruct (Nat.leb_spec (soff + n) (length src)) as [_|H]; [ | lia].
  destruct (Nat.leb_spec (doff + n) (length dst)) as [_|H]; [ | lia].
  cbn [andb]. eexists. split; [reflexivity | ].
  rewrite !length_app, !length_firstn, !length_skipn. lia.
Qed.

Lemma nth_error_in_range {A : Type} (l : list A) (i : nat) :
  (i < length l)%nat -> exists x, nth_error l i = Some x.
Proof.
  intros H. destruct (nth_error l i) as [x|] eqn:E; [now exists x | ].
  apply nth_error_None in E. lia.
Qed.

Lemma Merge_loop_returns (fuel : nat) :
  forall (t : list upb_UnknownField) (end1 end2 : nat)
         (arr : list upb_UnknownField) (ptr1 ptr2 out : nat),
    (end2 <= length t)%nat -> (ptr1 <= end1)%nat ->
    (end1 <= ptr2)%nat -> (ptr2 <= end2)%nat ->
    (out + (end1 - ptr1) + (end2 - ptr2) <= length arr)%nat ->
    ((end1 - ptr1) + (end2 - ptr2) <= fuel)%nat ->
    exists arr' p1 p2 out',
      Merge_loop fuel t end1 end2 arr ptr1 ptr2 out = Ret (arr', p1, p2, out')
      /\ length arr' = length arr
      /\ (p1 <= end1)%nat /\ (end1 <= p2)%nat /\ (p2 <= end2)%nat
      /\ (out' + (end1 - p1) + (end2 - p2) <= length arr)%nat.
Proof.
  induction fuel as [|fuel IH]; intros t end1 end2 arr ptr1 ptr2 out
    Ht H1 H12 H2 Hout Hfuel.
  - cbn [Merge_loop].
    destruct (Nat.ltb_spec ptr1 end1) as [Ha|Ha];
      [destruct (Nat.ltb_spec ptr2 end2) as [Hb|Hb]; [lia | ] | ];
      cbn [andb]; exists arr, ptr1, ptr2, out; repeat split; lia.
  - cbn [Merge_loop].
    destruct (Nat.ltb_spec ptr1 end1) as [Ha|Ha];
      [destruct (Nat.ltb_spec ptr2 end2) as [Hb|Hb] | ]; cbn [andb];
      try (exists arr, ptr1, ptr2, out; repeat split; lia).
    destruct (nth_error_in_range t ptr1 ltac:(lia)) as [f1 ->].
    destruct (nth_error_in_range t ptr2 ltac:(lia)) as [f2 ->].
    destruct (tag f1 <=? tag f2).
    + destruct (store_Ret arr out f1 ltac:(lia)) as (arr1 & -> & Hlen).
      cbn [bind].
      destruct (IH t end1 end2 arr1 (S ptr1) ptr2 (S out))
        as (arr' & p1 & p2 & out' & E & Hl & ?); try lia.
      exists arr', p1, p2, out'. rewrite E. repeat split; lia.
    + destruct (store_Ret arr out f2 ltac:(lia)) as (arr1 & -> & Hlen).
      cbn [bind].
      destruct (IH t end1 end2 arr1 ptr1 (S ptr2) (S out))
        as (arr' & p1 & p2 & out' & E & Hl & ?); try lia.
      exists arr', p1, p2, out'. rewrite E. repeat split; lia.
Qed.

Lemma Merge_returns (arr : list upb_UnknownField) (start mid end_ room : nat) :
  (start <= mid)%nat -> (mid <= end_)%nat -> (end_ <= length arr)%nat ->
  (end_ - start <= room)%nat ->
  exists arr', upb_UnknownFields_Merge arr start mid end_ (Some room) = Ret arr'
               /\ length arr' = length arr.
Proof.
  intros Hsm Hme Hel Hroom. unfold upb_UnknownFields_Merge.
  destruct (Nat.leb_spec (end_ - start) room) as [_|H]; [ | lia].
  destruct (Nat.leb_spec start end_) as [_|H]; [ | lia].
  destruct (Nat.leb_spec end_ (length arr)) as [_|H]; [ | lia].
  cbn [andb].
  set (t := firstn (end_ - start) (skipn start arr)).
  assert (Ht : length t = (end_ - start)%nat).
  { unfold t. rewrite length_firstn, length_skipn. lia. }
  destruct (Merge_loop_returns (end_ - start) t (mid - start) (end_ - start)
              arr 0 (mid - start) start)
    as (arr1 & p1 & p2 & out & -> & Hl & Hp1 & Hp2 & Hp2' & Hout); try lia.
  cbn [bind].
  destruct (Nat.ltb_spec p1 (mid - start)) as [Ha|Ha].
  - destruct (memcpy_fields_Ret arr1 t out p1 (mid - start - p1))
      as (arr' & -> & Hl'); try lia.
    exists arr'. split; [reflexivity | lia].
  - destruct (Nat.ltb_spec p2 (end_ - start)) as [Hb|Hb].
    + destruct (memcpy_fields_Ret arr1 t out p1 (end_ - start - p2))
        as (arr' & -> & Hl'); try lia.
      exists arr'. split; [reflexivity | lia].
    + exists arr1. split; [reflexivity | exact Hl].
Qed.

Lemma SortRecursive_returns (fuel : nat) :
  forall (arr : list upb_UnknownField) (start end_ room : nat),
    (start <= end_)%nat -> (end_ <= length arr)%nat ->
    (end_ - start <= room)%nat -> (end_ - start <= fuel)%nat ->
    exists arr',
      upb_UnknownFields_SortRecursive fuel arr start end_ (Some room) = Ret arr'
      /\ length arr' = length arr.
Proof.
  induction fuel as [|fuel IH]; intros arr start end_ room Hse Hel Hroom Hfuel;
    cbn [upb_UnknownFields_SortRecursive].
  - destruct (Nat.ltb_spec 1 (end_ - start)) as [H|H]; [lia | ].
    now exists arr.
  - destruct (Nat.ltb_spec 1 (end_ - start)) as [H|H]; [ | now exists arr].
    set (mid := (start + (end_ - start) / 2)%nat).
    assert (Hmid : (start < mid /\ mid < end_)%nat).
    { unfold mid. pose proof (Nat.div_mod_eq (end_ - start) 2) as Hd.
      pose proof (Nat.mod_upper_bound (end_ - start) 2 ltac:(lia)). lia. }
    destruct (IH arr start mid room) as (arr1 & -> & Hl1); try lia.
    cbn [bind].
    destruct (IH arr1 mid end_ room) as (arr2 & -> & Hl2); try lia.
    cbn [bind].
    destruct (Merge_returns arr2 start mid end_ room) as (arr3 & -> & Hl3);
      try lia.
    exists arr3. split; [reflexivity | lia].
Qed.

(** A sort of an array of at most one element does not touch the scratch
    block. *)
Lemma SortRecursive_small (fuel : nat) (arr : list upb_UnknownField)
    (start end_ : nat) (tmp : option nat) :
  (end_ - start <= 1)%nat ->
  upb_UnknownFields_SortRecursive fuel arr start end_ tmp = Ret arr.
Proof.
  intros H. destruct fuel; cbn [upb_UnknownFields_SortRecursive];
    destruct (Nat.ltb_spec 1 (end_ - start)); try lia; reflexivity.
Qed.

Lemma tmp_size_loop_returns (fuel : nat) :
  forall tmp_size size : nat,
    (1 <= tmp_size)%nat -> (size <= tmp_size + fuel)%nat ->
    exists n, tmp_size_loop fuel tmp_size size = Ret n /\ (size <= n)%nat
              /\ (1 <= n)%nat.
Proof.
  induction fuel as [|fuel IH]; intros ts sz H1 Hf; cbn [tmp_size_loop].
  - destruct (Nat.ltb_spec ts sz); [lia | ]. exists ts. repeat split; lia.
  - destruct (Nat.ltb_spec ts sz); [ | exists ts; repeat split; lia].
    apply IH; lia.
Qed.

Lemma Sort_returns (alloc : allocator) (ctx : upb_UnknownField_Context)
    (uf : upb_UnknownFields) :
  never_fails alloc -> tmp_inv ctx ->
  exists ctx' arr,
    upb_UnknownFields_Sort alloc ctx uf
    = Ret (ctx', UnknownFields arr (capacity uf))
    /\ length arr = size uf /\ tmp_inv ctx'
    /\ depth ctx' = depth ctx /\ ctx_end ctx' = ctx_end ctx.
Proof.
  intros Halloc Hinv. unfold upb_UnknownFields_Sort.
  destruct (Nat.ltb_spec (tmp_size ctx) (size uf)) as [Hlt|Hge].
  - destruct (tmp_size_loop_returns (size uf) (Nat.max 8 (tmp_size ctx)) (size uf))
      as (n & -> & Hn & Hn1); try lia.
    cbn [bind]. unfold request. rewrite Halloc. cbn [bind set_tmp tmp].
    destruct (SortRecursive_returns (size uf) (fields uf) 0 (size uf) n)
      as (arr & -> & Hl); try (unfold size in *; lia).
    cbn [bind]. eexists _, arr. split; [reflexivity | ].
    repeat split; try assumption. right. reflexivity.
  - cbn [bind]. destruct (Nat.le_gt_cases (size uf) 1) as [Hsmall|Hbig].
    + rewrite SortRecursive_small by lia. cbn [bind].
      exists ctx, (fields uf). repeat split; assumption.
    + destruct Hinv as [[_ H0]|Hsome]; [lia | ]. rewrite Hsome.
      destruct (SortRecursive_returns (size uf) (fields uf) 0 (size uf)
                  (tmp_size ctx)) as (arr & -> & Hl); try (unfold size in *; lia).
      cbn [bind]. exists ctx, arr. repeat split; try assumption.
      now right.
Qed.

(** ** Positions *)

Lemma at_offset_bounds (buf : list byte) (p : Z) (s : list byte) :
  at_offset buf p s -> 0 <= p /\ p + Z.of_nat (length s) <= Z.of_nat (length buf).
Proof.
  intros (pre & post & -> & ->). rewrite !length_app. lia.
Qed.

Lemma suffix_at_bounds (buf : list byte) (p : Z) (s : list byte) :
  suffix_at buf p s -> 0 <= p /\ p + Z.of_nat (length s) = Z.of_nat (length buf).
Proof.
  intros (pre & -> & ->). rewrite !length_app. lia.
Qed.

Lemma suffix_at_head (buf : list byte) (p : Z) (a s : list byte) :
  suffix_at buf p (a ++ s) -> at_offset buf p a.
Proof. intros (pre & -> & ->). now exists pre, s. Qed.

Lemma suffix_at_tail (buf : list byte) (p : Z) (a s : list byte) :
  suffix_at buf p (a ++ s) -> suffix_at buf (p + Z.of_nat (length a)) s.
Proof.
  intros (pre & -> & ->). exists (pre ++ a).
  rewrite <- app_assoc, length_app. split; [reflexivity | lia].
Qed.

Lemma at_offset_head (buf : list byte) (p : Z) (a b : list byte) :
  at_offset buf p (a ++ b) -> at_offset buf p a.
Proof.
  intros (pre & post & -> & ->). exists pre, (b ++ post).
  now rewrite <- app_assoc.
Qed.

Lemma at_offset_tail (buf : list byte) (p : Z) (a b : list byte) :
  at_offset buf p (a ++ b) -> at_offset buf (p + Z.of_nat (length a)) b.
Proof.
  intros (pre & post & -> & ->). exists (pre ++ a), post.
  rewrite <- !app_assoc, length_app. split; [reflexivity | lia].
Qed.

Lemma load_bytes_at (buf : list byte) (p : Z) (s : list byte) :
  at_offset buf p s -> load_bytes buf p (length s) = s.
Proof. intros (pre & post & -> & ->). apply load_bytes_app. Qed.

Lemma is_varint_inv (bs : list byte) :
  is_varint bs = true ->
  varint_ok bs = true /\ (1 <= length bs <= 10)%nat.
Proof.
  unfold is_varint. intros H. apply andb_prop in H as [Hok Hlen].
  apply Nat.leb_le in Hlen. split; [exact Hok | ].
  destruct bs; [discriminate | simpl length in *; lia].
Qed.

Lemma is_tag_inv (bs : list byte) (w : Z) :
  is_tag bs w = true ->
  is_varint bs = true /\ varint_value bs <= UINT32_MAX
  /\ Z.land (varint_value bs) 7 = w.
Proof.
  unfold is_tag. intros H. apply andb_prop in H as [H Hw].
  apply andb_prop in H as [Hv Hmax].
  apply Z.leb_le in Hmax. apply Z.eqb_eq in Hw. tauto.
Qed.

Lemma ParseVarint_at (buf : list byte) (p limit : Z) (bs : list byte) :
  at_offset buf p bs -> is_varint bs = true ->
  p + Z.of_nat (length bs) <= limit ->
  upb_UnknownFields_ParseVarint buf p limit
  = Ret (p + Z.of_nat (length bs), varint_value bs).
Proof.
  intros (pre & post & -> & ->) Hv Hlim.
  apply is_varint_inv in Hv as [Hok Hlen].
  apply ParseVarint_app; [exact Hok | lia | exact Hlim].
Qed.

(** ** The builder, one step at a time *)

(** The loop body, with the switch under its name. *)
Lemma DoBuild_loop_unfold (fuel' : nat) (alloc : allocator) (buf : list byte)
    (ctx : upb_UnknownField_Context) (arr : list upb_UnknownField) (cap : nat)
    (ptr last_tag : Z) (sorted : bool) :
  DoBuild_loop (S fuel') alloc buf ctx arr cap ptr last_tag sorted
  = if ptr <? ctx_end ctx then
      ' (ptr, tag) <- upb_UnknownFields_ParseVarint buf ptr (ctx_end ctx) ;;
      _ <- UPB_ASSERT (tag <=? UINT32_MAX) ;;
      if Z.land tag 7 =? UPB_WIRE_TYPE_END_GROUP then
        DoBuild_finish alloc ctx arr cap ptr sorted
      else
        ' (ctx, cap) <- (if (length arr =? cap)%nat
                         then upb_UnknownFields_Grow alloc ctx arr
                         else Ret (ctx, cap)) ;;
        DoBuild_payload fuel' alloc buf ctx arr cap ptr tag
          (if tag <? last_tag then false else sorted)
    else DoBuild_finish alloc ctx arr cap ptr sorted.
Proof. reflexivity. Qed.

Lemma Grow_ok (alloc : allocator) (ctx : upb_UnknownField_Context)
    (arr : list upb_UnknownField) (cap : nat) :
  never_fails alloc ->
  exists ctx' cap',
    (if (length arr =? cap)%nat then upb_UnknownFields_Grow alloc ctx arr
     else Ret (ctx, cap)) = Ret (ctx', cap')
    /\ depth ctx' = depth ctx /\ ctx_end ctx' = ctx_end ctx
    /\ tmp ctx' = tmp ctx /\ tmp_size ctx' = tmp_size ctx.
Proof.
  intros Halloc. destruct (length arr =? cap)%nat.
  - unfold upb_UnknownFields_Grow, request. rewrite Halloc. cbn [negb].
    eexists _, _. split; [reflexivity | ]. now repeat split.
  - exists ctx, cap. now repeat split.
Qed.

Lemma DoBuild_finish_ok (alloc : allocator) (ctx : upb_UnknownField_Context)
    (arr : list upb_UnknownField) (cap : nat) (ptr : Z) (sorted : bool) :
  never_fails alloc -> tmp_inv ctx ->
  exists uf ctx',
    DoBuild_finish alloc ctx arr cap ptr sorted = Ret (uf, ptr, ctx')
    /\ depth ctx' = depth ctx /\ ctx_end ctx' = ctx_end ctx /\ tmp_inv ctx'.
Proof.
  intros Halloc Hinv. unfold DoBuild_finish, request. rewrite Halloc.
  cbn [negb]. destruct sorted; cbn [negb].
  - eexists _, _. split; [reflexivity | ]. now repeat split.
  - destruct (Sort_returns alloc (set_arena ctx (S (arena ctx)))
                (UnknownFields arr cap) Halloc Hinv)
      as (ctx' & arr' & -> & _ & Hinv' & Hd & He).
    cbn [bind]. eexists _, ctx'. split; [reflexivity | ]. now repeat split.
Qed.

(** A tag other than an end-group tag leads to the switch. *)
Lemma DoBuild_loop_tag (fuel' : nat) (alloc : allocator) (buf : list byte)
    (ctx : upb_UnknownField_Context) (arr : list upb_UnknownField) (cap : nat)
    (p last_tag : Z) (sorted : bool) (t : list byte) (w : Z) :
  never_fails alloc -> at_offset buf p t -> is_tag t w = true ->
  w <> UPB_WIRE_TYPE_END_GROUP ->
  p + Z.of_nat (length t) <= ctx_end ctx ->
  exists ctx' cap' sorted',
    DoBuild_loop (S fuel') alloc buf ctx arr cap p last_tag sorted
    = DoBuild_payload fuel' alloc buf ctx' arr cap' (p + Z.of_nat (length t))
        (varint_value t) sorted'
    /\ depth ctx' = depth ctx /\ ctx_end ctx' = ctx_end ctx
    /\ tmp ctx' = tmp ctx /\ tmp_size ctx' = tmp_size ctx.
Proof.
  intros Halloc Hat Htag Hw Hlim.
  apply is_tag_inv in Htag as (Hv & Hmax & Hland).
  pose proof (is_varint_inv t Hv) as [_ Hlen].
  rewrite DoBuild_loop_unfold.
  destruct (Z.ltb_spec p (ctx_end ctx)) as [_|H]; [ | lia].
  rewrite (ParseVarint_at buf p (ctx_end ctx) t Hat Hv Hlim). cbn [bind].
  rewrite UPB_ASSERT_true by now apply Z.leb_le.
  cbn [bind]. rewrite Hland.
  destruct (Z.eqb_spec w UPB_WIRE_TYPE_END_GROUP) as [E|_]; [contradiction | ].
  destruct (Grow_ok alloc ctx arr cap Halloc) as (ctx' & cap' & -> & Hk).
  cbn [bind]. now exists ctx', cap', (if varint_value t <? last_tag then false else sorted).
Qed.

Lemma tmp_inv_kept (ctx ctx' : upb_UnknownField_Context) :
  tmp ctx' = tmp ctx -> tmp_size ctx' = tmp_size ctx ->
  tmp_inv ctx -> tmp_inv ctx'.
Proof. unfold tmp_inv. intros -> ->. tauto. Qed.

Ltac payload_case Hland :=
  unfold DoBuild_payload; rewrite Hland; unfold_wire_types;
  cbn [Z.eqb Pos.eqb].

(** One well-formed field whose depth is below the budget: the loop body
    appends a field and the loop goes on behind it. *)
Lemma DoBuild_loop_field (fuel : nat) :
  parses fuel ->
  forall (alloc : allocator) (buf : list byte) (f : wire_field)
         (rest0 : list byte) (ctx : upb_UnknownField_Context)
         (arr : list upb_UnknownField) (cap : nat) (p last : Z) (sorted : bool),
    never_fails alloc -> tmp_inv ctx -> wire_ok f = true ->
    suffix_at buf p (wire_bytes f ++ rest0) ->
    ctx_end ctx = Z.of_nat (length buf) ->
    Z.of_nat (wire_depth f) < depth ctx ->
    (length (wire_bytes f ++ rest0) <= fuel)%nat ->
    exists fld ctx' cap' sorted',
      DoBuild_loop (S fuel) alloc buf ctx arr cap p last sorted
      = DoBuild_loop fuel alloc buf ctx' (arr ++ [fld]) cap'
          (p + Z.of_nat (length (wire_bytes f))) (wire_tag f) sorted'
      /\ depth ctx' = depth ctx /\ ctx_end ctx' = ctx_end ctx /\ tmp_inv ctx'.
Proof.
  intros Hparses alloc buf f rest0 ctx arr cap p last sorted
    Halloc Hinv Hok Hs Hend Hdepth Hfuel.
  pose proof (suffix_at_bounds _ _ _ Hs) as [Hp0 Hpl].
  destruct f as [t v|t raw|t len body|t body e|t raw];
    cbn [wire_ok wire_bytes wire_tag wire_depth] in *;
    repeat match goal with
           | H : _ && _ = true |- _ => apply andb_prop in H as [? ?]
           end;
    rewrite <- ?app_assoc in Hs;
    repeat rewrite length_app in Hpl; repeat rewrite length_app in Hfuel;
    repeat rewrite length_app;
    pose proof (suffix_at_head _ _ _ _ Hs) as Ht;
    pose proof (suffix_at_tail _ _ _ _ Hs) as Hs1;
    match goal with
    | H : is_tag t ?w = true |- _ =>
        destruct (DoBuild_loop_tag fuel alloc buf ctx arr cap p last sorted t w
                    Halloc Ht H ltac:(unfold_wire_types; lia) ltac:(lia))
          as (ctx' & cap' & sorted' & -> & Hd & He & Htmp & Htsz);
        apply is_tag_inv in H as (Htv & _ & Hland)
    end;
    pose proof (tmp_inv_kept _ _ Htmp Htsz Hinv) as Hinv'.
  - (* varint *)
    payload_case Hland.
    rewrite (ParseVarint_at buf _ (ctx_end ctx') v (suffix_at_head _ _ _ _ Hs1))
      by (try assumption; lia).
    cbn [bind]. eexists _, ctx', cap', sorted'.
    rewrite Nat2Z.inj_add, Z.add_assoc. now repeat split.
  - (* fixed64 *)
    payload_case Hland.
    match goal with H : (length raw =? 8)%nat = true |- _ =>
      apply Nat.eqb_eq in H; rename H into Hraw end.
    rewrite UPB_ASSERT_true by (apply Z.leb_le; lia).
    cbn [bind]. eexists _, ctx', cap', sorted'.
    rewrite Nat2Z.inj_add, Z.add_assoc, Hraw. now repeat split.
  - (* delimited *)
    payload_case Hland.
    match goal with H : (varint_value len =? _) = true |- _ =>
      apply Z.eqb_eq in H; rename H into Hlen end.
    pose proof (suffix_at_tail _ _ _ _ Hs1) as Hs2.
    match goal with H : is_varint len = true |- _ =>
      pose proof (is_varint_inv _ H) as [_ Hll];
      rewrite (ParseVarint_at buf _ (ctx_end ctx') len
                 (suffix_at_head _ _ _ _ Hs1) H) by lia
    end.
    cbn [bind]. rewrite UPB_ASSERT_true by (apply Z.leb_le; lia).
    cbn [bind]. eexists _, ctx', cap', sorted'.
    rewrite !Nat2Z.inj_add, !Z.add_assoc, Hlen. now repeat split.
  - (* group *)
    payload_case Hland.
    assert (Hnest : Z.of_nat (nesting_depth body) < depth ctx' - 1)
      by (unfold nesting_depth; lia).
    destruct (Z.eqb_spec (depth ctx') INT_MIN) as [E|_];
      [unfold INT_MIN in E; lia | ].
    cbn [depth set_depth].
    destruct (Z.eqb_spec (depth ctx' - 1) 0) as [E|_]; [lia | ].
    match goal with H : forallb wire_ok body = true |- _ => rename H into Hbody end.
    match goal with H : is_tag e _ = true |- _ => rename H into He4 end.
    assert (Hcl : closes (e ++ rest0) e) by (right; split; [exact He4 | now exists rest0]).
    assert (Hfuel' : (length (flat_map wire_bytes body ++ e ++ rest0) < fuel)%nat).
    { repeat rewrite length_app. pose proof (is_varint_inv _ Htv). lia. }
    destruct (Hparses alloc buf body (e ++ rest0) e
                (set_depth ctx' (depth ctx' - 1)) [] 0%nat
                (p + Z.of_nat (length t)) 0 true Halloc
                (tmp_inv_kept _ _ eq_refl eq_refl Hinv') Hbody Hs1
                ltac:(cbn [ctx_end set_depth]; congruence) Hcl Hnest Hfuel')
      as (g & ctx2 & -> & Hd2 & He2 & Hinv2).
    cbn [bind]. eexists _, (set_depth ctx2 (depth ctx2 + 1)), cap', sorted'.
    rewrite !Nat2Z.inj_add, !Z.add_assoc.
    split; [reflexivity | ]. cbn [depth set_depth ctx_end] in *.
    repeat split; [lia | congruence | exact Hinv2].
  - (* fixed32 *)
    payload_case Hland.
    match goal with H : (length raw =? 4)%nat = true |- _ =>
      apply Nat.eqb_eq in H; rename H into Hraw end.
    rewrite UPB_ASSERT_true by (apply Z.leb_le; lia).
    cbn [bind]. eexists _, ctx', cap', sorted'.
    rewrite Nat2Z.inj_add, Z.add_assoc, Hraw. now repeat split.
Qed.

Lemma nesting_depth_cons (f : wire_field) (fs : list wire_field) :
  nesting_depth (f :: fs) = Nat.max (wire_depth f) (nesting_depth fs).
Proof. reflexivity. Qed.

(** The builder gets through every well-formed level whose depth is below
    the budget. *)
Lemma DoBuild_loop_parses (fuel : nat) : parses fuel.
Proof.
  induction fuel as [|fuel IH]; intros alloc buf fs rest e ctx arr cap p last
    sorted Halloc Hinv Hok Hs Hend Hcl Hdepth Hfuel; [lia | ].
  pose proof (suffix_at_bounds _ _ _ Hs) as [Hp0 Hpl].
  destruct fs as [|f fs].
  - cbn [flat_map app length] in *. rewrite Z.add_0_r.
    destruct Hcl as [[-> ->]|(He & rest' & ->)].
    + rewrite DoBuild_loop_unfold.
      destruct (Z.ltb_spec p (ctx_end ctx)) as [H|_];
        [cbn [length] in Hpl; lia | ].
      cbn [length]. rewrite Z.add_0_r.
      now apply DoBuild_finish_ok.
    + apply is_tag_inv in He as (Hv & Hmax & Hland).
      pose proof (is_varint_inv e Hv) as [_ Hlen].
      rewrite length_app in Hpl.
      rewrite DoBuild_loop_unfold.
      destruct (Z.ltb_spec p (ctx_end ctx)) as [_|H]; [ | lia].
      rewrite (ParseVarint_at buf p (ctx_end ctx) e (suffix_at_head _ _ _ _ Hs) Hv)
        by lia.
      cbn [bind]. rewrite UPB_ASSERT_true by now apply Z.leb_le.
      cbn [bind]. rewrite Hland, Z.eqb_refl.
      now apply DoBuild_finish_ok.
  - cbn [flat_map forallb] in *. apply andb_prop in Hok as [Hf Hok].
    rewrite <- app_assoc in Hs, Hfuel.
    rewrite nesting_depth_cons in Hdepth.
    destruct (DoBuild_loop_field fuel IH alloc buf f
                (flat_map wire_bytes fs ++ rest) ctx arr cap p last sorted
                Halloc Hinv Hf Hs Hend ltac:(lia) ltac:(lia))
      as (fld & ctx' & cap' & sorted' & -> & Hd & He & Hinv').
    assert (Hf1 : (1 <= length (wire_bytes f))%nat).
    { destruct f; cbn [wire_ok wire_bytes] in *;
        repeat match goal with
               | H : _ && _ = true |- _ => apply andb_prop in H as [? ?]
               end;
        match goal with
        | H : is_tag _ _ = true |- _ =>
            apply is_tag_inv in H as (Hv & _);
            apply is_varint_inv in Hv as [_ Hv]
        end;
        repeat rewrite length_app; lia. }
    destruct (IH alloc buf fs rest e ctx' (arr ++ [fld]) cap'
                (p + Z.of_nat (length (wire_bytes f))) (wire_tag f) sorted'
                Halloc Hinv' Hok (suffix_at_tail _ _ _ _ Hs)
                ltac:(congruence) Hcl ltac:(lia))
      as (uf & ctx2 & -> & Hd2 & He2 & Hinv2).
    { rewrite length_app in Hfuel. lia. }
    exists uf, ctx2. rewrite length_app, Nat2Z.inj_add, !Z.add_assoc.
    split; [reflexivity | ]. repeat split; [congruence | congruence | exact Hinv2].
Qed.

Lemma wire_bytes_nonempty (f : wire_field) :
  wire_ok f = true -> (1 <= length (wire_bytes f))%nat.
Proof.
  intros Hok.
  destruct f; cbn [wire_ok wire_bytes] in *;
    repeat match goal with
           | H : _ && _ = true |- _ => apply andb_prop in H as [? ?]
           end;
    match goal with
    | H : is_tag _ _ = true |- _ =>
        apply is_tag_inv in H as (Hv & _);
        apply is_varint_inv in Hv as [_ Hv]
    end;
    repeat rewrite length_app; lia.
Qed.

(** A level that nests at least as deep as the budget makes the builder
    leave with MaxDepthExceeded, from whatever depth of recursion. *)
Lemma DoBuild_loop_too_deep (fuel : nat) :
  forall (alloc : allocator) (buf : list byte) (fs : list wire_field)
         (rest : list byte) (ctx : upb_UnknownField_Context)
         (arr : list upb_UnknownField) (cap : nat) (p last : Z) (sorted : bool),
    never_fails alloc -> tmp_inv ctx ->
    forallb wire_ok fs = true ->
    suffix_at buf p (flat_map wire_bytes fs ++ rest) ->
    ctx_end ctx = Z.of_nat (length buf) ->
    1 <= depth ctx <= Z.of_nat (nesting_depth fs) ->
    (length (flat_map wire_bytes fs ++ rest) < fuel)%nat ->
    DoBuild_loop fuel alloc buf ctx arr cap p last sorted
    = LongJmp kUpb_UnknownCompareResult_MaxDepthExceeded.
Proof.
  induction fuel as [|fuel IH]; intros alloc buf fs rest ctx arr cap p last
    sorted Halloc Hinv Hok Hs Hend Hdepth Hfuel; [lia | ].
  pose proof (suffix_at_bounds _ _ _ Hs) as [Hp0 Hpl].
  destruct fs as [|f fs]; [cbn in Hdepth; lia | ].
  cbn [flat_map forallb] in *. apply andb_prop in Hok as [Hf Hok].
  rewrite <- app_assoc in Hs, Hfuel, Hpl.
  rewrite nesting_depth_cons in Hdepth.
  pose proof (wire_bytes_nonempty f Hf) as Hf1.
  rewrite length_app in Hfuel.
  destruct (Z.lt_ge_cases (Z.of_nat (wire_depth f)) (depth ctx)) as [Hlow|Hhigh].
  - destruct (DoBuild_loop_field fuel (DoBuild_loop_parses fuel) alloc buf f
                (flat_map wire_bytes fs ++ rest) ctx arr cap p last sorted
                Halloc Hinv Hf Hs Hend Hlow
                ltac:(rewrite length_app; lia))
      as (fld & ctx' & cap' & sorted' & -> & Hd & He & Hinv').
    apply (IH alloc buf fs rest);
      [ exact Halloc | exact Hinv' | exact Hok
      | now apply suffix_at_tail in Hs | congruence | lia | lia ].
  - destruct f as [t v|t raw|t len body|t body e|t raw];
      cbn [wire_depth] in Hhigh; try lia.
    cbn [wire_ok wire_bytes] in *.
    apply andb_prop in Hf as [Hf He4]. apply andb_prop in Hf as [Ht Hbody].
    rewrite <- !app_assoc in Hs, Hpl. rewrite !length_app in Hpl, Hf1.
    rewrite length_app in Hfuel.
    pose proof (suffix_at_head _ _ _ _ Hs) as Hat.
    destruct (DoBuild_loop_tag fuel alloc buf ctx arr cap p last sorted t _
                Halloc Hat Ht ltac:(unfold_wire_types; lia) ltac:(lia))
      as (ctx' & cap' & sorted' & -> & Hd & He & Htmp & Htsz).
    apply is_tag_inv in Ht as (Htv & _ & Hland).
    pose proof (is_varint_inv _ Htv) as [_ Htl].
    payload_case Hland.
    destruct (Z.eqb_spec (depth ctx') INT_MIN) as [E|_];
      [unfold INT_MIN in E; lia | ].
    cbn [depth set_depth].
    destruct (Z.eqb_spec (depth ctx' - 1) 0) as [E|Hnz]; [reflexivity | ].
    rewrite (IH alloc buf body (e ++ flat_map wire_bytes fs ++ rest)
               (set_depth ctx' (depth ctx' - 1)) [] 0%nat
               (p + Z.of_nat (length t)) 0 true Halloc
               (tmp_inv_kept _ _ eq_refl eq_refl
                  (tmp_inv_kept _ _ Htmp Htsz Hinv))
               Hbody (suffix_at_tail _ _ _ _ Hs)
               ltac:(cbn [ctx_end set_depth]; congruence)).
    + reflexivity.
    + cbn [depth set_depth]. fold (nesting_depth body) in Hhigh. lia.
    + rewrite !length_app in *. lia.
Qed.

(** ** Whole buffers *)

Lemma encodes_suffix (buf : list byte) (fs : list wire_field) :
  encodes buf fs -> suffix_at buf 0 (flat_map wire_bytes fs ++ []).
Proof. intros [_ ->]. exists []. now rewrite app_nil_r. Qed.

Lemma Build_ok (alloc : allocator) (ctx : upb_UnknownField_Context)
    (buf : list byte) (fs : list wire_field) :
  never_fails alloc -> tmp_inv ctx -> encodes buf fs ->
  Z.of_nat (nesting_depth fs) < depth ctx ->
  exists uf ctx',
    upb_UnknownFields_Build alloc ctx buf = Ret (uf, ctx')
    /\ depth ctx' = depth ctx /\ tmp_inv ctx'.
Proof.
  intros Halloc Hinv Henc Hdepth.
  unfold upb_UnknownFields_Build, upb_UnknownFields_DoBuild.
  destruct (DoBuild_loop_parses (S (length buf)) alloc buf fs [] []
              (set_end ctx (Z.of_nat (length buf))) [] 0%nat 0 0 true Halloc
              (tmp_inv_kept _ _ eq_refl eq_refl Hinv) (proj1 Henc)
              (encodes_suffix _ _ Henc) eq_refl
              (or_introl (conj eq_refl eq_refl)) Hdepth)
    as (uf & ctx' & -> & Hd & He & Hinv').
  { destruct Henc as [_ ->]. rewrite app_nil_r. lia. }
  cbn [bind]. rewrite UPB_ASSERT_true.
  - cbn [bind]. exists uf, ctx'. now repeat split.
  - apply Z.eqb_eq. rewrite He. cbn [ctx_end set_end length].
    destruct Henc as [_ ->]. lia.
Qed.

Lemma Build_too_deep (alloc : allocator) (ctx : upb_UnknownField_Context)
    (buf : list byte) (fs : list wire_field) :
  never_fails alloc -> tmp_inv ctx -> encodes buf fs ->
  1 <= depth ctx <= Z.of_nat (nesting_depth fs) ->
  upb_UnknownFields_Build alloc ctx buf
  = LongJmp kUpb_UnknownCompareResult_MaxDepthExceeded.
Proof.
  intros Halloc Hinv Henc Hdepth.
  unfold upb_UnknownFields_Build, upb_UnknownFields_DoBuild.
  rewrite (DoBuild_loop_too_deep (S (length buf)) alloc buf fs []
             (set_end ctx (Z.of_nat (length buf))) [] 0%nat 0 0 true Halloc
             (tmp_inv_kept _ _ eq_refl eq_refl Hinv) (proj1 Henc)
             (encodes_suffix _ _ Henc) eq_refl Hdepth).
  - reflexivity.
  - destruct Henc as [_ ->]. rewrite app_nil_r. lia.
Qed.

(** ** The depth budget *)

Lemma Sort_frame (alloc : allocator) (ctx ctx' : upb_UnknownField_Context)
    (uf uf' : upb_UnknownFields) :
  upb_UnknownFields_Sort alloc ctx uf = Ret (ctx', uf') ->
  depth ctx' = depth ctx /\ ctx_end ctx' = ctx_end ctx.
Proof.
  unfold upb_UnknownFields_Sort. intros H.
  apply bind_Ret_inv in H as (ctx1 & H1 & H).
  apply bind_Ret_inv in H as (arr & _ & H).
  injection H as <- _.
  destruct (tmp_size ctx <? size uf)%nat.
  - apply bind_Ret_inv in H1 as (n & _ & H1). unfold request in H1.
    injection H1 as <-. now split.
  - injection H1 as <-. now split.
Qed.

Lemma DoBuild_finish_frame (alloc : allocator)
    (ctx ctx' : upb_UnknownField_Context) (arr : list upb_UnknownField)
    (cap : nat) (ptr q : Z) (sorted : bool) (uf : upb_UnknownFields) :
  DoBuild_finish alloc ctx arr cap ptr sorted = Ret (uf, q, ctx') ->
  depth ctx' = depth ctx /\ ctx_end ctx' = ctx_end ctx /\ q = ptr.
Proof.
  unfold DoBuild_finish, request. intros H.
  destruct (alloc (arena ctx)); cbn [negb] in H; [ | discriminate].
  destruct sorted; cbn [negb] in H.
  - injection H as _ <- <-. now repeat split.
  - apply bind_Ret_inv in H as ([ctx1 uf1] & Hs & H).
    injection H as _ <- <-. apply Sort_frame in Hs as [Hd He].
    now repeat split.
Qed.

Lemma Grow_frame (alloc : allocator) (ctx ctx' : upb_UnknownField_Context)
    (arr : list upb_UnknownField) (cap cap' : nat) :
  (if (length arr =? cap)%nat then upb_UnknownFields_Grow alloc ctx arr
   else Ret (ctx, cap)) = Ret (ctx', cap') ->
  depth ctx' = depth ctx /\ ctx_end ctx' = ctx_end ctx.
Proof.
  destruct (length arr =? cap)%nat.
  - unfold upb_UnknownFields_Grow, request.
    destruct (alloc (arena ctx)); cbn [negb]; [ | discriminate].
    intros H. injection H as <- _. now split.
  - intros H. injection H as <- _. now split.
Qed.

(** A call of the builder that returns leaves the budget as it found it.
    This holds for every input and every allocator. *)
Lemma DoBuild_loop_frame (fuel : nat) :
  forall (alloc : allocator) (buf : list byte)
         (ctx : upb_UnknownField_Context) (arr : list upb_UnknownField)
         (cap : nat) (ptr last : Z) (sorted : bool)
         (uf : upb_UnknownFields) (q : Z) (ctx' : upb_UnknownField_Context),
    DoBuild_loop fuel alloc buf ctx arr cap ptr last sorted = Ret (uf, q, ctx') ->
    depth ctx' = depth ctx /\ ctx_end ctx' = ctx_end ctx.
Proof.
  induction fuel as [|fuel IH]; intros alloc buf ctx arr cap ptr last sorted
    uf q ctx' H.
  - cbn [DoBuild_loop] in H. destruct (ptr <? ctx_end ctx); [discriminate | ].
    apply DoBuild_finish_frame in H. tauto.
  - rewrite DoBuild_loop_unfold in H.
    destruct (ptr <? ctx_end ctx);
      [ | apply DoBuild_finish_frame in H; tauto].
    apply bind_Ret_inv in H as ([p1 tg] & _ & H).
    apply bind_Ret_inv in H as (u & _ & H).
    destruct (Z.land tg 7 =? UPB_WIRE_TYPE_END_GROUP);
      [apply DoBuild_finish_frame in H; tauto | ].
    apply bind_Ret_inv in H as ([ctx1 cap1] & Hg & H).
    apply Grow_frame in Hg as [Hd1 He1].
    unfold DoBuild_payload in H.
    repeat match type of H with
           | (if Z.land tg 7 =? ?w then _ else _) = _ =>
               destruct (Z.land tg 7 =? w)
           end; try discriminate.
    + apply bind_Ret_inv in H as ([p2 v] & _ & H).
      apply IH in H. now rewrite <- Hd1, <- He1.
    + apply bind_Ret_inv in H as (u1 & _ & H).
      apply IH in H. now rewrite <- Hd1, <- He1.
    + apply bind_Ret_inv in H as (u1 & _ & H).
      apply IH in H. now rewrite <- Hd1, <- He1.
    + apply bind_Ret_inv in H as ([p2 sz] & _ & H).
      apply bind_Ret_inv in H as (u1 & _ & H).
      apply IH in H. now rewrite <- Hd1, <- He1.
    + destruct (depth ctx1 =? INT_MIN); [discriminate | ].
      cbn [depth set_depth] in H.
      destruct (depth ctx1 - 1 =? 0); [discriminate | ].
      apply bind_Ret_inv in H as ([[g p2] ctx2] & Hn & H).
      apply IH in Hn as [Hd2 He2]. apply IH in H as [Hd3 He3].
      cbn [depth set_depth ctx_end] in *. split; [lia | congruence].
Qed.

(** ** The builder establishes the invariant of the data model *)

Section Elements.

Variable P : upb_UnknownField -> Prop.

Lemma Forall_firstn (n : nat) (l : list upb_UnknownField) :
  Forall P l -> Forall P (firstn n l).
Proof.
  intros H. rewrite <- (firstn_skipn n l) in H.
  now apply Forall_app in H as [? _].
Qed.

Lemma Forall_skipn (n : nat) (l : list upb_UnknownField) :
  Forall P l -> Forall P (skipn n l).
Proof.
  intros H. rewrite <- (firstn_skipn n l) in H.
  now apply Forall_app in H as [_ ?].
Qed.

Lemma store_Forall (arr arr' : list upb_UnknownField) (i : nat)
    (x : upb_UnknownField) :
  Forall P arr -> P x -> store arr i x = Ret arr' -> Forall P arr'.
Proof.
  unfold store. intros Ha Hx H.
  destruct (i <? length arr)%nat; [ | discriminate].
  injection H as <-. apply Forall_app. split; [now apply Forall_firstn | ].
  constructor; [exact Hx | exact (Forall_skipn (S i) arr Ha)].
Qed.

Lemma memcpy_fields_Forall (dst src arr' : list upb_UnknownField)
    (doff soff n : nat) :
  Forall P dst -> Forall P src ->
  memcpy_fields dst doff src soff n = Ret arr' -> Forall P arr'.
Proof.
  unfold memcpy_fields. intros Hd Hs H.
  destruct ((soff + n <=? length src)%nat && (doff + n <=? length dst)%nat);
    [ | discriminate].
  injection H as <-. repeat (apply Forall_app; split);
    auto using Forall_firstn, Forall_skipn.
Qed.

Lemma Merge_loop_Forall (fuel : nat) :
  forall t end1 end2 arr ptr1 ptr2 out arr' p1 p2 out',
    Forall P t -> Forall P arr ->
    Merge_loop fuel t end1 end2 arr ptr1 ptr2 out = Ret (arr', p1, p2, out') ->
    Forall P arr'.
Proof.
  induction fuel as [|fuel IH]; intros t end1 end2 arr ptr1 ptr2 out
    arr' p1 p2 out' Ht Ha H; cbn [Merge_loop] in H;
    destruct ((ptr1 <? end1)%nat && (ptr2 <? end2)%nat);
    try discriminate; try (now injection H as <- _ _ _).
  destruct (nth_error t ptr1) as [f1|] eqn:E1; [ | discriminate].
  destruct (nth_error t ptr2) as [f2|] eqn:E2; [ | discriminate].
  apply nth_error_In in E1, E2. rewrite Forall_forall in Ht.
  destruct (tag f1 <=? tag f2);
    apply bind_Ret_inv in H as (arr1 & Hst & H);
    apply store_Forall in Hst; auto;
    apply IH in H; auto; now apply Forall_forall.
Qed.

Lemma Merge_Forall (arr arr' : list upb_UnknownField) (start mid end_ : nat)
    (tmp : option nat) :
  Forall P arr ->
  upb_UnknownFields_Merge arr start mid end_ tmp = Ret arr' -> Forall P arr'.
Proof.
  unfold upb_UnknownFields_Merge. intros Ha H.
  destruct tmp as [room|]; [ | discriminate].
  destruct ((end_ - start <=? room)%nat && (start <=? end_)%nat
            && (end_ <=? length arr)%nat); [ | discriminate].
  assert (Ht : Forall P (firstn (end_ - start) (skipn start arr)))
    by auto using Forall_firstn, Forall_skipn.
  apply bind_Ret_inv in H as ([[[arr1 p1] p2] out] & Hl & H).
  apply Merge_loop_Forall in Hl; auto.
  destruct (p1 <? mid - start)%nat;
    [now apply memcpy_fields_Forall in H | ].
  destruct (p2 <? end_ - start)%nat;
    [now apply memcpy_fields_Forall in H | ].
  now injection H as <-.
Qed.

Lemma SortRecursive_Forall (fuel : nat) :
  forall arr arr' start end_ tmp,
    Forall P arr ->
    upb_UnknownFields_SortRecursive fuel arr start end_ tmp = Ret arr' ->
    Forall P arr'.
Proof.
  induction fuel as [|fuel IH]; intros arr arr' start end_ tmp Ha H;
    cbn [upb_UnknownFields_SortRecursive] in H;
    destruct (1 <? end_ - start)%nat;
    try discriminate; try (now injection H as <-).
  apply bind_Ret_inv in H as (arr1 & H1 & H).
  apply bind_Ret_inv in H as (arr2 & H2 & H).
  apply IH in H1; auto. apply IH in H2; auto.
  now apply Merge_Forall in H.
Qed.

End Elements.

Lemma set_typed_Forall (fs : list upb_UnknownField) (c : nat) :
  set_typed (UnknownFields fs c) = true
  <-> Forall (fun f => field_typed f = true) fs.
Proof. rewrite set_typed_unfold, forallb_forall, Forall_forall. tauto. Qed.

Lemma DoBuild_finish_typed (alloc : allocator)
    (ctx ctx' : upb_UnknownField_Context) (arr : list upb_UnknownField)
    (cap : nat) (ptr q : Z) (sorted : bool) (uf : upb_UnknownFields) :
  Forall (fun f => field_typed f = true) arr ->
  DoBuild_finish alloc ctx arr cap ptr sorted = Ret (uf, q, ctx') ->
  set_typed uf = true.
Proof.
  unfold DoBuild_finish, request. intros Ha H.
  destruct (negb (alloc (arena ctx))); [discriminate | ].
  destruct (negb sorted).
  - apply bind_Ret_inv in H as ([ctx1 uf1] & Hs & H).
    injection H as <- _ _. unfold upb_UnknownFields_Sort in Hs.
    apply bind_Ret_inv in Hs as (ctx2 & _ & Hs).
    apply bind_Ret_inv in Hs as (arr1 & Hr & Hs).
    injection Hs as _ <-. apply set_typed_Forall.
    now apply (SortRecursive_Forall (fun f => field_typed f = true)) in Hr.
  - injection H as <- _ _. now apply set_typed_Forall.
Qed.

(** Every set the builder returns holds, in each field, the member of the
    union that the wire type of the tag selects. *)
Lemma DoBuild_loop_typed (fuel : nat) :
  forall (alloc : allocator) (buf : list byte)
         (ctx : upb_UnknownField_Context) (arr : list upb_UnknownField)
         (cap : nat) (ptr last : Z) (sorted : bool)
         (uf : upb_UnknownFields) (q : Z) (ctx' : upb_UnknownField_Context),
    Forall (fun f => field_typed f = true) arr ->
    DoBuild_loop fuel alloc buf ctx arr cap ptr last sorted = Ret (uf, q, ctx') ->
    set_typed uf = true.
Proof.
  induction fuel as [|fuel IH]; intros alloc buf ctx arr cap ptr last sorted
    uf q ctx' Ha H.
  - cbn [DoBuild_loop] in H. destruct (ptr <? ctx_end ctx); [discriminate | ].
    now apply DoBuild_finish_typed in H.
  - rewrite DoBuild_loop_unfold in H.
    destruct (ptr <? ctx_end ctx);
      [ | now apply DoBuild_finish_typed in H].
    apply bind_Ret_inv in H as ([p1 tg] & _ & H).
    apply bind_Ret_inv in H as (u & _ & H).
    destruct (Z.land tg 7 =? UPB_WIRE_TYPE_END_GROUP);
      [now apply DoBuild_finish_typed in H | ].
    apply bind_Ret_inv in H as ([ctx1 cap1] & _ & H).
    unfold DoBuild_payload in H.
    assert (Hsnoc : forall d,
               field_typed (UnknownField tg d) = true ->
               Forall (fun f => field_typed f = true)
                 (arr ++ [UnknownField tg d])).
    { intros d Hd. apply Forall_app. split; [exact Ha | now constructor]. }
    destruct (Z.land tg 7 =? UPB_WIRE_TYPE_VARINT) eqn:E0.
    { apply bind_Ret_inv in H as ([p2 v] & _ & H).
      apply IH in H; auto. }
    destruct (Z.land tg 7 =? UPB_WIRE_TYPE_64BIT) eqn:E1.
    { apply bind_Ret_inv in H as (u1 & _ & H). apply IH in H; auto. }
    destruct (Z.land tg 7 =? UPB_WIRE_TYPE_32BIT) eqn:E5.
    { apply bind_Ret_inv in H as (u1 & _ & H). apply IH in H; auto. }
    destruct (Z.land tg 7 =? UPB_WIRE_TYPE_DELIMITED) eqn:E2.
    { apply bind_Ret_inv in H as ([p2 sz] & _ & H).
      apply bind_Ret_inv in H as (u1 & _ & H). apply IH in H; auto. }
    destruct (Z.land tg 7 =? UPB_WIRE_TYPE_START_GROUP) eqn:E3;
      [ | discriminate].
    destruct (depth ctx1 =? INT_MIN); [discriminate | ].
    destruct (depth (set_depth ctx1 (depth ctx1 - 1)) =? 0); [discriminate | ].
    apply bind_Ret_inv in H as ([[g p2] ctx2] & Hn & H).
    apply IH in Hn; [ | constructor].
    apply IH in H; auto. apply Hsnoc. cbn [field_typed]. now rewrite E3, Hn.
Qed.

Lemma Build_typed (alloc : allocator) (ctx ctx' : upb_UnknownField_Context)
    (buf : list byte) (uf : upb_UnknownFields) :
  upb_UnknownFields_Build alloc ctx buf = Ret (uf, ctx') -> set_typed uf = true.
Proof.
  unfold upb_UnknownFields_Build, upb_UnknownFields_DoBuild. intros H.
  apply bind_Ret_inv in H as ([[uf1 p] ctx1] & Hb & H).
  apply bind_Ret_inv in H as (u & _ & H). injection H as <- _.
  apply DoBuild_loop_typed in Hb; [exact Hb | constructor].
Qed.

(** ** The depth guard at the entry point *)

Lemma compare_slow_path (alloc : allocator) (buf1 buf2 : list byte)
    (max_depth c : Z) :
  never_fails alloc -> buf1 <> [] -> buf2 <> [] ->
  memcmp buf1 buf2 (length buf1) = Ret c -> c <> 0 ->
  upb_Message_UnknownFieldsAreEqual alloc buf1 buf2 max_depth
  = catch (
      ' (uf1, ctx) <- upb_UnknownFields_Build alloc
                        (mkContext 0 1 None 0 max_depth) buf1 ;;
      ' (uf2, ctx) <- upb_UnknownFields_Build alloc ctx buf2 ;;
      eq <- upb_UnknownFields_IsEqual uf1 uf2 ;;
      if eq then Ret kUpb_UnknownCompareResult_Equal
      else Ret kUpb_UnknownCompareResult_NotEqual).
Proof.
  intros Halloc H1 H2 Hc Hc0. unfold upb_Message_UnknownFieldsAreEqual.
  destruct buf1 as [|a buf1]; [contradiction | ].
  destruct buf2 as [|b buf2]; [contradiction | ].
  cbn [length Nat.eqb andb orb]. cbn [length] in Hc. rewrite Hc. cbn [bind].
  destruct (Z.eqb_spec c 0) as [E|_]; [contradiction | ].
  unfold request. rewrite Halloc. reflexivity.
Qed.

Lemma memcmp_differs (buf1 buf2 : list byte) (c : Z) :
  memcmp buf1 buf2 (length buf1) = Ret c -> c <> 0 ->
  buf1 <> [] /\ buf2 <> [].
Proof.
  intros Hc Hc0. pose proof (memcmp_Ret_length _ _ _ _ Hc) as [_ Hlen].
  destruct buf1 as [|a buf1].
  - unfold memcmp in Hc. cbn in Hc. injection Hc as <-. contradiction.
  - destruct buf2 as [|b buf2]; [cbn [length] in Hlen; lia | ].
    split; discriminate.
Qed.

(** With a budget of at least 1 that does not exceed the nesting depth of
    one of two well-formed buffers, the slow path ends in MaxDepthExceeded. *)
Lemma depth_guard_le (alloc : allocator) (buf1 buf2 : list byte)
    (fs1 fs2 : list wire_field) (max_depth c : Z) :
  never_fails alloc -> encodes buf1 fs1 -> encodes buf2 fs2 ->
  memcmp buf1 buf2 (length buf1) = Ret c -> c <> 0 ->
  1 <= max_depth ->
  max_depth <= Z.of_nat (nesting_depth fs1)
  \/ max_depth <= Z.of_nat (nesting_depth fs2) ->
  upb_Message_UnknownFieldsAreEqual alloc buf1 buf2 max_depth
  = Ret kUpb_UnknownCompareResult_MaxDepthExceeded.
Proof.
  intros Halloc He1 He2 Hc Hc0 Hpos Hdeep.
  destruct (memcmp_differs buf1 buf2 c Hc Hc0) as [Hn1 Hn2].
  rewrite (compare_slow_path alloc buf1 buf2 max_depth c) by assumption.
  assert (Hinv : tmp_inv (mkContext 0 1 None 0 max_depth)) by (left; now split).
  destruct (Z.le_gt_cases max_depth (Z.of_nat (nesting_depth fs1))) as [H1|H1].
  - rewrite (Build_too_deep alloc _ buf1 fs1 Halloc Hinv He1) by (cbn; lia).
    reflexivity.
  - destruct (Build_ok alloc _ buf1 fs1 Halloc Hinv He1)
      as (uf1 & ctx1 & -> & Hd1 & Hinv1); [cbn; lia | ].
    cbn [bind].
    rewrite (Build_too_deep alloc ctx1 buf2 fs2 Halloc Hinv1 He2)
      by (rewrite Hd1; cbn; lia).
    reflexivity.
Qed.

(** C2, as amended.  Two well-formed buffers of which one has group nesting
    depth [n], compared with [1 <= max_depth < n] by an allocator that does
    not fail, yield MaxDepthExceeded whenever the first buffer is not longer
    than the second one and the first [size1] bytes of the two buffers
    differ, that is, whenever the byte comparison is defined and the
    byte-identical fast path does not answer first.  (Buffers whose first
    [size1] bytes differ are not empty.  With a first buffer longer than the
    second one the byte comparison reads past the second buffer, and nothing
    is stated.) *)
Theorem depth_guard (alloc : allocator) (buf1 buf2 : list byte)
    (fs1 fs2 : list wire_field) (max_depth : Z) :
  never_fails alloc -> encodes buf1 fs1 -> encodes buf2 fs2 ->
  (length buf1 <= length buf2)%nat -> firstn (length buf1) buf2 <> buf1 ->
  1 <= max_depth ->
  max_depth < Z.of_nat (nesting_depth fs1)
  \/ max_depth < Z.of_nat (nesting_depth fs2) ->
  upb_Message_UnknownFieldsAreEqual alloc buf1 buf2 max_depth
  = Ret kUpb_UnknownCompareResult_MaxDepthExceeded.
Proof.
  intros Halloc He1 He2 Hlen Hdiff Hpos Hdeep.
  destruct (memcmp_spec buf1 buf2)
    as [[_ H]|[[_ H]|(c & Hc & Hc0 & _ & _)]]; [contradiction | lia | ].
  apply (depth_guard_le alloc buf1 buf2 fs1 fs2 max_depth c); try assumption.
  lia.
Qed.

Lemma depth_guard_witness :
  upb_Message_UnknownFieldsAreEqual alloc_ok
    [x0b; x0b; x0c; x0c] [x13; x13; x14; x14] 1
  = Ret kUpb_UnknownCompareResult_MaxDepthExceeded.
Proof.
  apply (depth_guard alloc_ok [x0b; x0b; x0c; x0c] [x13; x13; x14; x14]
           [W_group [x0b] [W_group [x0b] [] [x0c]] [x0c]]
           [W_group [x13] [W_group [x13] [] [x14]] [x14]] 1).
  - intros n; reflexivity.
  - split; reflexivity.
  - split; reflexivity.
  - simpl. lia.
  - simpl. discriminate.
  - lia.
  - left. simpl. lia.
Defined.

(** C2, as stated, fails: a buffer of nesting depth 2 compared with a
    byte-identical buffer and [max_depth = 1] is answered Equal by the fast
    path. *)
Lemma depth_guard_counterexample :
  encodes [x0b; x0b; x0c; x0c] [W_group [x0b] [W_group [x0b] [] [x0c]] [x0c]]
  /\ nesting_depth [W_group [x0b] [W_group [x0b] [] [x0c]] [x0c]] = 2%nat
  /\ 1 < 2
  /\ upb_Message_UnknownFieldsAreEqual alloc_ok
       [x0b; x0b; x0c; x0c] [x0b; x0b; x0c; x0c] 1
     = Ret kUpb_UnknownCompareResult_Equal.
Proof. repeat split; reflexivity. Qed.

(** C9, as amended.  For a budget that is at least 1 on entry (and an
    allocator that does not fail), the builder run on a well-formed buffer
    returns with the budget as it was iff the nesting depth is below the
    budget, and leaves with MaxDepthExceeded iff it is not: each nesting
    level costs exactly 1 and the abort comes exactly when the budget would
    go below 1.  Whatever the input, the allocator and the budget, when the
    nested build of a group, entered with the budget less 1, returns, the
    increment that follows brings the budget back to what it was. *)
Theorem depth_budget (alloc : allocator) (ctx : upb_UnknownField_Context)
    (buf : list byte) (fs : list wire_field) :
  never_fails alloc -> tmp_inv ctx -> encodes buf fs -> 1 <= depth ctx ->
  (Z.of_nat (nesting_depth fs) < depth ctx ->
   exists uf ctx', upb_UnknownFields_Build alloc ctx buf = Ret (uf, ctx')
                   /\ depth ctx' = depth ctx)
  /\ (depth ctx <= Z.of_nat (nesting_depth fs) ->
      upb_UnknownFields_Build alloc ctx buf
      = LongJmp kUpb_UnknownCompareResult_MaxDepthExceeded)
  /\ (forall fuel alloc' buf' ctx0 p g q ctx2,
        upb_UnknownFields_DoBuild fuel alloc' buf'
          (set_depth ctx0 (depth ctx0 - 1)) p = Ret (g, q, ctx2) ->
        depth ctx2 = depth ctx0 - 1
        /\ depth (set_depth ctx2 (depth ctx2 + 1)) = depth ctx0).
Proof.
  intros Halloc Hinv Henc Hpos. split; [ | split].
  - intros Hlt.
    destruct (Build_ok alloc ctx buf fs Halloc Hinv Henc Hlt)
      as (uf & ctx' & H & Hd & _).
    now exists uf, ctx'.
  - intros Hge. apply (Build_too_deep alloc ctx buf fs); try assumption. lia.
  - intros fuel alloc' buf' ctx0 p g q ctx2 H.
    unfold upb_UnknownFields_DoBuild in H.
    apply DoBuild_loop_frame in H as [H _].
    cbn [depth set_depth] in *. lia.
Qed.

Lemma depth_budget_witness :
  (Z.of_nat 1 < 2 ->
   exists uf ctx',
     upb_UnknownFields_Build alloc_ok (mkContext 0 1 None 0 2) [x0b; x08; x01; x0c]
     = Ret (uf, ctx') /\ depth ctx' = 2)
  /\ (2 <= Z.of_nat 1 ->
      upb_UnknownFields_Build alloc_ok (mkContext 0 1 None 0 2) [x0b; x08; x01; x0c]
      = LongJmp kUpb_UnknownCompareResult_MaxDepthExceeded)
  /\ (forall fuel alloc' buf' ctx0 p g q ctx2,
        upb_UnknownFields_DoBuild fuel alloc' buf'
          (set_depth ctx0 (depth ctx0 - 1)) p = Ret (g, q, ctx2) ->
        depth ctx2 = depth ctx0 - 1
        /\ depth (set_depth ctx2 (depth ctx2 + 1)) = depth ctx0).
Proof.
  apply (depth_budget alloc_ok (mkContext 0 1 None 0 2) [x0b; x08; x01; x0c]
           [W_group [x0b] [W_varint [x08] [x01]] [x0c]]).
  - intros n; reflexivity.
  - left. split; reflexivity.
  - split; reflexivity.
  - simpl. lia.
Defined.

(** C9, as stated, fails for a budget below 1: with [max_depth = 0] the
    decrement on entering a group takes the budget to -1, which is below 1,
    and the comparison does not abort. *)
Lemma depth_budget_counterexample :
  0 - 1 < 1
  /\ upb_Message_UnknownFieldsAreEqual alloc_ok [x0b; x0c] [x13; x14] 0
     = Ret kUpb_UnknownCompareResult_NotEqual.
Proof. split; [lia | reflexivity]. Qed.

(** ** The end-group tag *)

(** The caller of a nested build goes on at the cursor the nested build
    handed back. *)
Lemma DoBuild_payload_group (fuel' : nat) (alloc : allocator) (buf : list byte)
    (ctx ctx2 : upb_UnknownField_Context) (arr : list upb_UnknownField)
    (cap : nat) (p q tag : Z) (sorted : bool) (g : upb_UnknownFields) :
  Z.land tag 7 = UPB_WIRE_TYPE_START_GROUP ->
  depth ctx <> INT_MIN -> depth ctx - 1 <> 0 ->
  upb_UnknownFields_DoBuild fuel' alloc buf (set_depth ctx (depth ctx - 1)) p
  = Ret (g, q, ctx2) ->
  DoBuild_payload fuel' alloc buf ctx arr cap p tag sorted
  = DoBuild_loop fuel' alloc buf (set_depth ctx2 (depth ctx2 + 1))
      (arr ++ [UnknownField tag (data_group g)]) cap q tag sorted.
Proof.
  intros Hland Hmin Hnz Hnested. payload_case Hland.
  destruct (Z.eqb_spec (depth ctx) INT_MIN) as [E|_]; [contradiction | ].
  cbn [depth set_depth].
  destruct (Z.eqb_spec (depth ctx - 1) 0) as [E|_]; [contradiction | ].
  unfold upb_UnknownFields_DoBuild in Hnested. rewrite Hnested. reflexivity.
Qed.

(** C6, as amended.  A nested build that stops at an end-group tag has
    consumed the tag itself: the cursor it hands back points just past the
    tag.  Its caller does not advance any further: the loop of the caller
    goes on at the cursor handed back. *)
Theorem nested_build_consumes_end_group (fuel : nat) (alloc : allocator)
    (buf : list byte) (body : list wire_field) (e rest : list byte)
    (ctx : upb_UnknownField_Context) (p : Z) :
  never_fails alloc -> tmp_inv ctx ->
  forallb wire_ok body = true -> is_tag e UPB_WIRE_TYPE_END_GROUP = true ->
  suffix_at buf p (flat_map wire_bytes body ++ e ++ rest) ->
  ctx_end ctx = Z.of_nat (length buf) ->
  Z.of_nat (nesting_depth body) < depth ctx ->
  (length (flat_map wire_bytes body ++ e ++ rest) < fuel)%nat ->
  (exists uf ctx',
     upb_UnknownFields_DoBuild fuel alloc buf ctx p
     = Ret (uf,
            p + Z.of_nat (length (flat_map wire_bytes body))
              + Z.of_nat (length e),
            ctx'))
  /\ (forall fuel' ctx0 ctx2 arr cap p0 q tag sorted g,
        Z.land tag 7 = UPB_WIRE_TYPE_START_GROUP ->
        depth ctx0 <> INT_MIN -> depth ctx0 - 1 <> 0 ->
        upb_UnknownFields_DoBuild fuel' alloc buf
          (set_depth ctx0 (depth ctx0 - 1)) p0 = Ret (g, q, ctx2) ->
        DoBuild_payload fuel' alloc buf ctx0 arr cap p0 tag sorted
        = DoBuild_loop fuel' alloc buf (set_depth ctx2 (depth ctx2 + 1))
            (arr ++ [UnknownField tag (data_group g)]) cap q tag sorted).
Proof.
  intros Halloc Hinv Hbody He Hs Hend Hdepth Hfuel. split.
  - unfold upb_UnknownFields_DoBuild.
    destruct (DoBuild_loop_parses fuel alloc buf body (e ++ rest) e ctx [] 0%nat
                p 0 true Halloc Hinv Hbody Hs Hend
                (or_intror (conj He (ex_intro _ rest eq_refl))) Hdepth Hfuel)
      as (uf & ctx' & H & _).
    now exists uf, ctx'.
  - intros. now apply DoBuild_payload_group.
Qed.

Lemma nested_build_consumes_end_group_witness :
  exists uf ctx',
    upb_UnknownFields_DoBuild 6 alloc_ok [x0b; x08; x01; x0c; x10; x02]
      (mkContext 6 1 None 0 1) 1
    = Ret (uf, 1 + Z.of_nat 2 + Z.of_nat 1, ctx').
Proof.
  apply (nested_build_consumes_end_group 6 alloc_ok
           [x0b; x08; x01; x0c; x10; x02] [W_varint [x08] [x01]] [x0c]
           [x10; x02] (mkContext 6 1 None 0 1) 1).
  - intros n; reflexivity.
  - left. split; reflexivity.
  - reflexivity.
  - reflexivity.
  - exists [x0b]. split; reflexivity.
  - reflexivity.
  - simpl. lia.
  - simpl. lia.
Defined.

(** C6, as stated, fails: in the group [0b 0c] the end-group tag lies at
    offset 1; the nested build, started at offset 1, hands back the cursor
    2, which is past the tag and not at it. *)
Lemma nested_build_counterexample :
  load [x0b; x0c] 1 = Some x0c
  /\ Z.land (u8 x0c) 7 = UPB_WIRE_TYPE_END_GROUP
  /\ upb_UnknownFields_DoBuild 2 alloc_ok [x0b; x0c] (mkContext 2 1 None 0 1) 1
     = Ret (UnknownFields [] 0, 2, mkContext 2 2 None 0 1)
  /\ 2 <> 1.
Proof. repeat split; [reflexivity .. | lia]. Qed.

(** ** The merge on concrete buffers *)

(** C1 fails on the code.  [X] holds the fields 5, 1, 9 and [Y] the same
    fields as 1, 5, 9; no tag occurs twice.  The sort of [X] loses field 9
    and holds field 1 twice, and the comparison returns NotEqual where the
    claim has Equal. *)
Theorem permuted_fields_compare_NotEqual :
  let X := [x28; x01; x08; x02; x48; x03] in
  let Y := [x08; x02; x28; x01; x48; x03] in
  let f5 := W_varint [x28] [x01] in
  let f1 := W_varint [x08] [x02] in
  let f9 := W_varint [x48] [x03] in
  encodes X [f5; f1; f9] /\ encodes Y [f1; f5; f9]
  /\ Permutation [f5; f1; f9] [f1; f5; f9]
  /\ NoDup (map wire_tag [f5; f1; f9])
  /\ upb_UnknownFields_Build alloc_ok (mkContext 0 1 None 0 1) X
     = Ret (UnknownFields
              [UnknownField 8 (data_varint 2); UnknownField 40 (data_varint 1);
               UnknownField 8 (data_varint 2)] 4,
            mkContext 6 4 (Some 8%nat) 8 1)
  /\ upb_Message_UnknownFieldsAreEqual alloc_ok X Y 1
     = Ret kUpb_UnknownCompareResult_NotEqual.
Proof.
  cbv zeta. repeat split; try reflexivity.
  - apply perm_swap.
  - cbn. repeat constructor; cbn; intuition discriminate.
Qed.

(** C5 fails on the code, by the same merge.  [X] holds six fields with
    the tags 24, 32, 40, 48, 8, 16 and then tag 72 twice, with the values 1
    then 2; [Y] is [X] with the two values exchanged.  The sort of either
    buffer loses both fields with tag 72, and the comparison returns Equal
    where the claim has NotEqual.  The two fields alone, which are not
    sorted, compare NotEqual. *)
Theorem duplicate_tags_compare_Equal :
  let X := [x18; x00; x20; x00; x28; x00; x30; x00; x08; x00; x10; x00;
            x48; x01; x48; x02] in
  let Y := [x18; x00; x20; x00; x28; x00; x30; x00; x08; x00; x10; x00;
            x48; x02; x48; x01] in
  let head := [W_varint [x18] [x00]; W_varint [x20] [x00];
               W_varint [x28] [x00]; W_varint [x30] [x00];
               W_varint [x08] [x00]; W_varint [x10] [x00]] in
  encodes X (head ++ [W_varint [x48] [x01]; W_varint [x48] [x02]])
  /\ encodes Y (head ++ [W_varint [x48] [x02]; W_varint [x48] [x01]])
  /\ upb_Message_UnknownFieldsAreEqual alloc_ok X Y 1
     = Ret kUpb_UnknownCompareResult_Equal
  /\ upb_Message_UnknownFieldsAreEqual alloc_ok
       [x48; x01; x48; x02] [x48; x02; x48; x01] 1
     = Ret kUpb_UnknownCompareResult_NotEqual.
Proof. cbv zeta. repeat split; reflexivity. Qed.

(** ** Failing allocations *)

(** The two arena requests of the builder are tested: a failure leaves the
    builder with OutOfMemory. *)
Lemma Grow_fails (alloc : allocator) (ctx : upb_UnknownField_Context)
    (arr : list upb_UnknownField) :
  alloc (arena ctx) = false ->
  upb_UnknownFields_Grow alloc ctx arr
  = LongJmp kUpb_UnknownCompareResult_OutOfMemory.
Proof.
  intros H. unfold upb_UnknownFields_Grow, request. now rewrite H.
Qed.

Lemma DoBuild_finish_fails (alloc : allocator) (ctx : upb_UnknownField_Context)
    (arr : list upb_UnknownField) (cap : nat) (ptr : Z) (sorted : bool) :
  alloc (arena ctx) = false ->
  DoBuild_finish alloc ctx arr cap ptr sorted
  = LongJmp kUpb_UnknownCompareResult_OutOfMemory.
Proof.
  intros H. unfold DoBuild_finish, request. now rewrite H.
Qed.

(** A sort of two or more elements with a null scratch pointer is
    undefined: the first merge copies into the null pointer. *)
Lemma SortRecursive_null_scratch (fuel : nat) :
  forall (arr : list upb_UnknownField) (start end_ : nat),
    (2 <= end_ - start)%nat -> (end_ - start <= fuel)%nat ->
    upb_UnknownFields_SortRecursive fuel arr start end_ None = Undefined.
Proof.
  induction fuel as [|fuel IH]; intros arr start end_ H2 Hf; [lia | ].
  cbn [upb_UnknownFields_SortRecursive].
  destruct (Nat.ltb_spec 1 (end_ - start)) as [_|H]; [ | lia].
  set (mid := (start + (end_ - start) / 2)%nat).
  assert (Hmid : (start < mid /\ mid < end_)%nat).
  { unfold mid. pose proof (Nat.div_mod_eq (end_ - start) 2) as Hd.
    pose proof (Nat.mod_upper_bound (end_ - start) 2 ltac:(lia)). lia. }
  assert (Hhalf : forall a s e, (s < e)%nat -> (e - s <= fuel)%nat ->
            upb_UnknownFields_SortRecursive fuel a s e None = Undefined
            \/ upb_UnknownFields_SortRecursive fuel a s e None = Ret a).
  { intros a s e Hse Hle. destruct (Nat.le_gt_cases (e - s) 1) as [H1|H1].
    - right. now apply SortRecursive_small.
    - left. apply IH; lia. }
  destruct (Hhalf arr start mid) as [-> | ->]; try lia; [reflexivity | ].
  cbn [bind].
  destruct (Hhalf arr mid end_) as [-> | ->]; try lia; reflexivity.
Qed.

(** The request for the scratch block is not tested: when it fails and the
    set has two or more fields, the sort is undefined.  (The builder sorts
    only arrays in which some tag is smaller than the tag before it, which
    have two or more fields.) *)
Lemma Sort_realloc_fails (alloc : allocator) (ctx : upb_UnknownField_Context)
    (uf : upb_UnknownFields) :
  (tmp_size ctx < size uf)%nat -> (2 <= size uf)%nat ->
  alloc (arena ctx) = false ->
  upb_UnknownFields_Sort alloc ctx uf = Undefined.
Proof.
  intros Hlt H2 Hfail. unfold upb_UnknownFields_Sort.
  destruct (Nat.ltb_spec (tmp_size ctx) (size uf)) as [_|H]; [ | lia].
  destruct (tmp_size_loop_returns (size uf) (Nat.max 8 (tmp_size ctx)) (size uf))
    as (n & -> & _); try lia.
  cbn [bind]. unfold request. rewrite Hfail. cbn [bind set_tmp tmp].
  rewrite SortRecursive_null_scratch by lia. reflexivity.
Qed.


(** C4 fails on the code.  In the comparison of [10 09 08 05] with
    [08 05 10 09] the requests are, in order: the arena (0), the growth of
    the field array (1), the field set (2) and, the tags being out of
    order, the scratch block of the sort (3).  A failure of one of the first
    three is answered OutOfMemory.  A failure of the fourth is not noticed:
    the merge copies into the null scratch pointer. *)
Theorem scratch_allocation_failure_unchecked :
  let X := [x10; x09; x08; x05] in
  let Y := [x08; x05; x10; x09] in
  upb_Message_UnknownFieldsAreEqual (alloc_fail_at 0) X Y 1
  = Ret kUpb_UnknownCompareResult_OutOfMemory
  /\ upb_Message_UnknownFieldsAreEqual (alloc_fail_at 1) X Y 1
     = Ret kUpb_UnknownCompareResult_OutOfMemory
  /\ upb_Message_UnknownFieldsAreEqual (alloc_fail_at 2) X Y 1
     = Ret kUpb_UnknownCompareResult_OutOfMemory
  /\ upb_Message_UnknownFieldsAreEqual (alloc_fail_at 3) X Y 1 = Undefined
  /\ upb_Message_UnknownFieldsAreEqual alloc_ok X Y 1
     = Ret kUpb_UnknownCompareResult_Equal.
Proof. cbv zeta. repeat split; reflexivity. Qed.

(** ** The fuel is never used up *)

Lemma bind_fuel {A B : Type} (m : outcome A) (k : A -> outcome B) :
  m <> OutOfFuel -> (forall a, m = Ret a -> k a <> OutOfFuel) ->
  bind m k <> OutOfFuel.
Proof.
  destruct m as [a| | |]; cbn [bind]; intros Hm Hk; try discriminate.
  - now apply Hk.
  - contradiction.
Qed.

Lemma UPB_ASSERT_fuel (c : bool) : UPB_ASSERT c <> OutOfFuel.
Proof. destruct c; discriminate. Qed.

Lemma Merge_loop_fuel (fuel : nat) :
  forall (t : list upb_UnknownField) (end1 end2 : nat)
         (arr : list upb_UnknownField) (ptr1 ptr2 out : nat),
    ((end1 - ptr1) + (end2 - ptr2) <= fuel)%nat ->
    Merge_loop fuel t end1 end2 arr ptr1 ptr2 out <> OutOfFuel.
Proof.
  induction fuel as [|fuel IH]; intros t end1 end2 arr ptr1 ptr2 out Hf;
    cbn [Merge_loop];
    destruct (Nat.ltb_spec ptr1 end1) as [Ha|Ha];
    destruct (Nat.ltb_spec ptr2 end2) as [Hb|Hb]; cbn [andb];
    try discriminate; try lia.
  destruct (nth_error t ptr1) as [f1|]; [ | discriminate].
  destruct (nth_error t ptr2) as [f2|]; [ | discriminate].
  destruct (tag f1 <=? tag f2); unfold store;
    destruct (out <? length arr)%nat; cbn [bind]; try discriminate;
    apply IH; lia.
Qed.

Lemma Merge_fuel (arr : list upb_UnknownField) (start mid end_ : nat)
    (tmp : option nat) :
  (start <= mid)%nat -> (mid <= end_)%nat ->
  upb_UnknownFields_Merge arr start mid end_ tmp <> OutOfFuel.
Proof.
  intros Hsm Hme. unfold upb_UnknownFields_Merge.
  destruct tmp as [room|]; [ | discriminate].
  destruct ((end_ - start <=? room)%nat && (start <=? end_)%nat
            && (end_ <=? length arr)%nat); [ | discriminate].
  apply bind_fuel; [apply Merge_loop_fuel; lia | ].
  intros [[[arr1 p1] p2] out] _. unfold memcpy_fields.
  repeat match goal with
         | |- (if ?c then _ else _) <> _ => destruct c
         end; discriminate.
Qed.

Lemma SortRecursive_fuel (fuel : nat) :
  forall (arr : list upb_UnknownField) (start end_ : nat) (tmp : option nat),
    (end_ - start <= fuel)%nat ->
    upb_UnknownFields_SortRecursive fuel arr start end_ tmp <> OutOfFuel.
Proof.
  induction fuel as [|fuel IH]; intros arr start end_ tmp Hf;
    cbn [upb_UnknownFields_SortRecursive];
    destruct (Nat.ltb_spec 1 (end_ - start)) as [H|H]; try discriminate;
    try lia.
  pose proof (Nat.div_mod_eq (end_ - start) 2) as Hd.
  pose proof (Nat.mod_upper_bound (end_ - start) 2 ltac:(lia)) as Hm.
  apply bind_fuel; [apply IH; lia | ]. intros arr1 _.
  apply bind_fuel; [apply IH; lia | ]. intros arr2 _.
  apply Merge_fuel; lia.
Qed.

Lemma Sort_fuel (alloc : allocator) (ctx : upb_UnknownField_Context)
    (uf : upb_UnknownFields) :
  upb_UnknownFields_Sort alloc ctx uf <> OutOfFuel.
Proof.
  unfold upb_UnknownFields_Sort. apply bind_fuel.
  - destruct (tmp_size ctx <? size uf)%nat; [ | discriminate].
    destruct (tmp_size_loop_returns (size uf) (Nat.max 8 (tmp_size ctx)) (size uf))
      as (n & -> & _); try lia.
    cbn [bind]. unfold request. discriminate.
  - intros ctx1 _. apply bind_fuel; [apply SortRecursive_fuel; lia | ].
    discriminate.
Qed.

Lemma DoBuild_finish_fuel (alloc : allocator) (ctx : upb_UnknownField_Context)
    (arr : list upb_UnknownField) (cap : nat) (ptr : Z) (sorted : bool) :
  DoBuild_finish alloc ctx arr cap ptr sorted <> OutOfFuel.
Proof.
  unfold DoBuild_finish, request.
  destruct (negb (alloc (arena ctx))); [discriminate | ].
  destruct (negb sorted); [ | discriminate].
  apply bind_fuel; [apply Sort_fuel | ]. intros [ctx1 uf1] _. discriminate.
Qed.

Lemma ParseVarint_value_nonneg (buf : list byte) (ptr limit p v : Z) :
  upb_UnknownFields_ParseVarint buf ptr limit = Ret (p, v) -> 0 <= v.
Proof.
  unfold upb_UnknownFields_ParseVarint.
  assert (H : forall fuel q bitpos val,
             0 <= val ->
             ParseVarint_loop fuel buf q limit bitpos val = Ret (p, v) -> 0 <= v).
  { induction fuel as [|fuel IH]; intros q bitpos val Hval H; [discriminate | ].
    cbn [ParseVarint_loop] in H.
    apply bind_Ret_inv in H as (u & _ & H).
    destruct (load buf q) as [b|]; [ | discriminate].
    assert (Hnext : 0 <= Z.lor val (wrap64 (Z.shiftl (Z.land (u8 b) 127) bitpos))).
    { apply Z.lor_nonneg. split; [exact Hval | apply wrap64_range]. }
    destruct (Z.land (u8 b) 128 =? 0).
    - now inversion H; subst.
    - now apply IH in H. }
  apply H. lia.
Qed.

(** The cursor a call of the builder hands back is not before the cursor it
    was given. *)
Lemma DoBuild_loop_cursor (fuel : nat) :
  forall (alloc : allocator) (buf : list byte)
         (ctx : upb_UnknownField_Context) (arr : list upb_UnknownField)
         (cap : nat) (ptr last : Z) (sorted : bool)
         (uf : upb_UnknownFields) (q : Z) (ctx' : upb_UnknownField_Context),
    DoBuild_loop fuel alloc buf ctx arr cap ptr last sorted = Ret (uf, q, ctx') ->
    ptr <= q.
Proof.
  induction fuel as [|fuel IH]; intros alloc buf ctx arr cap ptr last sorted
    uf q ctx' H.
  - cbn [DoBuild_loop] in H. destruct (ptr <? ctx_end ctx); [discriminate | ].
    apply DoBuild_finish_frame in H. lia.
  - rewrite DoBuild_loop_unfold in H.
    destruct (ptr <? ctx_end ctx);
      [ | apply DoBuild_finish_frame in H; lia].
    apply bind_Ret_inv in H as ([p1 tg] & Hp1 & H).
    apply ParseVarint_bounds in Hp1.
    apply bind_Ret_inv in H as (u & _ & H).
    destruct (Z.land tg 7 =? UPB_WIRE_TYPE_END_GROUP);
      [apply DoBuild_finish_frame in H; lia | ].
    apply bind_Ret_inv in H as ([ctx1 cap1] & _ & H).
    unfold DoBuild_payload in H.
    repeat match type of H with
           | (if Z.land tg 7 =? ?w then _ else _) = _ =>
               destruct (Z.land tg 7 =? w)
           end; try discriminate.
    + apply bind_Ret_inv in H as ([p2 v] & Hp2 & H).
      apply ParseVarint_bounds in Hp2. apply IH in H. lia.
    + apply bind_Ret_inv in H as (u1 & _ & H). apply IH in H. lia.
    + apply bind_Ret_inv in H as (u1 & _ & H). apply IH in H. lia.
    + apply bind_Ret_inv in H as ([p2 sz] & Hp2 & H).
      pose proof (ParseVarint_value_nonneg _ _ _ _ _ Hp2).
      apply ParseVarint_bounds in Hp2.
      apply bind_Ret_inv in H as (u1 & _ & H). apply IH in H. lia.
    + destruct (depth ctx1 =? INT_MIN); [discriminate | ].
      destruct (depth (set_depth ctx1 (depth ctx1 - 1)) =? 0); [discriminate | ].
      apply bind_Ret_inv in H as ([[g p2] ctx2] & Hn & H).
      apply IH in Hn. apply IH in H. lia.
Qed.

(** One unit of fuel for each byte up to [ctx->end], and one more, is
    enough for the builder. *)
Lemma DoBuild_loop_fuel (fuel : nat) :
  forall (alloc : allocator) (buf : list byte)
         (ctx : upb_UnknownField_Context) (arr : list upb_UnknownField)
         (cap : nat) (ptr last : Z) (sorted : bool),
    ctx_end ctx - ptr < Z.of_nat fuel ->
    DoBuild_loop fuel alloc buf ctx arr cap ptr last sorted <> OutOfFuel.
Proof.
  induction fuel as [|fuel IH]; intros alloc buf ctx arr cap ptr last sorted Hf.
  - cbn [DoBuild_loop].
    destruct (Z.ltb_spec ptr (ctx_end ctx)); [lia | apply DoBuild_finish_fuel].
  - rewrite DoBuild_loop_unfold.
    destruct (Z.ltb_spec ptr (ctx_end ctx)); [ | apply DoBuild_finish_fuel].
    apply bind_fuel; [apply ParseVarint_fuel | ].
    intros [p1 tg] Hp1. apply ParseVarint_bounds in Hp1.
    apply bind_fuel; [apply UPB_ASSERT_fuel | ]. intros _ _.
    destruct (Z.land tg 7 =? UPB_WIRE_TYPE_END_GROUP);
      [apply DoBuild_finish_fuel | ].
    apply bind_fuel.
    { destruct (length arr =? cap)%nat; [ | discriminate].
      unfold upb_UnknownFields_Grow, request.
      destruct (negb (alloc (arena ctx))); discriminate. }
    intros [ctx1 cap1] Hg. apply Grow_frame in Hg as [_ He1].
    unfold DoBuild_payload.
    repeat match goal with
           | |- (if Z.land tg 7 =? ?w then _ else _) <> _ =>
               destruct (Z.land tg 7 =? w)
           end; try discriminate.
    + apply bind_fuel; [apply ParseVarint_fuel | ].
      intros [p2 v] Hp2. apply ParseVarint_bounds in Hp2. apply IH. lia.
    + apply bind_fuel; [apply UPB_ASSERT_fuel | ]. intros _ _. apply IH. lia.
    + apply bind_fuel; [apply UPB_ASSERT_fuel | ]. intros _ _. apply IH. lia.
    + apply bind_fuel; [apply ParseVarint_fuel | ].
      intros [p2 sz] Hp2.
      pose proof (ParseVarint_value_nonneg _ _ _ _ _ Hp2).
      apply ParseVarint_bounds in Hp2.
      apply bind_fuel; [apply UPB_ASSERT_fuel | ]. intros _ _. apply IH. lia.
    + destruct (depth ctx1 =? INT_MIN); [discriminate | ].
      destruct (depth (set_depth ctx1 (depth ctx1 - 1)) =? 0); [discriminate | ].
      apply bind_fuel; [apply IH; cbn [ctx_end set_depth]; lia | ].
      intros [[g p2] ctx2] Hn.
      pose proof (DoBuild_loop_cursor _ _ _ _ _ _ _ _ _ _ _ _ Hn).
      apply DoBuild_loop_frame in Hn as [_ He2].
      apply IH. cbn [ctx_end set_depth] in *. lia.
Qed.

Lemma Build_fuel (alloc : allocator) (ctx : upb_UnknownField_Context)
    (buf : list byte) :
  upb_UnknownFields_Build alloc ctx buf <> OutOfFuel.
Proof.
  unfold upb_UnknownFields_Build, upb_UnknownFields_DoBuild.
  apply bind_fuel.
  - apply DoBuild_loop_fuel. cbn [ctx_end set_end]. lia.
  - intros [[uf p] ctx1] _. apply bind_fuel; [apply UPB_ASSERT_fuel | ].
    discriminate.
Qed.

Lemma IsEqual_fuel (uf1 : upb_UnknownFields) :
  forall uf2, upb_UnknownFields_IsEqual uf1 uf2 <> OutOfFuel.
Proof.
  induction uf1 as [fs1 c1 IH] using upb_UnknownFields_nested_ind.
  intros uf2. rewrite IsEqual_unfold.
  destruct (negb (length fs1 =? size uf2)%nat); [discriminate | ].
  generalize (fields uf2). induction fs1 as [|f1 fs1 IHl]; intros l2.
  - discriminate.
  - destruct l2 as [|f2 l2]; [destruct f1; discriminate | ].
    rewrite IsEqual_loop_cons. apply bind_fuel.
    + destruct f1 as [t1 d1]. cbn [IsEqual_loop].
      destruct (negb (t1 =? tag f2)); [discriminate | ].
      repeat match goal with
             | |- (if Z.land t1 7 =? ?w then _ else _) <> _ =>
                 destruct (Z.land t1 7 =? w)
             end; try discriminate;
        destruct d1, (data f2); try discriminate;
        try match goal with
            | |- context [negb ?c] => destruct c; discriminate
            end.
      apply bind_fuel; [eapply IH; left; reflexivity | ].
      intros []; discriminate.
    + intros [|] _; [ | discriminate].
      apply IHl. intros t g Hin. apply (IH t g). now right.
Qed.

Lemma memcmp_cases (s1 : list byte) :
  forall s2 n, (exists c, memcmp s1 s2 n = Ret c) \/ memcmp s1 s2 n = Undefined.
Proof.
  intros s2 n. unfold memcmp.
  destruct ((n <=? length s1)%nat && (n <=? length s2)%nat);
    [left; now eexists | now right].
Qed.

(** The entry point always ends by returning one of the four results or in
    undefined behaviour: the fuel of the embedding is never used up, and no
    jump leaves the function. *)
Lemma compare_returns_or_undefined (alloc : allocator)
    (buf1 buf2 : list byte) (max_depth : Z) :
  (exists r, upb_Message_UnknownFieldsAreEqual alloc buf1 buf2 max_depth = Ret r)
  \/ upb_Message_UnknownFieldsAreEqual alloc buf1 buf2 max_depth = Undefined.
Proof.
  assert (Hfuel : upb_Message_UnknownFieldsAreEqual alloc buf1 buf2 max_depth
                  <> OutOfFuel).
  { unfold upb_Message_UnknownFieldsAreEqual.
    destruct ((length buf1 =? 0)%nat && (length buf2 =? 0)%nat);
      [discriminate | ].
    destruct ((length buf1 =? 0)%nat || (length buf2 =? 0)%nat);
      [discriminate | ].
    destruct (memcmp_cases buf1 buf2 (length buf1)) as [[c ->] | ->];
      cbn [bind]; [ | discriminate].
    destruct (c =? 0); [discriminate | ].
    unfold request. destruct (negb (alloc _)); [discriminate | ].
    match goal with
    | |- catch ?m <> _ =>
        assert (Hm : m <> OutOfFuel); [ | destruct m; cbn [catch]; congruence]
    end.
    apply bind_fuel; [apply Build_fuel | ]. intros [uf1 ctx1] _.
    apply bind_fuel; [apply Build_fuel | ]. intros [uf2 ctx2] _.
    apply bind_fuel; [apply IsEqual_fuel | ]. intros [|] _; discriminate. }
  assert (Hjmp : forall r,
             upb_Message_UnknownFieldsAreEqual alloc buf1 buf2 max_depth
             <> LongJmp r).
  { intros r. unfold upb_Message_UnknownFieldsAreEqual.
    destruct ((length buf1 =? 0)%nat && (length buf2 =? 0)%nat);
      [discriminate | ].
    destruct ((length buf1 =? 0)%nat || (length buf2 =? 0)%nat);
      [discriminate | ].
    destruct (memcmp_cases buf1 buf2 (length buf1)) as [[c ->] | ->];
      cbn [bind]; [ | discriminate].
    destruct (c =? 0); [discriminate | ].
    unfold request. destruct (negb (alloc _)); [discriminate | ].
    match goal with
    | |- catch ?m <> _ => destruct m; cbn [catch]; discriminate
    end. }
  destruct (upb_Message_UnknownFieldsAreEqual alloc buf1 buf2 max_depth)
    as [r| r | |].
  - left. now exists r.
  - exfalso. now apply (Hjmp r).
  - now right.
  - contradiction.
Qed.

(** * Further properties of the code *)

(** ** The entry point on empty buffers *)

(** X1. Two empty buffers compare Equal and an empty buffer compared with a
    non-empty one, in either order, compares NotEqual, whatever the bytes,
    the budget and the allocator: nothing is allocated or parsed. *)
Theorem compare_empty (alloc : allocator) (buf : list byte) (d : Z) :
  buf <> [] ->
  upb_Message_UnknownFieldsAreEqual alloc [] [] d
  = Ret kUpb_UnknownCompareResult_Equal
  /\ upb_Message_UnknownFieldsAreEqual alloc [] buf d
     = Ret kUpb_UnknownCompareResult_NotEqual
  /\ upb_Message_UnknownFieldsAreEqual alloc buf [] d
     = Ret kUpb_UnknownCompareResult_NotEqual.
Proof.
  intros Hne. destruct buf as [|b buf]; [contradiction | ].
  repeat split; reflexivity.
Qed.

Lemma compare_empty_witness :
  upb_Message_UnknownFieldsAreEqual (alloc_fail_at 0) [] [] 0
  = Ret kUpb_UnknownCompareResult_Equal
  /\ upb_Message_UnknownFieldsAreEqual (alloc_fail_at 0) [] [xff] 0
     = Ret kUpb_UnknownCompareResult_NotEqual
  /\ upb_Message_UnknownFieldsAreEqual (alloc_fail_at 0) [xff] [] 0
     = Ret kUpb_UnknownCompareResult_NotEqual.
Proof. apply (compare_empty (alloc_fail_at 0) [xff] 0). discriminate. Defined.

(** ** The varint decoder accepts well-formed varints only *)

Lemma load_Some_inv (buf : list byte) (ptr : Z) (b : byte) :
  load buf ptr = Some b ->
  0 <= ptr /\ exists pre post, buf = pre ++ b :: post
                               /\ ptr = Z.of_nat (length pre).
Proof.
  unfold load. destruct (Z.ltb_spec ptr 0) as [|Hp]; [discriminate | ].
  intros H. split; [exact Hp | ].
  apply nth_error_split in H as (pre & post & -> & Hlen).
  exists pre, post. split; [reflexivity | lia].
Qed.

Lemma app_eq_same_length {A : Type} (l1 : list A) :
  forall l2 r1 r2, l1 ++ r1 = l2 ++ r2 -> length l1 = length l2 ->
                   l1 = l2 /\ r1 = r2.
Proof.
  induction l1 as [|x l1 IH]; intros [|y l2] r1 r2 H Hl; try discriminate.
  - now split.
  - injection H as -> H. injection Hl as Hl.
    destruct (IH l2 r1 r2 H Hl) as [-> ->]. now split.
Qed.

(** A run of the loop that returns has read the bytes of a varint. *)
Lemma ParseVarint_loop_reads (fuel : nat) :
  forall (buf : list byte) (ptr limit : Z) (j : nat) (val p v : Z),
    ParseVarint_loop fuel buf ptr limit (7 * Z.of_nat j) val = Ret (p, v) ->
    exists bs, varint_ok bs = true /\ (j + length bs <= 10)%nat
               /\ at_offset buf ptr bs
               /\ p = ptr + Z.of_nat (length bs) /\ p <= limit.
Proof.
  induction fuel as [|fuel IH]; intros buf ptr limit j val p v H;
    [discriminate | ].
  cbn [ParseVarint_loop] in H.
  apply bind_Ret_inv in H as (u & Ha & H).
  apply UPB_ASSERT_Ret_inv in Ha. apply andb_prop in Ha as [Hb Hl].
  apply Z.ltb_lt in Hb, Hl.
  destruct (load buf ptr) as [b|] eqn:Eb; [ | discriminate].
  apply load_Some_inv in Eb as (Hp & pre & post & -> & ->).
  destruct (Z.land (u8 b) 128 =? 0) eqn:Ec.
  - injection H as <- _. exists [b]. cbn [varint_ok length].
    unfold continuation. rewrite Ec. repeat split; try lia.
    now exists pre, post.
  - replace (7 * Z.of_nat j + 7) with (7 * Z.of_nat (S j)) in H by lia.
    apply IH in H as (bs & Hok & Hj & (pre' & post' & Hbuf & Hpre) & -> & Hlim).
    exists (b :: bs). cbn [length].
    assert (Hbs : bs <> []) by (intros ->; discriminate).
    repeat split; try lia.
    + cbn [varint_ok]. destruct bs; [contradiction | ].
      unfold continuation. now rewrite Ec, Hok.
    + assert (Hsplit : pre' = pre ++ [b] /\ bs ++ post' = post).
      { apply app_eq_same_length; [ | rewrite length_app; cbn [length]; lia].
        now rewrite <- Hbuf, <- app_assoc. }
      destruct Hsplit as [_ <-]. now exists pre, post'.
Qed.

(** A call of the decoder that returns has read a varint. *)
Lemma ParseVarint_reads (buf : list byte) (ptr limit p v : Z) :
  upb_UnknownFields_ParseVarint buf ptr limit = Ret (p, v) ->
  exists bs, varint_at buf ptr limit bs
             /\ p = ptr + Z.of_nat (length bs) /\ v = varint_value bs.
Proof.
  intros H. pose proof H as H'. unfold upb_UnknownFields_ParseVarint in H'.
  change 0 with (7 * Z.of_nat 0) in H' at 1.
  apply ParseVarint_loop_reads in H' as (bs & Hok & Hj & Hat & -> & Hlim).
  exists bs. pose proof (at_offset_bounds _ _ _ Hat) as [Hp _].
  assert (Hv : is_varint bs = true).
  { unfold is_varint. rewrite Hok. apply Nat.leb_le. lia. }
  rewrite (ParseVarint_at buf ptr limit bs Hat Hv Hlim) in H.
  injection H as <-. repeat split; try assumption; try lia.
  now apply load_bytes_at.
Qed.

(** X2. The decoder returns only at a well-formed varint: whenever it
    returns, the bytes between the old and the new cursor are a varint of at
    most ten bytes that ends before [limit], and the value returned is the
    value of that varint. *)
Theorem ParseVarint_sound (buf : list byte) (ptr limit p v : Z) :
  upb_UnknownFields_ParseVarint buf ptr limit = Ret (p, v) ->
  exists bs, varint_at buf ptr limit bs
             /\ p = ptr + Z.of_nat (length bs) /\ v = varint_value bs.
Proof. apply ParseVarint_reads. Qed.

(** X3. Without a terminating byte the decoder does not return: if every
    one of the (at most ten) bytes from the cursor up to [limit] has its
    continuation bit set, the assertion in the loop fails. *)
Theorem ParseVarint_no_terminator (buf : list byte) (ptr limit : Z) :
  forallb continuation
    (load_bytes buf ptr (Z.to_nat (Z.min 10 (limit - ptr)))) = true ->
  upb_UnknownFields_ParseVarint buf ptr limit = Undefined.
Proof.
  intros Hall.
  destruct (upb_UnknownFields_ParseVarint buf ptr limit) as [[p v]| r| |] eqn:E.
  - exfalso. apply ParseVarint_reads in E
      as (bs & (Hp & Hlim & Hload & Hok & Hlen) & -> & _).
    assert (Hpre : firstn (length bs)
                     (load_bytes buf ptr (Z.to_nat (Z.min 10 (limit - ptr)))) = bs).
    { unfold load_bytes in *. rewrite firstn_firstn, Nat.min_l by lia.
      exact Hload. }
    assert (Hcont : forallb continuation bs = true).
    { rewrite <- Hpre. rewrite forallb_forall in Hall |- *.
      intros x Hx. apply Hall.
      rewrite <- (firstn_skipn (length bs)). apply in_or_app. now left. }
    clear -Hok Hcont. induction bs as [|b bs IH]; [discriminate | ].
    cbn [forallb] in Hcont. apply andb_prop in Hcont as [Hb Hbs].
    destruct bs as [|b' bs].
    + cbn [varint_ok] in Hok. now rewrite Hb in Hok.
    + cbn [varint_ok] in Hok. apply andb_prop in Hok as [_ Hok]. auto.
  - exfalso. unfold upb_UnknownFields_ParseVarint in E.
    assert (H : forall fuel q bitpos val,
               ParseVarint_loop fuel buf q limit bitpos val <> LongJmp r).
    { induction fuel as [|fuel IH]; intros q bitpos val; [discriminate | ].
      cbn [ParseVarint_loop]. unfold UPB_ASSERT.
      destruct ((bitpos <? 70) && (q <? limit)); [ | discriminate].
      cbn [bind]. destruct (load buf q); [ | discriminate].
      destruct (Z.land (u8 b) 128 =? 0); [discriminate | apply IH]. }
    now apply H in E.
  - reflexivity.
  - exfalso. now apply ParseVarint_fuel in E.
Qed.

Lemma ParseVarint_sound_witness :
  exists bs, varint_at [x08; x96; x01] 1 3 bs
             /\ 3 = 1 + Z.of_nat (length bs) /\ 150 = varint_value bs.
Proof. apply (ParseVarint_sound [x08; x96; x01] 1 3 3 150). reflexivity. Defined.

Lemma ParseVarint_no_terminator_witness :
  upb_UnknownFields_ParseVarint [x08; x96; x81] 1 3 = Undefined.
Proof. apply (ParseVarint_no_terminator [x08; x96; x81] 1 3). reflexivity. Defined.

(** ** What the builder keeps *)

Lemma store_length (arr arr' : list upb_UnknownField) (i : nat)
    (x : upb_UnknownField) :
  store arr i x = Ret arr' -> length arr' = length arr.
Proof.
  unfold store. destruct (Nat.ltb_spec i (length arr)) as [Hi|Hi];
    [ | discriminate].
  intros H.
  assert (E : arr' = firstn i arr ++ x :: skipn (S i) arr) by congruence.
  rewrite E, length_app. cbn [length]. rewrite length_firstn, length_skipn. lia.
Qed.

Lemma memcpy_fields_length (dst src arr' : list upb_UnknownField)
    (doff soff n : nat) :
  memcpy_fields dst doff src soff n = Ret arr' -> length arr' = length dst.
Proof.
  unfold memcpy_fields.
  destruct (Nat.leb_spec (soff + n) (length src)) as [Hs|Hs]; [ | discriminate].
  destruct (Nat.leb_spec (doff + n) (length dst)) as [Hd|Hd]; [ | discriminate].
  cbn [andb]. intros H. injection H as <-.
  rewrite !length_app, !length_firstn, !length_skipn. lia.
Qed.

Lemma Merge_loop_length (fuel : nat) :
  forall t end1 end2 arr ptr1 ptr2 out arr' p1 p2 out',
    Merge_loop fuel t end1 end2 arr ptr1 ptr2 out = Ret (arr', p1, p2, out') ->
    length arr' = length arr.
Proof.
  induction fuel as [|fuel IH]; intros t end1 end2 arr ptr1 ptr2 out
    arr' p1 p2 out' H; cbn [Merge_loop] in H;
    destruct ((ptr1 <? end1)%nat && (ptr2 <? end2)%nat);
    try discriminate; try (now injection H as <- _ _ _).
  destruct (nth_error t ptr1) as [f1|]; [ | discriminate].
  destruct (nth_error t ptr2) as [f2|]; [ | discriminate].
  destruct (tag f1 <=? tag f2);
    apply bind_Ret_inv in H as (arr1 & Hst & H);
    apply store_length in Hst; apply IH in H; congruence.
Qed.

Lemma Merge_length (arr arr' : list upb_UnknownField) (start mid end_ : nat)
    (tmp : option nat) :
  upb_UnknownFields_Merge arr start mid end_ tmp = Ret arr' ->
  length arr' = length arr.
Proof.
  unfold upb_UnknownFields_Merge. intros H.
  destruct tmp as [room|]; [ | discriminate].
  destruct ((end_ - start <=? room)%nat && (start <=? end_)%nat
            && (end_ <=? length arr)%nat); [ | discriminate].
  apply bind_Ret_inv in H as ([[[arr1 p1] p2] out] & Hl & H).
  apply Merge_loop_length in Hl.
  destruct (p1 <? mid - start)%nat;
    [apply memcpy_fields_length in H; congruence | ].
  destruct (p2 <? end_ - start)%nat;
    [apply memcpy_fields_length in H; congruence | ].
  injection H as <-. exact Hl.
Qed.

Lemma SortRecursive_length (fuel : nat) :
  forall arr arr' start end_ tmp,
    upb_UnknownFields_SortRecursive fuel arr start end_ tmp = Ret arr' ->
    length arr' = length arr.
Proof.
  induction fuel as [|fuel IH]; intros arr arr' start end_ tmp H;
    cbn [upb_UnknownFields_SortRecursive] in H;
    destruct (1 <? end_ - start)%nat;
    try discriminate; try (now injection H as <-).
  apply bind_Ret_inv in H as (arr1 & H1 & H).
  apply bind_Ret_inv in H as (arr2 & H2 & H).
  apply IH in H1. apply IH in H2. apply Merge_length in H. congruence.
Qed.

Lemma tmp_size_loop_grows (fuel : nat) :
  forall ts sz n, tmp_size_loop fuel ts sz = Ret n -> (ts <= n /\ sz <= n)%nat.
Proof.
  induction fuel as [|fuel IH]; intros ts sz n H; cbn [tmp_size_loop] in H;
    destruct (Nat.ltb_spec ts sz) as [Hlt|Hlt]; try discriminate;
    try (injection H as <-; lia).
  apply IH in H. lia.
Qed.

(** What a sort that returns has done to the set and to the scratch block:
    the fields are as many, the capacity is the same, and the scratch size
    has not gone down and covers the set. *)
Lemma Sort_post (alloc : allocator) (ctx ctx' : upb_UnknownField_Context)
    (uf uf' : upb_UnknownFields) :
  upb_UnknownFields_Sort alloc ctx uf = Ret (ctx', uf') ->
  size uf' = size uf /\ capacity uf' = capacity uf
  /\ (tmp_size ctx <= tmp_size ctx')%nat /\ (size uf <= tmp_size ctx')%nat.
Proof.
  unfold upb_UnknownFields_Sort. intros H.
  apply bind_Ret_inv in H as (ctx1 & H1 & H).
  apply bind_Ret_inv in H as (arr & Hs & H).
  injection H as <- <-. apply SortRecursive_length in Hs.
  unfold size at 1. cbn [fields capacity]. split; [exact Hs | ].
  split; [reflexivity | ].
  destruct (Nat.ltb_spec (tmp_size ctx) (size uf)) as [Hlt|Hlt].
  - apply bind_Ret_inv in H1 as (n & Hn & H1). apply tmp_size_loop_grows in Hn.
    unfold request in H1. injection H1 as <-. cbn [tmp_size set_tmp]. lia.
  - injection H1 as <-. lia.
Qed.

Lemma DoBuild_finish_post (alloc : allocator)
    (ctx ctx' : upb_UnknownField_Context) (arr : list upb_UnknownField)
    (cap : nat) (ptr q : Z) (sorted : bool) (uf : upb_UnknownFields) :
  DoBuild_finish alloc ctx arr cap ptr sorted = Ret (uf, q, ctx') ->
  size uf = length arr /\ capacity uf = cap
  /\ (tmp_size ctx <= tmp_size ctx')%nat.
Proof.
  unfold DoBuild_finish, request. intros H.
  destruct (negb (alloc (arena ctx))); [discriminate | ].
  destruct (negb sorted).
  - apply bind_Ret_inv in H as ([ctx1 uf1] & Hs & H).
    injection H as <- _ <-. apply Sort_post in Hs as (Hsz & Hc & Ht & _).
    cbn [tmp_size set_arena] in Ht. repeat split; assumption.
  - injection H as <- _ <-. repeat split. cbn [tmp_size set_arena]. lia.
Qed.

(** The postconditions of a call of the builder that returns, for every
    input and every allocator. *)
Lemma DoBuild_loop_post (fuel : nat) :
  forall (alloc : allocator) (buf : list byte)
         (ctx : upb_UnknownField_Context) (arr : list upb_UnknownField)
         (cap : nat) (ptr last : Z) (sorted : bool)
         (uf : upb_UnknownFields) (q : Z) (ctx' : upb_UnknownField_Context),
    DoBuild_loop fuel alloc buf ctx arr cap ptr last sorted = Ret (uf, q, ctx') ->
    (length arr <= cap)%nat ->
    (size uf <= capacity uf)%nat /\ (length arr <= size uf)%nat
    /\ q <= Z.max ptr (ctx_end ctx)
    /\ (tmp_size ctx <= tmp_size ctx')%nat
    /\ ((cap <= Nat.max 4 (2 * length arr))%nat ->
        (capacity uf <= Nat.max 4 (2 * size uf))%nat).
Proof.
  induction fuel as [|fuel IH]; intros alloc buf ctx arr cap ptr last sorted
    uf q ctx' H Hcap.
  - cbn [DoBuild_loop] in H. destruct (ptr <? ctx_end ctx); [discriminate | ].
    pose proof (DoBuild_finish_frame _ _ _ _ _ _ _ _ _ H) as (_ & _ & ->).
    apply DoBuild_finish_post in H as (-> & -> & Ht). repeat split; lia.
  - rewrite DoBuild_loop_unfold in H.
    destruct (ptr <? ctx_end ctx).
    2:{ pose proof (DoBuild_finish_frame _ _ _ _ _ _ _ _ _ H) as (_ & _ & ->).
        apply DoBuild_finish_post in H as (-> & -> & Ht). repeat split; lia. }
    apply bind_Ret_inv in H as ([p1 tg] & Hp1 & H).
    apply ParseVarint_bounds in Hp1.
    apply bind_Ret_inv in H as (u & _ & H).
    destruct (Z.land tg 7 =? UPB_WIRE_TYPE_END_GROUP).
    { pose proof (DoBuild_finish_frame _ _ _ _ _ _ _ _ _ H) as (_ & _ & ->).
      apply DoBuild_finish_post in H as (-> & -> & Ht). repeat split; lia. }
    apply bind_Ret_inv in H as ([ctx1 cap1] & Hg & H).
    assert (Hg' : ((S (length arr) <= cap1)%nat
                   /\ ((cap <= Nat.max 4 (2 * length arr))%nat ->
                       (cap1 <= Nat.max 4 (2 * S (length arr)))%nat))
                  /\ ctx_end ctx1 = ctx_end ctx
                  /\ tmp_size ctx1 = tmp_size ctx).
    { destruct (Nat.eqb_spec (length arr) cap).
      - unfold upb_UnknownFields_Grow, request in Hg.
        destruct (negb (alloc (arena ctx))); [discriminate | ].
        assert (E1 : ctx1 = set_arena ctx (S (arena ctx))) by congruence.
        assert (E2 : cap1 = Nat.max 4 (length arr * 2)) by congruence.
        rewrite E1, E2. cbn [ctx_end tmp_size set_arena]. lia.
      - injection Hg as <- <-. lia. }
    destruct Hg' as ((Hcap1 & Hup1) & He1 & Ht1).
    assert (Hstep : forall d p2 uf0 q0 ctx0 ctx2,
               DoBuild_loop fuel alloc buf ctx2 (arr ++ [UnknownField tg d])
                 cap1 p2 tg (if tg <? last then false else sorted)
               = Ret (uf0, q0, ctx0) ->
               p2 <= ctx_end ctx2 -> ctx_end ctx2 = ctx_end ctx ->
               (tmp_size ctx <= tmp_size ctx2)%nat ->
               (size uf0 <= capacity uf0)%nat /\ (length arr <= size uf0)%nat
               /\ q0 <= Z.max ptr (ctx_end ctx)
               /\ (tmp_size ctx <= tmp_size ctx0)%nat
               /\ ((cap <= Nat.max 4 (2 * length arr))%nat ->
                   (capacity uf0 <= Nat.max 4 (2 * size uf0))%nat)).
    { intros d p2 uf0 q0 ctx0 ctx2 H0 Hp2 He2 Ht2.
      apply IH in H0; [ | rewrite length_app; cbn [length]; lia].
      rewrite length_app, Nat.add_1_r in H0. rewrite He2 in H0.
      repeat split; lia. }
    unfold DoBuild_payload in H.
    repeat match type of H with
           | (if Z.land tg 7 =? ?w then _ else _) = _ =>
               destruct (Z.land tg 7 =? w)
           end; try discriminate.
    + apply bind_Ret_inv in H as ([p2 v] & Hp2 & H).
      apply ParseVarint_bounds in Hp2.
      apply Hstep in H; [exact H | lia | exact He1 | lia].
    + apply bind_Ret_inv in H as (u1 & Ha & H).
      apply UPB_ASSERT_Ret_inv, Z.leb_le in Ha.
      apply Hstep in H; [exact H | lia | exact He1 | lia].
    + apply bind_Ret_inv in H as (u1 & Ha & H).
      apply UPB_ASSERT_Ret_inv, Z.leb_le in Ha.
      apply Hstep in H; [exact H | lia | exact He1 | lia].
    + apply bind_Ret_inv in H as ([p2 sz] & Hp2 & H).
      apply ParseVarint_bounds in Hp2.
      apply bind_Ret_inv in H as (u1 & Ha & H).
      apply UPB_ASSERT_Ret_inv, Z.leb_le in Ha.
      apply Hstep in H; [exact H | lia | exact He1 | lia].
    + destruct (depth ctx1 =? INT_MIN); [discriminate | ].
      destruct (depth (set_depth ctx1 (depth ctx1 - 1)) =? 0); [discriminate | ].
      apply bind_Ret_inv in H as ([[g p2] ctx2] & Hn & H).
      pose proof (DoBuild_loop_frame _ _ _ _ _ _ _ _ _ _ _ _ Hn) as [_ He2].
      apply IH in Hn; [ | cbn [length]; lia].
      cbn [ctx_end set_depth tmp_size length] in Hn, He2.
      apply Hstep in H; [exact H | | | ]; cbn [ctx_end set_depth tmp_size];
        try lia; congruence.
Qed.

(** ** Where the two error results come from *)

Lemma bind_LongJmp_inv {A B : Type} (m : outcome A) (k : A -> outcome B)
    (r : upb_UnknownCompareResult) :
  bind m k = LongJmp r ->
  m = LongJmp r \/ exists a, m = Ret a /\ k a = LongJmp r.
Proof.
  destruct m as [a|r'| |]; cbn [bind]; intros H; try discriminate.
  - right. now exists a.
  - left. now injection H as ->.
Qed.

Lemma UPB_ASSERT_no_jump (c : bool) (r : upb_UnknownCompareResult) :
  UPB_ASSERT c <> LongJmp r.
Proof. destruct c; discriminate. Qed.

Lemma ParseVarint_no_jump (buf : list byte) (ptr limit : Z)
    (r : upb_UnknownCompareResult) :
  upb_UnknownFields_ParseVarint buf ptr limit <> LongJmp r.
Proof.
  unfold upb_UnknownFields_ParseVarint.
  assert (H : forall fuel q bitpos val,
             ParseVarint_loop fuel buf q limit bitpos val <> LongJmp r).
  { induction fuel as [|fuel IH]; intros q bitpos val; [discriminate | ].
    cbn [ParseVarint_loop]. unfold UPB_ASSERT.
    destruct ((bitpos <? 70) && (q <? limit)); [ | discriminate].
    cbn [bind]. destruct (load buf q); [ | discriminate].
    destruct (Z.land (u8 b) 128 =? 0); [discriminate | apply IH]. }
  apply H.
Qed.

Lemma Merge_loop_no_jump (fuel : nat) :
  forall t end1 end2 arr ptr1 ptr2 out r,
    Merge_loop fuel t end1 end2 arr ptr1 ptr2 out <> LongJmp r.
Proof.
  induction fuel as [|fuel IH]; intros t end1 end2 arr ptr1 ptr2 out r;
    cbn [Merge_loop];
    destruct ((ptr1 <? end1)%nat && (ptr2 <? end2)%nat); try discriminate.
  destruct (nth_error t ptr1) as [f1|]; [ | discriminate].
  destruct (nth_error t ptr2) as [f2|]; [ | discriminate].
  destruct (tag f1 <=? tag f2); unfold store;
    destruct (out <? length arr)%nat; cbn [bind]; try discriminate;
    apply IH.
Qed.

Lemma tmp_size_loop_no_jump (fuel : nat) :
  forall ts sz r, tmp_size_loop fuel ts sz <> LongJmp r.
Proof.
  induction fuel as [|fuel IH]; intros ts sz r; cbn [tmp_size_loop];
    destruct (ts <? sz)%nat; try discriminate. apply IH.
Qed.

Lemma Merge_no_jump (arr : list upb_UnknownField) (start mid end_ : nat)
    (tmp : option nat) (r : upb_UnknownCompareResult) :
  upb_UnknownFields_Merge arr start mid end_ tmp <> LongJmp r.
Proof.
  unfold upb_UnknownFields_Merge. destruct tmp as [room|]; [ | discriminate].
  destruct ((end_ - start <=? room)%nat && (start <=? end_)%nat
            && (end_ <=? length arr)%nat); [ | discriminate].
  intros H. apply bind_LongJmp_inv in H as [H | ([[[a p1] p2] out] & _ & H)].
  - now apply Merge_loop_no_jump in H.
  - unfold memcpy_fields in H.
    repeat match type of H with
           | (if ?c then _ else _) = _ => destruct c
           end; discriminate.
Qed.

Lemma SortRecursive_no_jump (fuel : nat) :
  forall arr start end_ tmp r,
    upb_UnknownFields_SortRecursive fuel arr start end_ tmp <> LongJmp r.
Proof.
  induction fuel as [|fuel IH]; intros arr start end_ tmp r H;
    cbn [upb_UnknownFields_SortRecursive] in H;
    destruct (1 <? end_ - start)%nat; try discriminate.
  apply bind_LongJmp_inv in H as [H | (a1 & _ & H)]; [now apply IH in H | ].
  apply bind_LongJmp_inv in H as [H | (a2 & _ & H)]; [now apply IH in H | ].
  now apply Merge_no_jump in H.
Qed.

Lemma Sort_no_jump (alloc : allocator) (ctx : upb_UnknownField_Context)
    (uf : upb_UnknownFields) (r : upb_UnknownCompareResult) :
  upb_UnknownFields_Sort alloc ctx uf <> LongJmp r.
Proof.
  unfold upb_UnknownFields_Sort. intros H.
  apply bind_LongJmp_inv in H as [H | (c1 & _ & H)].
  - destruct (tmp_size ctx <? size uf)%nat; [ | discriminate].
    apply bind_LongJmp_inv in H as [H | (n & _ & H)]; [ | discriminate].
    now apply tmp_size_loop_no_jump in H.
  - apply bind_LongJmp_inv in H as [H | (a & _ & H)]; [ | discriminate].
    now apply SortRecursive_no_jump in H.
Qed.

Lemma DoBuild_finish_jump (alloc : allocator) (ctx : upb_UnknownField_Context)
    (arr : list upb_UnknownField) (cap : nat) (ptr : Z) (sorted : bool)
    (r : upb_UnknownCompareResult) :
  DoBuild_finish alloc ctx arr cap ptr sorted = LongJmp r ->
  r = kUpb_UnknownCompareResult_OutOfMemory /\ alloc (arena ctx) = false.
Proof.
  unfold DoBuild_finish, request.
  destruct (alloc (arena ctx)); cbn [negb].
  - destruct (negb sorted); [ | discriminate]. intros H.
    apply bind_LongJmp_inv in H as [H | ([c u] & _ & H)]; [ | discriminate].
    now apply Sort_no_jump in H.
  - intros H. injection H as <-. now split.
Qed.

(** A jump out of the builder is either OutOfMemory, after an allocation
    request that failed, or MaxDepthExceeded, from a budget that was at
    least 1 when the call began. *)
Lemma DoBuild_loop_jump (fuel : nat) :
  forall (alloc : allocator) (buf : list byte)
         (ctx : upb_UnknownField_Context) (arr : list upb_UnknownField)
         (cap : nat) (ptr last : Z) (sorted : bool)
         (r : upb_UnknownCompareResult),
    DoBuild_loop fuel alloc buf ctx arr cap ptr last sorted = LongJmp r ->
    (r = kUpb_UnknownCompareResult_OutOfMemory /\ exists n, alloc n = false)
    \/ (r = kUpb_UnknownCompareResult_MaxDepthExceeded /\ 1 <= depth ctx).
Proof.
  induction fuel as [|fuel IH]; intros alloc buf ctx arr cap ptr last sorted r H.
  - cbn [DoBuild_loop] in H. destruct (ptr <? ctx_end ctx); [discriminate | ].
    apply DoBuild_finish_jump in H as [-> Hf]. left. split; [reflexivity | eauto].
  - rewrite DoBuild_loop_unfold in H.
    destruct (ptr <? ctx_end ctx).
    2:{ apply DoBuild_finish_jump in H as [-> Hf]. left. eauto. }
    apply bind_LongJmp_inv in H as [H | ([p1 tg] & _ & H)];
      [now apply ParseVarint_no_jump in H | ].
    apply bind_LongJmp_inv in H as [H | (u & _ & H)];
      [now apply UPB_ASSERT_no_jump in H | ].
    destruct (Z.land tg 7 =? UPB_WIRE_TYPE_END_GROUP).
    { apply DoBuild_finish_jump in H as [-> Hf]. left. eauto. }
    apply bind_LongJmp_inv in H as [H | ([ctx1 cap1] & Hg & H)].
    { destruct (length arr =? cap)%nat; [ | discriminate].
      unfold upb_UnknownFields_Grow, request in H.
      destruct (alloc (arena ctx)) eqn:Ea; cbn [negb] in H; [discriminate | ].
      injection H as <-. left. eauto. }
    apply Grow_frame in Hg as [Hd1 _].
    unfold DoBuild_payload in H.
    repeat match type of H with
           | (if Z.land tg 7 =? ?w then _ else _) = _ =>
               destruct (Z.land tg 7 =? w)
           end; try discriminate.
    + apply bind_LongJmp_inv in H as [H | ([p2 v] & _ & H)];
        [now apply ParseVarint_no_jump in H | ].
      apply IH in H. now rewrite <- Hd1.
    + apply bind_LongJmp_inv in H as [H | (u1 & _ & H)];
        [now apply UPB_ASSERT_no_jump in H | ].
      apply IH in H. now rewrite <- Hd1.
    + apply bind_LongJmp_inv in H as [H | (u1 & _ & H)];
        [now apply UPB_ASSERT_no_jump in H | ].
      apply IH in H. now rewrite <- Hd1.
    + apply bind_LongJmp_inv in H as [H | ([p2 sz] & _ & H)];
        [now apply ParseVarint_no_jump in H | ].
      apply bind_LongJmp_inv in H as [H | (u1 & _ & H)];
        [now apply UPB_ASSERT_no_jump in H | ].
      apply IH in H. now rewrite <- Hd1.
    + destruct (depth ctx1 =? INT_MIN); [discriminate | ].
      cbn [depth set_depth] in H.
      destruct (Z.eqb_spec (depth ctx1 - 1) 0) as [E|E].
      { injection H as <-. right. split; [reflexivity | lia]. }
      apply bind_LongJmp_inv in H as [H | ([[g p2] ctx2] & Hn & H)].
      * apply IH in H as [H | [-> H]]; [now left | ].
        cbn [depth set_depth] in H. right. split; [reflexivity | lia].
      * apply DoBuild_loop_frame in Hn as [Hd2 _].
        apply IH in H as [H | [-> H]]; [now left | ].
        cbn [depth set_depth] in H, Hd2. right. split; [reflexivity | lia].
Qed.

Lemma Build_jump (alloc : allocator) (ctx : upb_UnknownField_Context)
    (buf : list byte) (r : upb_UnknownCompareResult) :
  upb_UnknownFields_Build alloc ctx buf = LongJmp r ->
  (r = kUpb_UnknownCompareResult_OutOfMemory /\ exists n, alloc n = false)
  \/ (r = kUpb_UnknownCompareResult_MaxDepthExceeded /\ 1 <= depth ctx).
Proof.
  unfold upb_UnknownFields_Build, upb_UnknownFields_DoBuild. intros H.
  apply bind_LongJmp_inv in H as [H | ([[uf p] c] & _ & H)].
  - now apply DoBuild_loop_jump in H.
  - apply bind_LongJmp_inv in H as [H | (u & _ & H)]; [ | discriminate].
    now apply UPB_ASSERT_no_jump in H.
Qed.

Lemma Build_frame (alloc : allocator) (ctx ctx' : upb_UnknownField_Context)
    (buf : list byte) (uf : upb_UnknownFields) :
  upb_UnknownFields_Build alloc ctx buf = Ret (uf, ctx') ->
  depth ctx' = depth ctx.
Proof.
  unfold upb_UnknownFields_Build, upb_UnknownFields_DoBuild. intros H.
  apply bind_Ret_inv in H as ([[uf1 p] c] & Hb & H).
  apply bind_Ret_inv in H as (u & _ & H). injection H as _ <-.
  now apply DoBuild_loop_frame in Hb as [Hd _].
Qed.

(** The results of the entry point, read backwards. *)
Lemma compare_result_inv (alloc : allocator) (buf1 buf2 : list byte)
    (max_depth : Z) (r : upb_UnknownCompareResult) :
  upb_Message_UnknownFieldsAreEqual alloc buf1 buf2 max_depth = Ret r ->
  r = kUpb_UnknownCompareResult_Equal
  \/ r = kUpb_UnknownCompareResult_NotEqual
  \/ (r = kUpb_UnknownCompareResult_OutOfMemory /\ exists n, alloc n = false)
  \/ (r = kUpb_UnknownCompareResult_MaxDepthExceeded /\ 1 <= max_depth).
Proof.
  unfold upb_Message_UnknownFieldsAreEqual.
  destruct ((length buf1 =? 0)%nat && (length buf2 =? 0)%nat);
    [intros H; injection H as <-; tauto | ].
  destruct ((length buf1 =? 0)%nat || (length buf2 =? 0)%nat);
    [intros H; injection H as <-; tauto | ].
  intros H. apply bind_Ret_inv in H as (c & _ & H).
  destruct (c =? 0); [injection H as <-; tauto | ].
  unfold request in H. cbn [arena] in H.
  destruct (alloc 0%nat) eqn:E0; cbn [negb] in H;
    [ | injection H as <-; right; right; left; eauto].
  match type of H with catch ?m = _ => destruct m as [r0|r0| |] eqn:Em end;
    cbn [catch] in H; try discriminate; injection H as ->.
  - apply bind_Ret_inv in Em as ([uf1 ctx1] & _ & Em).
    apply bind_Ret_inv in Em as ([uf2 ctx2] & _ & Em).
    apply bind_Ret_inv in Em as ([|] & _ & Em); injection Em as <-; tauto.
  - apply bind_LongJmp_inv in Em as [Em | ([uf1 ctx1] & Hb1 & Em)].
    { apply Build_jump in Em. cbn [depth] in Em. tauto. }
    apply Build_frame in Hb1. cbn [depth] in Hb1.
    apply bind_LongJmp_inv in Em as [Em | ([uf2 ctx2] & _ & Em)].
    { apply Build_jump in Em. rewrite Hb1 in Em. tauto. }
    apply bind_LongJmp_inv in Em as [Em | ([|] & _ & Em)]; try discriminate.
    exfalso. revert Em. clear. revert uf2.
    induction uf1 as [fs1 c1 IH] using upb_UnknownFields_nested_ind.
    intros uf2. rewrite IsEqual_unfold.
    destruct (negb (length fs1 =? size uf2)%nat); [discriminate | ].
    generalize (fields uf2). induction fs1 as [|f1 fs1 IHl]; intros l2.
    + discriminate.
    + destruct l2 as [|f2 l2]; [destruct f1; discriminate | ].
      rewrite IsEqual_loop_cons. intros H.
      apply bind_LongJmp_inv in H as [H | (b & _ & H)].
      * destruct f1 as [t1 d1]. cbn [IsEqual_loop] in H.
        destruct (negb (t1 =? tag f2)); [discriminate | ].
        repeat match type of H with
               | (if Z.land t1 7 =? ?w then _ else _) = _ =>
                   destruct (Z.land t1 7 =? w)
               end; try discriminate;
          destruct d1, (data f2); try discriminate;
          try match type of H with
              | context [negb ?c] => destruct c; discriminate
              end.
        apply bind_LongJmp_inv in H as [H | ([|] & _ & H)]; try discriminate.
        eapply IH; [left; reflexivity | exact H].
      * destruct b; [ | discriminate].
        revert H. apply IHl. intros t g Hin. apply (IH t g). now right.
Qed.

(** ** What the merge computes *)

Lemma Merge_unfold (arr : list upb_UnknownField) (start mid end_ room : nat) :
  upb_UnknownFields_Merge arr start mid end_ (Some room)
  = if ((end_ - start <=? room) && (start <=? end_) && (end_ <=? length arr))%nat
    then
      let t := firstn (end_ - start) (skipn start arr) in
      st <- Merge_loop (end_ - start) t (mid - start) (end_ - start) arr 0
              (mid - start) start ;;
      Merge_tail t (mid - start) (end_ - start) st
    else Undefined.
Proof.
  unfold upb_UnknownFields_Merge, Merge_tail.
  destruct ((end_ - start <=? room)%nat && (start <=? end_)%nat
            && (end_ <=? length arr)%nat); [ | reflexivity].
  cbv zeta. destruct (Merge_loop _ _ _ _ _ _ _ _) as [[[[a p1] p2] out]| | |];
    reflexivity.
Qed.

Lemma merged_nil_l (run2 l2 : list upb_UnknownField) :
  merged run2 [] l2 = firstn (length l2) run2.
Proof. destruct l2; reflexivity. Qed.

Lemma merged_nil_r (run2 l1 : list upb_UnknownField) :
  l1 <> [] -> merged run2 l1 [] = l1.
Proof. destruct l1; [contradiction | reflexivity]. Qed.

Lemma merged_cons (run2 : list upb_UnknownField) (a b : upb_UnknownField)
    (l1 l2 : list upb_UnknownField) :
  merged run2 (a :: l1) (b :: l2)
  = if tag a <=? tag b then a :: merged run2 l1 (b :: l2)
    else b :: merged run2 (a :: l1) l2.
Proof. reflexivity. Qed.

Lemma merged_length (run2 l1 : list upb_UnknownField) :
  forall l2, (length l2 <= length run2)%nat ->
             length (merged run2 l1 l2) = (length l1 + length l2)%nat.
Proof.
  induction l1 as [|a l1 IH1]; intros l2 Hl.
  - rewrite merged_nil_l, length_firstn. cbn [length]. lia.
  - induction l2 as [|b l2 IH2].
    + rewrite merged_nil_r by discriminate. cbn [length]. lia.
    + rewrite merged_cons. destruct (tag a <=? tag b); cbn [length].
      * rewrite IH1 by exact Hl. cbn [length]. lia.
      * rewrite IH2 by (cbn [length] in Hl; lia). cbn [length]. lia.
Qed.

(** The loop and the trailing copies, from any state the loop goes
    through: [c1] and [c2] are the parts of the two runs that have been
    taken, [pre] is the part of the array written or left alone so far. *)
Lemma Merge_loop_merged (fuel : nat) :
  forall (l1 l2 c1 c2 pre post t : list upb_UnknownField) (end1 end2 : nat),
    t = c1 ++ l1 ++ c2 ++ l2 ->
    end1 = (length c1 + length l1)%nat -> end2 = length t ->
    (length l1 + length l2 <= length post)%nat ->
    (length l1 + length l2 <= fuel)%nat ->
    (st <- Merge_loop fuel t end1 end2 (pre ++ post) (length c1)
             (end1 + length c2) (length pre) ;;
     Merge_tail t end1 end2 st)
    = Ret (pre ++ merged (c2 ++ l2) l1 l2
             ++ skipn (length l1 + length l2) post).
Proof.
  induction fuel as [|fuel IH]; intros l1 l2 c1 c2 pre post t end1 end2
    Ht He1 He2 Hpost Hfuel.
  - destruct l1; [ | cbn [length] in Hfuel; lia].
    destruct l2; [ | cbn [length] in Hfuel; lia].
    cbn [Merge_loop length] in *.
    destruct (Nat.ltb_spec (length c1) end1) as [H|_]; [lia | ].
    cbn [andb bind Merge_tail].
    destruct (Nat.ltb_spec (length c1) end1) as [H|_]; [lia | ].
    destruct (Nat.ltb_spec (end1 + length c2) end2) as [H|_].
    { subst t. rewrite !length_app in He2. cbn [length] in He2. lia. }
    now rewrite merged_nil_l.
  - assert (Hlt : length t = (length c1 + length l1 + length c2 + length l2)%nat).
    { subst t. rewrite !length_app. lia. }
    destruct l1 as [|a l1].
    { (* the first run is used up *)
      cbn [Merge_loop length] in *.
      destruct (Nat.ltb_spec (length c1) end1) as [H|_]; [lia | ].
      cbn [andb bind Merge_tail].
      destruct (Nat.ltb_spec (length c1) end1) as [H|_]; [lia | ].
      rewrite merged_nil_l.
      destruct (Nat.ltb_spec (end1 + length c2) end2) as [H|H].
      - unfold memcpy_fields.
        destruct (Nat.leb_spec (length c1 + (end2 - (end1 + length c2)))
                    (length t)) as [_|H']; [ | lia].
        destruct (Nat.leb_spec (length pre + (end2 - (end1 + length c2)))
                    (length (pre ++ post))) as [_|H'];
          [ | rewrite length_app in H'; lia].
        cbn [andb]. f_equal.
        replace (end2 - (end1 + length c2))%nat with (length l2) by lia.
        rewrite firstn_app, firstn_all, Nat.sub_diag, firstn_O, app_nil_r.
        f_equal. f_equal.
        + subst t. cbn [app].
          rewrite skipn_app, skipn_all, Nat.sub_diag. reflexivity.
        + rewrite skipn_app, skipn_all2 by lia.
          replace (length pre + length l2 - length pre)%nat with (length l2)
            by lia.
          reflexivity.
      - assert (length l2 = 0%nat) by lia.
        destruct l2; [ | discriminate]. cbn [length firstn]. reflexivity. }
    destruct l2 as [|b l2].
    { (* the second run is used up *)
      cbn [Merge_loop length] in *.
      destruct (Nat.ltb_spec (length c1) end1) as [_|H]; [ | lia].
      destruct (Nat.ltb_spec (end1 + length c2) end2) as [H|_]; [lia | ].
      cbn [andb bind Merge_tail].
      destruct (Nat.ltb_spec (length c1) end1) as [_|H]; [ | lia].
      rewrite merged_nil_r by discriminate.
      unfold memcpy_fields.
      destruct (Nat.leb_spec (length c1 + (end1 - length c1)) (length t))
        as [_|H']; [ | lia].
      destruct (Nat.leb_spec (length pre + (end1 - length c1))
                  (length (pre ++ post))) as [_|H'];
        [ | rewrite length_app in H'; lia].
      cbn [andb]. f_equal.
      replace (end1 - length c1)%nat with (length (a :: l1))
        by (cbn [length]; lia).
      rewrite firstn_app, firstn_all, Nat.sub_diag, firstn_O, app_nil_r.
      f_equal. f_equal.
      + subst t. rewrite skipn_app, skipn_all, Nat.sub_diag. cbn [skipn].
        rewrite app_nil_l.
        rewrite firstn_app, firstn_all, Nat.sub_diag, firstn_O, app_nil_r.
        reflexivity.
      + rewrite skipn_app, skipn_all2 by lia. cbn [length].
        replace (length pre + S (length l1) - length pre)%nat
          with (S (length l1 + 0)) by lia.
        reflexivity. }
    (* both runs have an element left *)
    cbn [length] in *. cbn [Merge_loop].
    destruct (Nat.ltb_spec (length c1) end1) as [_|H]; [ | lia].
    destruct (Nat.ltb_spec (end1 + length c2) end2) as [_|H]; [ | lia].
    cbn [andb].
    assert (Ha : nth_error t (length c1) = Some a).
    { subst t. rewrite nth_error_app2, Nat.sub_diag by lia. reflexivity. }
    assert (Hb : nth_error t (end1 + length c2) = Some b).
    { subst t. rewrite app_assoc, app_assoc.
      rewrite nth_error_app2 by (rewrite !length_app; cbn [length]; lia).
      replace (end1 + length c2 - length ((c1 ++ a :: l1) ++ c2))%nat
        with 0%nat by (rewrite !length_app; cbn [length]; lia).
      reflexivity. }
    rewrite Ha, Hb, merged_cons.
    destruct post as [|y post]; [cbn [length] in Hpost; lia | ].
    assert (Hstore : forall x, store (pre ++ y :: post) (length pre) x
                               = Ret ((pre ++ [x]) ++ post)).
    { intros x. unfold store.
      destruct (Nat.ltb_spec (length pre) (length (pre ++ y :: post)))
        as [_|H]; [ | rewrite length_app in H; cbn [length] in H; lia].
      f_equal. rewrite firstn_app, firstn_all, Nat.sub_diag, firstn_O, app_nil_r.
      rewrite skipn_app, skipn_all2 by lia.
      replace (S (length pre) - length pre)%nat with 1%nat by lia.
      cbn [skipn app]. now rewrite <- app_assoc. }
    cbn [length] in Hpost.
    change (skipn (S (length l1) + S (length l2)) (y :: post))
      with (skipn (length l1 + S (length l2)) post).
    destruct (tag a <=? tag b).
    + rewrite Hstore. cbn [bind].
      replace (S (length c1)) with (length (c1 ++ [a]))
        by (rewrite length_app; cbn [length]; lia).
      replace (S (length pre)) with (length (pre ++ [a]))
        by (rewrite length_app; cbn [length]; lia).
      rewrite (IH l1 (b :: l2) (c1 ++ [a]) c2 (pre ++ [a]) post t end1 end2);
        [ | subst t; now rewrite <- app_assoc
          | rewrite length_app; cbn [length]; lia | exact He2
          | cbn [length]; lia | cbn [length]; lia ].
      rewrite <- app_assoc. reflexivity.
    + rewrite Hstore. cbn [bind].
      replace (S (end1 + length c2)) with (end1 + length (c2 ++ [b]))%nat
        by (rewrite length_app; cbn [length]; lia).
      replace (S (length pre)) with (length (pre ++ [b]))
        by (rewrite length_app; cbn [length]; lia).
      rewrite (IH (a :: l1) l2 c1 (c2 ++ [b]) (pre ++ [b]) post t end1 end2);
        [ | subst t; now rewrite <- (app_assoc c2)
          | cbn [length]; lia | exact He2
          | cbn [length]; lia | cbn [length]; lia ].
      replace (length (a :: l1) + length l2)%nat
        with (length l1 + S (length l2))%nat by (cbn [length]; lia).
      rewrite <- !app_assoc. reflexivity.
Qed.

Lemma firstn_add_skipn {A : Type} (a b : nat) (l : list A) :
  firstn (a + b) l = firstn a l ++ firstn b (skipn a l).
Proof.
  revert l. induction a as [|a IH]; intros l; [reflexivity | ].
  destruct l as [|x l];
    [cbn [Nat.add firstn skipn app]; now rewrite firstn_nil | ].
  cbn [Nat.add firstn skipn app]. now rewrite IH.
Qed.

(** The runs of a merge are [arr[start .. mid)] and [arr[mid .. end)]. *)
Lemma Merge_merged (arr : list upb_UnknownField) (start mid end_ room : nat) :
  (start <= mid)%nat -> (mid <= end_)%nat -> (end_ <= length arr)%nat ->
  (end_ - start <= room)%nat ->
  upb_UnknownFields_Merge arr start mid end_ (Some room)
  = Ret (firstn start arr
           ++ merged (firstn (end_ - mid) (skipn mid arr))
                (firstn (mid - start) (skipn start arr))
                (firstn (end_ - mid) (skipn mid arr))
           ++ skipn end_ arr).
Proof.
  intros Hsm Hme Hel Hroom. rewrite Merge_unfold.
  destruct (Nat.leb_spec (end_ - start) room) as [_|H]; [ | lia].
  destruct (Nat.leb_spec start end_) as [_|H]; [ | lia].
  destruct (Nat.leb_spec end_ (length arr)) as [_|H]; [ | lia].
  cbn [andb]. cbv zeta.
  set (run1 := firstn (mid - start) (skipn start arr)).
  set (run2 := firstn (end_ - mid) (skipn mid arr)).
  assert (Hl1 : length run1 = (mid - start)%nat).
  { unfold run1. rewrite length_firstn, length_skipn. lia. }
  assert (Hl2 : length run2 = (end_ - mid)%nat).
  { unfold run2. rewrite length_firstn, length_skipn. lia. }
  assert (Ht : firstn (end_ - start) (skipn start arr) = run1 ++ run2).
  { replace (end_ - start)%nat with ((mid - start) + (end_ - mid))%nat by lia.
    rewrite firstn_add_skipn. fold run1. f_equal. unfold run2.
    rewrite skipn_skipn. do 2 f_equal. lia. }
  rewrite Ht.
  pose proof (Merge_loop_merged (end_ - start) run1 run2 [] [] (firstn start arr)
                (skipn start arr) (run1 ++ run2) (mid - start) (end_ - start))
    as Hm.
  cbn [app length] in Hm. rewrite Nat.add_0_r in Hm.
  rewrite length_firstn, Nat.min_l, firstn_skipn in Hm by lia.
  rewrite Hm.
  - rewrite Hl1, Hl2, skipn_skipn. do 4 f_equal. lia.
  - reflexivity.
  - lia.
  - rewrite length_app. lia.
  - rewrite length_skipn. lia.
  - lia.
Qed.

(** *** When the merge is the stable merge *)

Lemma stable_merge_cons (a b : upb_UnknownField)
    (l1 l2 : list upb_UnknownField) :
  stable_merge (a :: l1) (b :: l2)
  = if tag a <=? tag b then a :: stable_merge l1 (b :: l2)
    else b :: stable_merge (a :: l1) l2.
Proof. reflexivity. Qed.

Lemma stable_merge_nil_l (l2 : list upb_UnknownField) : stable_merge [] l2 = l2.
Proof. destruct l2; reflexivity. Qed.

Lemma stable_merge_nil_r (l1 : list upb_UnknownField) : stable_merge l1 [] = l1.
Proof. destruct l1; reflexivity. Qed.

Lemma merged_single (b : upb_UnknownField) (l1 : list upb_UnknownField) :
  merged [b] l1 [b] = stable_merge l1 [b].
Proof.
  induction l1 as [|a l1 IH]; [reflexivity | ].
  rewrite merged_cons, stable_merge_cons. destruct (tag a <=? tag b).
  - now rewrite IH.
  - now rewrite merged_nil_r, stable_merge_nil_r by discriminate.
Qed.

Lemma merged_in_order (run2 l1 : list upb_UnknownField) :
  Forall (fun a => match run2 with [] => True | b :: _ => tag a <= tag b end) l1 ->
  merged run2 l1 run2 = l1 ++ run2.
Proof.
  induction l1 as [|a l1 IH]; intros Hall.
  - rewrite merged_nil_l. apply firstn_all.
  - inversion Hall as [|? ? Ha Hrest]; subst.
    destruct run2 as [|b run2].
    + rewrite merged_nil_r by discriminate. now rewrite app_nil_r.
    + rewrite merged_cons. destruct (Z.leb_spec (tag a) (tag b)); [ | lia].
      cbn [app]. f_equal. now apply IH.
Qed.

Lemma ascending_app_inv (l1 : list upb_UnknownField) :
  forall l2, ascending (l1 ++ l2) ->
    ascending l1 /\ ascending l2
    /\ Forall (fun a => match l2 with [] => True | b :: _ => tag a <= tag b end) l1.
Proof.
  induction l1 as [|a l1 IH]; intros l2 H.
  - cbn [app] in H. split; [exact I | split; [exact H | constructor]].
  - cbn [app ascending] in H. destruct H as [Hhead Hrest].
    destruct (IH l2 Hrest) as (H1 & H2 & Hall).
    split; [ | split; [exact H2 | ]].
    + cbn [ascending]. split; [ | exact H1].
      destruct l1; [exact I | exact Hhead].
    + constructor; [ | exact Hall].
      destruct l2 as [|b l2]; [exact I | ].
      destruct l1 as [|a' l1]; [exact Hhead | ].
      inversion Hall; subst. cbn [app] in Hhead. lia.
Qed.


Lemma stable_merge_in_order (run2 l1 : list upb_UnknownField) :
  Forall (fun a => match run2 with [] => True | b :: _ => tag a <= tag b end) l1 ->
  stable_merge l1 run2 = l1 ++ run2.
Proof.
  induction l1 as [|a l1 IH]; intros Hall.
  - apply stable_merge_nil_l.
  - inversion Hall as [|? ? Ha Hrest]; subst.
    destruct run2 as [|b run2].
    + now rewrite stable_merge_nil_r, app_nil_r.
    + rewrite stable_merge_cons. destruct (Z.leb_spec (tag a) (tag b)); [ | lia].
      cbn [app]. f_equal. now apply IH.
Qed.

Lemma range_rebuild {A : Type} (arr : list A) (start end_ : nat) :
  (start <= end_)%nat ->
  firstn start arr ++ firstn (end_ - start) (skipn start arr) ++ skipn end_ arr
  = arr.
Proof.
  intros H. rewrite <- (firstn_skipn start arr) at 4. f_equal.
  rewrite <- (firstn_skipn (end_ - start) (skipn start arr)) at 2. f_equal.
  rewrite skipn_skipn. f_equal. lia.
Qed.

Lemma range_split {A : Type} (arr : list A) (start mid end_ : nat) :
  (start <= mid)%nat -> (mid <= end_)%nat ->
  firstn (end_ - start) (skipn start arr)
  = firstn (mid - start) (skipn start arr) ++ firstn (end_ - mid) (skipn mid arr).
Proof.
  intros H1 H2.
  replace (end_ - start)%nat with ((mid - start) + (end_ - mid))%nat by lia.
  rewrite firstn_add_skipn. f_equal. rewrite skipn_skipn. do 2 f_equal. lia.
Qed.

(** A range whose tags do not decrease comes out of the sort as it went
    in. *)
Lemma SortRecursive_ascending (fuel : nat) :
  forall (arr : list upb_UnknownField) (start end_ room : nat),
    (start <= end_)%nat -> (end_ <= length arr)%nat ->
    (end_ - start <= room)%nat -> (end_ - start <= fuel)%nat ->
    ascending (firstn (end_ - start) (skipn start arr)) ->
    upb_UnknownFields_SortRecursive fuel arr start end_ (Some room) = Ret arr.
Proof.
  induction fuel as [|fuel IH]; intros arr start end_ room Hse Hel Hroom Hfuel
    Hasc; cbn [upb_UnknownFields_SortRecursive];
    destruct (Nat.ltb_spec 1 (end_ - start)) as [H|H]; try reflexivity;
    [lia | ].
  set (mid := (start + (end_ - start) / 2)%nat).
  assert (Hmid : (start < mid /\ mid < end_)%nat).
  { unfold mid. pose proof (Nat.div_mod_eq (end_ - start) 2) as Hd.
    pose proof (Nat.mod_upper_bound (end_ - start) 2 ltac:(lia)). lia. }
  rewrite (range_split arr start mid end_) in Hasc by lia.
  apply ascending_app_inv in Hasc as (Ha1 & Ha2 & Hall).
  rewrite (IH arr start mid room) by (try assumption; lia). cbn [bind].
  rewrite (IH arr mid end_ room) by (try assumption; lia). cbn [bind].
  rewrite Merge_merged by lia.
  rewrite merged_in_order by exact Hall.
  rewrite <- (range_split arr start mid end_) by lia.
  now rewrite range_rebuild by lia.
Qed.

Lemma SortRecursive_two (fuel room : nat) (a b : upb_UnknownField) :
  (2 <= fuel)%nat -> (2 <= room)%nat ->
  upb_UnknownFields_SortRecursive fuel [a; b] 0 2 (Some room)
  = Ret (if tag a <=? tag b then [a; b] else [b; a]).
Proof.
  intros Hf Hr. destruct fuel as [|[|fuel]]; try lia.
  cbn [upb_UnknownFields_SortRecursive Nat.sub Nat.ltb Nat.leb].
  change (0 + 2 / 2)%nat with 1%nat.
  cbn [upb_UnknownFields_SortRecursive Nat.sub Nat.ltb Nat.leb bind].
  rewrite Merge_merged by (cbn [length]; lia).
  cbn [firstn skipn Nat.sub app]. rewrite merged_cons.
  destruct (tag a <=? tag b); reflexivity.
Qed.

(** ** The comparator decides equality of the trees *)

Lemma erase_unfold (fs : list upb_UnknownField) (c : nat) :
  erase (UnknownFields fs c) = UnknownFields (map erase_field fs) 0.
Proof. reflexivity. Qed.

Lemma field_match_erase (f1 f2 : upb_UnknownField) :
  field_typed f1 = true -> field_typed f2 = true ->
  (forall t g1, f1 = UnknownField t (data_group g1) ->
     forall g2, set_typed g2 = true ->
       (upb_UnknownFields_IsEqual g1 g2 = Ret true <-> erase g1 = erase g2)) ->
  (field_match f1 f2 <-> erase_field f1 = erase_field f2).
Proof.
  destruct f1 as [t1 d1], f2 as [t2 d2]. intros H1 H2 Hg.
  unfold field_match. cbn [tag data].
  destruct d1 as [v1|v1|v1|s1|g1]; cbn [field_typed] in H1;
    try (apply andb_prop in H1 as [H1 Hs1]); apply Z.eqb_eq in H1;
    destruct d2 as [v2|v2|v2|s2|g2]; cbn [field_typed] in H2;
    try (apply andb_prop in H2 as [H2 Hs2]); apply Z.eqb_eq in H2;
    cbn [payload_match erase_field];
    try (split; [intros [_ []] | discriminate]);
    try (split; [intros (-> & _ & ->); reflexivity
                | intros E; injection E as -> ->; tauto]).
  rewrite (Hg t1 g1 eq_refl g2 Hs2). split.
  - intros (-> & _ & ->). reflexivity.
  - intros E. injection E as -> ->. tauto.
Qed.

Lemma Forall2_match_erase (l1 : list upb_UnknownField) :
  forall l2,
    forallb field_typed l1 = true -> forallb field_typed l2 = true ->
    (forall t g1, In (UnknownField t (data_group g1)) l1 ->
       forall g2, set_typed g2 = true ->
         (upb_UnknownFields_IsEqual g1 g2 = Ret true <-> erase g1 = erase g2)) ->
    (Forall2 field_match l1 l2 <-> map erase_field l1 = map erase_field l2).
Proof.
  induction l1 as [|f1 l1 IH]; intros [|f2 l2] H1 H2 Hg.
  - split; [reflexivity | constructor].
  - split; [intros H; inversion H | discriminate].
  - split; [intros H; inversion H | discriminate].
  - cbn [forallb] in H1, H2.
    apply andb_prop in H1 as [Hf1 H1]. apply andb_prop in H2 as [Hf2 H2].
    rewrite Forall2_cons_iff.
    rewrite (IH l2 H1 H2 (fun t g Hin => Hg t g (or_intror Hin))).
    rewrite (field_match_erase f1 f2 Hf1 Hf2).
    + cbn [map]. split; [intros [-> ->]; reflexivity | ].
      intros E. now injection E.
    + intros t g1 ->. apply (Hg t g1). now left.
Qed.

Lemma IsEqual_erase (uf1 : upb_UnknownFields) :
  set_typed uf1 = true ->
  forall uf2, set_typed uf2 = true ->
    (upb_UnknownFields_IsEqual uf1 uf2 = Ret true <-> erase uf1 = erase uf2).
Proof.
  induction uf1 as [fs1 c1 IH] using upb_UnknownFields_nested_ind.
  intros Ht1 [fs2 c2] Ht2. rewrite IsEqual_unfold, !erase_unfold.
  rewrite set_typed_unfold in Ht1, Ht2. unfold size. cbn [fields].
  assert (Hg : forall t g1, In (UnknownField t (data_group g1)) fs1 ->
             forall g2, set_typed g2 = true ->
               (upb_UnknownFields_IsEqual g1 g2 = Ret true
                <-> erase g1 = erase g2)).
  { intros t g1 Hin. apply (IH t g1 Hin).
    rewrite forallb_forall in Ht1. specialize (Ht1 _ Hin).
    cbn [field_typed] in Ht1. now apply andb_prop in Ht1 as [_ ?]. }
  destruct (Nat.eqb_spec (length fs1) (length fs2)) as [E|E]; cbn [negb].
  - assert (Hg' : forall t g, In (UnknownField t (data_group g)) fs1 ->
               forall g2, set_typed g2 = true ->
                 exists b, upb_UnknownFields_IsEqual g g2 = Ret b).
    { intros t g Hin g2 Hg2. apply IsEqual_total; [ | exact Hg2].
      rewrite forallb_forall in Ht1. specialize (Ht1 _ Hin).
      cbn [field_typed] in Ht1. now apply andb_prop in Ht1 as [_ ?]. }
    destruct (IsEqual_loop_spec fs1 Hg' Ht1 fs2 Ht2 E) as (b & -> & Hiff).
    split.
    + intros H. injection H as ->. f_equal.
      apply (Forall2_match_erase fs1 fs2 Ht1 Ht2 Hg). now apply Hiff.
    + intros H. injection H as H.
      apply (Forall2_match_erase fs1 fs2 Ht1 Ht2 Hg) in H.
      f_equal. now apply Hiff.
  - split; [discriminate | ]. intros H. injection H as H.
    apply (f_equal (@length _)) in H. rewrite !length_map in H. contradiction.
Qed.

(** ** The tree the builder returns *)

(** With room for the range, the size of the scratch block does not show in
    the result of the sort. *)
Lemma SortRecursive_room (fuel : nat) :
  forall (arr : list upb_UnknownField) (start end_ room1 room2 : nat),
    (start <= end_)%nat -> (end_ <= length arr)%nat ->
    (end_ - start <= room1)%nat -> (end_ - start <= room2)%nat ->
    upb_UnknownFields_SortRecursive fuel arr start end_ (Some room1)
    = upb_UnknownFields_SortRecursive fuel arr start end_ (Some room2).
Proof.
  induction fuel as [|fuel IH]; intros arr start end_ room1 room2 Hse Hel H1 H2;
    cbn [upb_UnknownFields_SortRecursive]; [reflexivity | ].
  destruct (Nat.ltb_spec 1 (end_ - start)) as [H|H]; [ | reflexivity].
  set (mid := (start + (end_ - start) / 2)%nat).
  assert (Hmid : (start < mid /\ mid < end_)%nat).
  { unfold mid. pose proof (Nat.div_mod_eq (end_ - start) 2) as Hd.
    pose proof (Nat.mod_upper_bound (end_ - start) 2 ltac:(lia)). lia. }
  rewrite (IH arr start mid room1 room2) by lia.
  destruct (upb_UnknownFields_SortRecursive fuel arr start mid (Some room2))
    as [arr1| | |] eqn:E1; try reflexivity.
  apply SortRecursive_length in E1. cbn [bind].
  rewrite (IH arr1 mid end_ room1 room2) by lia.
  destruct (upb_UnknownFields_SortRecursive fuel arr1 mid end_ (Some room2))
    as [arr2| | |] eqn:E2; try reflexivity.
  apply SortRecursive_length in E2. cbn [bind].
  now rewrite !Merge_merged by lia.
Qed.

Lemma SortRecursive_code (l : list upb_UnknownField) (room : nat) :
  (length l <= room)%nat ->
  upb_UnknownFields_SortRecursive (length l) l 0 (length l) (Some room)
  = Ret (sorted_by_code l).
Proof.
  intros Hr. unfold sorted_by_code.
  rewrite (SortRecursive_room (length l) l 0 (length l) room (length l)) by lia.
  destruct (SortRecursive_returns (length l) l 0 (length l) (length l))
    as (arr' & -> & _); try lia. reflexivity.
Qed.

Lemma sorted_by_code_small (l : list upb_UnknownField) :
  (length l <= 1)%nat -> sorted_by_code l = l.
Proof.
  intros H. unfold sorted_by_code. now rewrite SortRecursive_small by lia.
Qed.

Lemma Sort_code (alloc : allocator) (ctx : upb_UnknownField_Context)
    (arr : list upb_UnknownField) (cap : nat) :
  never_fails alloc -> tmp_inv ctx ->
  exists ctx',
    upb_UnknownFields_Sort alloc ctx (UnknownFields arr cap)
    = Ret (ctx', UnknownFields (sorted_by_code arr) cap)
    /\ tmp_inv ctx' /\ depth ctx' = depth ctx /\ ctx_end ctx' = ctx_end ctx.
Proof.
  intros Halloc Hinv. unfold upb_UnknownFields_Sort, size. cbn [fields capacity].
  destruct (Nat.ltb_spec (tmp_size ctx) (length arr)) as [Hlt|Hge].
  - destruct (tmp_size_loop_returns (length arr) (Nat.max 8 (tmp_size ctx))
                (length arr)) as (n & -> & Hn & Hn1); try lia.
    cbn [bind]. unfold request. rewrite Halloc. cbn [bind set_tmp tmp].
    rewrite SortRecursive_code by exact Hn. cbn [bind].
    eexists. split; [reflexivity | ]. repeat split. now right.
  - cbn [bind]. destruct (Nat.le_gt_cases (length arr) 1) as [Hsmall|Hbig].
    + rewrite SortRecursive_small by lia. cbn [bind].
      rewrite sorted_by_code_small by exact Hsmall.
      exists ctx. now repeat split.
    + destruct Hinv as [[_ H0]|Hsome]; [lia | ]. rewrite Hsome.
      rewrite SortRecursive_code by exact Hge. cbn [bind].
      exists ctx. repeat split. now right.
Qed.

Lemma DoBuild_finish_code (alloc : allocator) (ctx : upb_UnknownField_Context)
    (arr : list upb_UnknownField) (cap : nat) (ptr : Z) (sorted : bool) :
  never_fails alloc -> tmp_inv ctx ->
  exists ctx',
    DoBuild_finish alloc ctx arr cap ptr sorted
    = Ret (finished arr cap sorted, ptr, ctx')
    /\ depth ctx' = depth ctx /\ ctx_end ctx' = ctx_end ctx /\ tmp_inv ctx'.
Proof.
  intros Halloc Hinv. unfold DoBuild_finish, request, finished.
  rewrite Halloc. cbn [negb]. destruct sorted; cbn [negb].
  - eexists. split; [reflexivity | ]. now repeat split.
  - destruct (Sort_code alloc (set_arena ctx (S (arena ctx))) arr cap Halloc Hinv)
      as (ctx' & -> & Hinv' & Hd & He).
    cbn [bind]. exists ctx'. now repeat split.
Qed.

Lemma DoBuild_loop_tag_code (fuel' : nat) (alloc : allocator) (buf : list byte)
    (ctx : upb_UnknownField_Context) (arr : list upb_UnknownField) (cap : nat)
    (p last_tag : Z) (sorted : bool) (t : list byte) (w : Z) :
  never_fails alloc -> at_offset buf p t -> is_tag t w = true ->
  w <> UPB_WIRE_TYPE_END_GROUP ->
  p + Z.of_nat (length t) <= ctx_end ctx ->
  DoBuild_loop (S fuel') alloc buf ctx arr cap p last_tag sorted
  = DoBuild_payload fuel' alloc buf (grow_ctx ctx (length arr) cap) arr
      (grow_cap (length arr) cap) (p + Z.of_nat (length t)) (varint_value t)
      (if varint_value t <? last_tag then false else sorted).
Proof.
  intros Halloc Hat Htag Hw Hlim.
  apply is_tag_inv in Htag as (Hv & Hmax & Hland).
  pose proof (is_varint_inv t Hv) as [_ Hlen].
  rewrite DoBuild_loop_unfold.
  destruct (Z.ltb_spec p (ctx_end ctx)) as [_|H]; [ | lia].
  rewrite (ParseVarint_at buf p (ctx_end ctx) t Hat Hv Hlim). cbn [bind].
  rewrite UPB_ASSERT_true by now apply Z.leb_le.
  cbn [bind]. rewrite Hland.
  destruct (Z.eqb_spec w UPB_WIRE_TYPE_END_GROUP) as [E|_]; [contradiction | ].
  unfold grow_ctx, grow_cap. destruct (length arr =? cap)%nat.
  - unfold upb_UnknownFields_Grow, request. rewrite Halloc. reflexivity.
  - reflexivity.
Qed.

Lemma grow_ctx_frame (ctx : upb_UnknownField_Context) (len cap : nat) :
  depth (grow_ctx ctx len cap) = depth ctx
  /\ ctx_end (grow_ctx ctx len cap) = ctx_end ctx
  /\ (tmp_inv ctx -> tmp_inv (grow_ctx ctx len cap)).
Proof. unfold grow_ctx. destruct (len =? cap)%nat; now repeat split. Qed.

(** One well-formed field: the field that is appended. *)
Lemma DoBuild_loop_field_code (fuel : nat) :
  builds fuel ->
  forall (alloc : allocator) (buf : list byte) (f : wire_field)
         (rest0 : list byte) (ctx : upb_UnknownField_Context)
         (arr : list upb_UnknownField) (cap : nat) (p last : Z) (sorted : bool),
    never_fails alloc -> tmp_inv ctx -> wire_ok f = true ->
    suffix_at buf p (wire_bytes f ++ rest0) ->
    ctx_end ctx = Z.of_nat (length buf) ->
    Z.of_nat (wire_depth f) < depth ctx ->
    (length (wire_bytes f ++ rest0) <= fuel)%nat ->
    exists ctx',
      DoBuild_loop (S fuel) alloc buf ctx arr cap p last sorted
      = DoBuild_loop fuel alloc buf ctx' (arr ++ [built_field f])
          (grow_cap (length arr) cap)
          (p + Z.of_nat (length (wire_bytes f))) (wire_tag f)
          (if wire_tag f <? last then false else sorted)
      /\ depth ctx' = depth ctx /\ ctx_end ctx' = ctx_end ctx /\ tmp_inv ctx'.
Proof.
  intros Hbuilds alloc buf f rest0 ctx arr cap p last sorted
    Halloc Hinv Hok Hs Hend Hdepth Hfuel.
  pose proof (suffix_at_bounds _ _ _ Hs) as [Hp0 Hpl].
  pose proof (grow_ctx_frame ctx (length arr) cap) as (Hd & He & Hti).
  specialize (Hti Hinv). set (ctx1 := grow_ctx ctx (length arr) cap) in *.
  destruct f as [t v|t raw|t len body|t body e|t raw];
    cbn [wire_ok wire_bytes wire_tag wire_depth built_field] in *;
    repeat match goal with
           | H : _ && _ = true |- _ => apply andb_prop in H as [? ?]
           end;
    rewrite <- ?app_assoc in Hs;
    repeat rewrite length_app in Hpl; repeat rewrite length_app in Hfuel;
    repeat rewrite length_app;
    pose proof (suffix_at_head _ _ _ _ Hs) as Ht;
    pose proof (suffix_at_tail _ _ _ _ Hs) as Hs1;
    match goal with
    | H : is_tag t ?w = true |- _ =>
        rewrite (DoBuild_loop_tag_code fuel alloc buf ctx arr cap p last sorted
                   t w Halloc Ht H ltac:(unfold_wire_types; lia) ltac:(lia));
        apply is_tag_inv in H as (Htv & _ & Hland)
    end;
    fold ctx1.
  - payload_case Hland.
    rewrite (ParseVarint_at buf _ (ctx_end ctx1) v (suffix_at_head _ _ _ _ Hs1))
      by (try assumption; lia).
    cbn [bind]. exists ctx1.
    rewrite Nat2Z.inj_add, Z.add_assoc. now repeat split.
  - payload_case Hland.
    match goal with H : (length raw =? 8)%nat = true |- _ =>
      apply Nat.eqb_eq in H; rename H into Hraw end.
    rewrite UPB_ASSERT_true by (apply Z.leb_le; lia).
    cbn [bind]. exists ctx1.
    rewrite <- Hraw at 1.
    rewrite (load_bytes_at buf _ raw (suffix_at_head _ _ _ _ Hs1)).
    rewrite Nat2Z.inj_add, Z.add_assoc, Hraw. now repeat split.
  - payload_case Hland.
    match goal with H : (varint_value len =? _) = true |- _ =>
      apply Z.eqb_eq in H; rename H into Hlen end.
    pose proof (suffix_at_tail _ _ _ _ Hs1) as Hs2.
    match goal with H : is_varint len = true |- _ =>
      pose proof (is_varint_inv _ H) as [_ Hll];
      rewrite (ParseVarint_at buf _ (ctx_end ctx1) len
                 (suffix_at_head _ _ _ _ Hs1) H) by lia
    end.
    cbn [bind]. rewrite UPB_ASSERT_true by (apply Z.leb_le; lia).
    cbn [bind]. exists ctx1.
    rewrite Hlen, Nat2Z.id.
    rewrite (load_bytes_at buf _ body (suffix_at_head _ _ _ _ Hs2)).
    rewrite !Nat2Z.inj_add, !Z.add_assoc. now repeat split.
  - payload_case Hland.
    assert (Hnest : Z.of_nat (nesting_depth body) < depth ctx1 - 1)
      by (unfold nesting_depth; lia).
    destruct (Z.eqb_spec (depth ctx1) INT_MIN) as [E|_];
      [unfold INT_MIN in E; lia | ].
    cbn [depth set_depth].
    destruct (Z.eqb_spec (depth ctx1 - 1) 0) as [E|_]; [lia | ].
    match goal with H : forallb wire_ok body = true |- _ => rename H into Hbody end.
    match goal with H : is_tag e _ = true |- _ => rename H into He4 end.
    assert (Hcl : closes (e ++ rest0) e)
      by (right; split; [exact He4 | now exists rest0]).
    assert (Hfuel' : (length (flat_map wire_bytes body ++ e ++ rest0) < fuel)%nat).
    { repeat rewrite length_app. pose proof (is_varint_inv _ Htv). lia. }
    destruct (Hbuilds alloc buf body (e ++ rest0) e
                (set_depth ctx1 (depth ctx1 - 1)) [] 0%nat
                (p + Z.of_nat (length t)) 0 true Halloc
                (tmp_inv_kept _ _ eq_refl eq_refl Hti) Hbody Hs1
                ltac:(cbn [ctx_end set_depth]; congruence) Hcl Hnest Hfuel')
      as (ctx2 & -> & Hd2 & He2 & Hinv2).
    cbn [bind app length]. exists (set_depth ctx2 (depth ctx2 + 1)).
    rewrite !Nat2Z.inj_add, !Z.add_assoc.
    split; [reflexivity | ]. cbn [depth set_depth ctx_end] in *.
    repeat split; [lia | congruence | exact Hinv2].
  - payload_case Hland.
    match goal with H : (length raw =? 4)%nat = true |- _ =>
      apply Nat.eqb_eq in H; rename H into Hraw end.
    rewrite UPB_ASSERT_true by (apply Z.leb_le; lia).
    cbn [bind]. exists ctx1.
    rewrite <- Hraw at 1.
    rewrite (load_bytes_at buf _ raw (suffix_at_head _ _ _ _ Hs1)).
    rewrite Nat2Z.inj_add, Z.add_assoc, Hraw. now repeat split.
Qed.

Lemma DoBuild_loop_builds (fuel : nat) : builds fuel.
Proof.
  induction fuel as [|fuel IH]; intros alloc buf fs rest e ctx arr cap p last
    sorted Halloc Hinv Hok Hs Hend Hcl Hdepth Hfuel; [lia | ].
  pose proof (suffix_at_bounds _ _ _ Hs) as [Hp0 Hpl].
  destruct fs as [|f fs].
  - cbn [flat_map app length map grown seen_sorted] in *.
    rewrite Z.add_0_r, app_nil_r.
    destruct Hcl as [[-> ->]|(He & rest' & ->)].
    + rewrite DoBuild_loop_unfold.
      destruct (Z.ltb_spec p (ctx_end ctx)) as [H|_];
        [cbn [length] in Hpl; lia | ].
      cbn [length]. rewrite Z.add_0_r.
      now apply DoBuild_finish_code.
    + apply is_tag_inv in He as (Hv & Hmax & Hland).
      pose proof (is_varint_inv e Hv) as [_ Hlen].
      rewrite length_app in Hpl.
      rewrite DoBuild_loop_unfold.
      destruct (Z.ltb_spec p (ctx_end ctx)) as [_|H]; [ | lia].
      rewrite (ParseVarint_at buf p (ctx_end ctx) e (suffix_at_head _ _ _ _ Hs) Hv)
        by lia.
      cbn [bind]. rewrite UPB_ASSERT_true by now apply Z.leb_le.
      cbn [bind]. rewrite Hland, Z.eqb_refl.
      now apply DoBuild_finish_code.
  - cbn [flat_map forallb map length grown seen_sorted] in *.
    apply andb_prop in Hok as [Hf Hok].
    rewrite <- app_assoc in Hs, Hfuel.
    rewrite nesting_depth_cons in Hdepth.
    destruct (DoBuild_loop_field_code fuel IH alloc buf f
                (flat_map wire_bytes fs ++ rest) ctx arr cap p last sorted
                Halloc Hinv Hf Hs Hend ltac:(lia) ltac:(lia))
      as (ctx' & -> & Hd & He & Hinv').
    pose proof (wire_bytes_nonempty f Hf) as Hf1.
    destruct (IH alloc buf fs rest e ctx' (arr ++ [built_field f])
                (grow_cap (length arr) cap)
                (p + Z.of_nat (length (wire_bytes f))) (wire_tag f)
                (if wire_tag f <? last then false else sorted)
                Halloc Hinv' Hok (suffix_at_tail _ _ _ _ Hs)
                ltac:(congruence) Hcl ltac:(lia))
      as (ctx2 & -> & Hd2 & He2 & Hinv2).
    { rewrite length_app in Hfuel. lia. }
    exists ctx2. rewrite <- app_assoc. cbn [app].
    rewrite !length_app, Nat2Z.inj_add, !Z.add_assoc. cbn [length].
    rewrite Nat.add_1_r.
    split; [reflexivity | ]. repeat split; [congruence | congruence | exact Hinv2].
Qed.

Lemma Build_built (alloc : allocator) (ctx : upb_UnknownField_Context)
    (buf : list byte) (fs : list wire_field) :
  never_fails alloc -> tmp_inv ctx -> encodes buf fs ->
  Z.of_nat (nesting_depth fs) < depth ctx ->
  exists ctx',
    upb_UnknownFields_Build alloc ctx buf = Ret (built_set fs, ctx')
    /\ depth ctx' = depth ctx /\ tmp_inv ctx'.
Proof.
  intros Halloc Hinv Henc Hdepth.
  unfold upb_UnknownFields_Build, upb_UnknownFields_DoBuild.
  destruct (DoBuild_loop_builds (S (length buf)) alloc buf fs [] []
              (set_end ctx (Z.of_nat (length buf))) [] 0%nat 0 0 true Halloc
              (tmp_inv_kept _ _ eq_refl eq_refl Hinv) (proj1 Henc)
              (encodes_suffix _ _ Henc) eq_refl
              (or_introl (conj eq_refl eq_refl)) Hdepth)
    as (ctx' & -> & Hd & He & Hinv').
  { destruct Henc as [_ ->]. rewrite app_nil_r. lia. }
  cbn [bind]. rewrite UPB_ASSERT_true.
  - cbn [bind app length]. exists ctx'. now repeat split.
  - apply Z.eqb_eq. rewrite He. cbn [ctx_end set_end length].
    destruct Henc as [_ ->]. lia.
Qed.

(** ** The byte comparison in front of the parser *)

Lemma compare_fast_path (alloc : allocator) (buf1 buf2 : list byte) (d : Z) :
  buf1 <> [] -> firstn (length buf1) buf2 = buf1 ->
  upb_Message_UnknownFieldsAreEqual alloc buf1 buf2 d
  = Ret kUpb_UnknownCompareResult_Equal.
Proof.
  intros Hne Hpre. unfold upb_Message_UnknownFieldsAreEqual.
  assert (E : memcmp buf1 buf2 (length buf1) = Ret 0).
  { rewrite <- (firstn_skipn (length buf1) buf2), Hpre. apply memcmp_prefix. }
  rewrite E.
  destruct buf1 as [|a buf1]; [contradiction | ].
  destruct buf2 as [|b buf2]; [discriminate | reflexivity].
Qed.

(** ** The result on well-formed buffers *)

Lemma tag_built_field (f : wire_field) : tag (built_field f) = wire_tag f.
Proof. now destruct f. Qed.

Lemma sorted_by_code_length (l : list upb_UnknownField) :
  length (sorted_by_code l) = length l.
Proof.
  unfold sorted_by_code.
  destruct (upb_UnknownFields_SortRecursive (length l) l 0 (length l)
              (Some (length l))) as [r| | |] eqn:E; try reflexivity.
  now apply SortRecursive_length in E.
Qed.

Lemma sorted_by_code_ascending (l : list upb_UnknownField) :
  ascending l -> sorted_by_code l = l.
Proof.
  intros H. unfold sorted_by_code.
  rewrite SortRecursive_ascending; try lia; [reflexivity | ].
  now rewrite Nat.sub_0_r, skipn_O, firstn_all.
Qed.

Lemma finished_size (arr : list upb_UnknownField) (cap : nat) (sorted : bool) :
  size (finished arr cap sorted) = length arr.
Proof.
  unfold finished, size. cbn [fields].
  destruct sorted; [reflexivity | apply sorted_by_code_length].
Qed.

Lemma finished_ascending (arr : list upb_UnknownField) (cap : nat)
    (sorted : bool) :
  ascending arr -> finished arr cap sorted = UnknownFields arr cap.
Proof.
  intros H. unfold finished.
  destruct sorted; [reflexivity | now rewrite sorted_by_code_ascending].
Qed.

(** Two descriptions of one buffer give one tree. *)
Lemma built_same_buffer (buf : list byte) (fs1 fs2 : list wire_field) :
  encodes buf fs1 -> encodes buf fs2 -> built_set fs1 = built_set fs2.
Proof.
  intros H1 H2.
  set (d := Z.of_nat (Nat.max (nesting_depth fs1) (nesting_depth fs2)) + 1).
  assert (Hinv : tmp_inv (mkContext 0 0 None 0 d)) by (left; now split).
  assert (Hok : never_fails alloc_ok) by (intros n; reflexivity).
  destruct (Build_built alloc_ok (mkContext 0 0 None 0 d) buf fs1 Hok Hinv H1)
    as (c1 & E1 & _); [cbn [depth]; lia | ].
  destruct (Build_built alloc_ok (mkContext 0 0 None 0 d) buf fs2 Hok Hinv H2)
    as (c2 & E2 & _); [cbn [depth]; lia | ].
  congruence.
Qed.

(** Behind the byte comparison: the two trees are built and compared. *)
Lemma compare_built (alloc : allocator) (buf1 buf2 : list byte)
    (fs1 fs2 : list wire_field) (max_depth c : Z) :
  never_fails alloc -> encodes buf1 fs1 -> encodes buf2 fs2 ->
  Z.of_nat (nesting_depth fs1) < max_depth ->
  Z.of_nat (nesting_depth fs2) < max_depth ->
  memcmp buf1 buf2 (length buf1) = Ret c -> c <> 0 ->
  exists b : bool,
    upb_Message_UnknownFieldsAreEqual alloc buf1 buf2 max_depth
    = Ret (if b then kUpb_UnknownCompareResult_Equal
           else kUpb_UnknownCompareResult_NotEqual)
    /\ (b = true <-> erase (built_set fs1) = erase (built_set fs2)).
Proof.
  intros Halloc He1 He2 Hd1 Hd2 Hc Hc0.
  destruct (memcmp_differs buf1 buf2 c Hc Hc0) as [Hn1 Hn2].
  rewrite (compare_slow_path alloc buf1 buf2 max_depth c Halloc Hn1 Hn2 Hc Hc0).
  destruct (Build_built alloc (mkContext 0 1 None 0 max_depth) buf1 fs1 Halloc
              ltac:(left; now split) He1 Hd1) as (ctx1 & E1 & Hdep1 & Hinv1).
  destruct (Build_built alloc ctx1 buf2 fs2 Halloc Hinv1 He2
              ltac:(rewrite Hdep1; exact Hd2)) as (ctx2 & E2 & _ & _).
  pose proof (Build_typed _ _ _ _ _ E1) as Ht1.
  pose proof (Build_typed _ _ _ _ _ E2) as Ht2.
  rewrite E1. cbn [bind]. rewrite E2. cbn [bind].
  destruct (IsEqual_total _ Ht1 _ Ht2) as [b Hb]. rewrite Hb. cbn [bind].
  exists b. split; [now destruct b | ].
  rewrite <- (IsEqual_erase _ Ht1 _ Ht2), Hb.
  split; [now intros -> | now intros [= ->]].
Qed.

(** On buffers of one length the byte comparison answers Equal for the same
    buffer only, and the result is that of the trees. *)
Lemma compare_same_length (alloc : allocator) (buf1 buf2 : list byte)
    (fs1 fs2 : list wire_field) (max_depth : Z) :
  never_fails alloc -> encodes buf1 fs1 -> encodes buf2 fs2 ->
  Z.of_nat (nesting_depth fs1) < max_depth ->
  Z.of_nat (nesting_depth fs2) < max_depth ->
  length buf1 = length buf2 ->
  exists b : bool,
    upb_Message_UnknownFieldsAreEqual alloc buf1 buf2 max_depth
    = Ret (if b then kUpb_UnknownCompareResult_Equal
           else kUpb_UnknownCompareResult_NotEqual)
    /\ (b = true <-> erase (built_set fs1) = erase (built_set fs2)).
Proof.
  intros Halloc He1 He2 Hd1 Hd2 Hlen.
  destruct (memcmp_spec buf1 buf2)
    as [[_ H2]|[(_ & H3)|(c & H1 & H2 & _ & _)]].
  - rewrite Hlen, firstn_all in H2. subst buf2.
    exists true. split; [apply compare_same_buffer | ].
    split; [intros _ | reflexivity].
    now rewrite (built_same_buffer buf1 fs1 fs2).
  - lia.
  - now apply (compare_built alloc buf1 buf2 fs1 fs2 max_depth c).
Qed.

(** ** When the merge is the stable merge, continued *)

Lemma merged_outlast (run2 : list upb_UnknownField) (z : upb_UnknownField)
    (l1 : list upb_UnknownField) :
  forall l2, Forall (fun b => tag b < tag z) l2 ->
             merged run2 (l1 ++ [z]) l2 = stable_merge (l1 ++ [z]) l2.
Proof.
  induction l1 as [|a l1 IH]; intros l2 H.
  - cbn [app]. induction l2 as [|b l2 IH2]; [reflexivity | ].
    rewrite merged_cons, stable_merge_cons.
    apply Forall_cons_iff in H as [Hb H].
    destruct (Z.leb_spec (tag z) (tag b)) as [Hle|_]; [lia | ].
    f_equal. now apply IH2.
  - cbn [app]. induction l2 as [|b l2 IH2].
    + rewrite merged_nil_r by discriminate. now rewrite stable_merge_nil_r.
    + rewrite merged_cons, stable_merge_cons.
      destruct (tag a <=? tag b).
      * f_equal. now apply IH.
      * f_equal. apply IH2. now apply Forall_cons_iff in H as [_ H].
Qed.

Lemma merged_short (run2 l1 : list upb_UnknownField) :
  (length run2 <= 1)%nat -> merged run2 l1 run2 = stable_merge l1 run2.
Proof.
  intros H. destruct run2 as [|b [|b' run2]]; [ | apply merged_single | ].
  - rewrite stable_merge_nil_r. destruct l1; [reflexivity | ].
    now rewrite merged_nil_r.
  - cbn [length] in H. lia.
Qed.

(** ** Two fields *)

Lemma wire_tag_nonneg (f : wire_field) : 0 <= wire_tag f.
Proof. destruct f; cbn [wire_tag]; apply wrap64_range. Qed.

Lemma encodes_two (f g : wire_field) :
  wire_ok f = true -> wire_ok g = true ->
  encodes (wire_bytes f ++ wire_bytes g) [f; g].
Proof.
  intros Hf Hg. split.
  - cbn [forallb]. now rewrite Hf, Hg.
  - cbn [flat_map]. now rewrite app_nil_r.
Qed.

Lemma nesting_depth_two (f g : wire_field) :
  nesting_depth [f; g] = Nat.max (wire_depth f) (wire_depth g).
Proof. unfold nesting_depth. cbn [map list_max fold_right]. lia. Qed.

(** The set built from two fields: the second field comes first when its
    tag is the smaller one. *)
Lemma built_set_two (f g : wire_field) :
  built_set [f; g]
  = UnknownFields (if wire_tag g <? wire_tag f
                   then [built_field g; built_field f]
                   else [built_field f; built_field g]) 4.
Proof.
  unfold built_set, finished. cbn [map length grown seen_sorted].
  pose proof (wire_tag_nonneg f) as Hf.
  destruct (Z.ltb_spec (wire_tag f) 0) as [H|_]; [lia | ].
  change (grown 2 (grow_cap 1 (grow_cap 0 0)) 0) with 4%nat.
  destruct (Z.ltb_spec (wire_tag g) (wire_tag f)) as [Hlt|Hge]; [ | reflexivity].
  unfold sorted_by_code. cbn [length].
  rewrite SortRecursive_two by lia. rewrite !tag_built_field.
  destruct (Z.leb_spec (wire_tag f) (wire_tag g)) as [Hle|_]; [lia | reflexivity].
Qed.

Lemma length_two (f g : wire_field) :
  length (wire_bytes f ++ wire_bytes g) = length (wire_bytes g ++ wire_bytes f).
Proof. rewrite !length_app. lia. Qed.

(** ** An end-group tag without a group *)

Lemma Build_end_group (alloc : allocator) (ctx : upb_UnknownField_Context)
    (fs : list wire_field) (e rest : list byte) :
  never_fails alloc -> tmp_inv ctx -> forallb wire_ok fs = true ->
  is_tag e UPB_WIRE_TYPE_END_GROUP = true ->
  Z.of_nat (nesting_depth fs) < depth ctx ->
  exists ctx',
    upb_UnknownFields_Build alloc ctx (flat_map wire_bytes fs ++ e ++ rest)
    = (_ <- UPB_ASSERT (Nat.eqb (length rest) 0) ;; Ret (built_set fs, ctx')).
Proof.
  intros Halloc Hinv Hok He Hdepth.
  unfold upb_UnknownFields_Build, upb_UnknownFields_DoBuild.
  set (buf := flat_map wire_bytes fs ++ e ++ rest).
  destruct (DoBuild_loop_builds (S (length buf)) alloc buf fs (e ++ rest) e
              (set_end ctx (Z.of_nat (length buf))) [] 0%nat 0 0 true Halloc
              (tmp_inv_kept _ _ eq_refl eq_refl Hinv) Hok
              ltac:(now exists []) eq_refl
              ltac:(right; split; [exact He | now exists rest]) Hdepth
              ltac:(fold buf; lia))
    as (ctx' & -> & Hd & Hend & Hinv').
  cbn [bind app length]. exists ctx'. rewrite Hend. cbn [ctx_end set_end].
  unfold buf. rewrite !length_app.
  destruct rest as [|r rest]; cbn [length Nat.eqb].
  - rewrite !UPB_ASSERT_true; [reflexivity | reflexivity | apply Z.eqb_eq; lia].
  - destruct (Z.eqb_spec (0 + Z.of_nat (length (flat_map wire_bytes fs))
                            + Z.of_nat (length e))
                (Z.of_nat (length (flat_map wire_bytes fs)
                           + (length e + S (length rest))))) as [E|_];
      [lia | reflexivity].
Qed.

(** ** The fields after the sort *)

Lemma Sort_elements (alloc : allocator) (ctx ctx' : upb_UnknownField_Context)
    (uf uf' : upb_UnknownFields) :
  upb_UnknownFields_Sort alloc ctx uf = Ret (ctx', uf') ->
  Forall (fun f => In f (fields uf)) (fields uf').
Proof.
  unfold upb_UnknownFields_Sort. intros H.
  apply bind_Ret_inv in H as (ctx1 & _ & H).
  apply bind_Ret_inv in H as (arr & Hs & H).
  assert (E : uf' = UnknownFields arr (capacity uf)) by congruence.
  rewrite E. cbn [fields].
  apply (SortRecursive_Forall (fun f => In f (fields uf))) in Hs; [exact Hs | ].
  now apply Forall_forall.
Qed.

(** ** The builder, for every input *)

(** X4. Whenever a call of the builder returns, whatever the bytes and the
    allocator: the set has at most [capacity] fields, the capacity is at
    most [UPB_MAX(4, 2 * size)], the cursor handed back is not before the
    cursor passed in and not past the end of the buffer (or the cursor
    passed in, if that was past the end), and the scratch size has not gone
    down. *)
Theorem DoBuild_bounds (fuel : nat) (alloc : allocator) (buf : list byte)
    (ctx ctx' : upb_UnknownField_Context) (p q : Z) (uf : upb_UnknownFields) :
  upb_UnknownFields_DoBuild fuel alloc buf ctx p = Ret (uf, q, ctx') ->
  (size uf <= capacity uf)%nat
  /\ (capacity uf <= Nat.max 4 (2 * size uf))%nat
  /\ p <= q <= Z.max p (ctx_end ctx)
  /\ (tmp_size ctx <= tmp_size ctx')%nat.
Proof.
  unfold upb_UnknownFields_DoBuild. intros H.
  pose proof (DoBuild_loop_cursor _ _ _ _ _ _ _ _ _ _ _ _ H) as Hc.
  apply DoBuild_loop_post in H as (H1 & _ & H3 & H4 & H5); [ | cbn [length]; lia].
  cbn [length] in H5. repeat split; try assumption. apply H5. lia.
Qed.

Lemma DoBuild_bounds_witness :
  (1 <= 4)%nat /\ (4 <= Nat.max 4 (2 * 1))%nat /\ 0 <= 2 <= Z.max 0 2
  /\ (0 <= 0)%nat.
Proof.
  apply (DoBuild_bounds 3 alloc_ok [x08; x01] (mkContext 2 1 None 0 1)
           (mkContext 2 3 None 0 1) 0 2
           (UnknownFields [UnknownField 8 (data_varint 1)] 4)).
  reflexivity.
Defined.

(** ** The sort *)

(** X5. Whenever the sort returns: the set has as many fields as before
    and the same capacity, every field of the result is a field of the
    input, and the scratch size has not gone down and is at least the size
    of the set. *)
Theorem Sort_keeps (alloc : allocator) (ctx ctx' : upb_UnknownField_Context)
    (uf uf' : upb_UnknownFields) :
  upb_UnknownFields_Sort alloc ctx uf = Ret (ctx', uf') ->
  size uf' = size uf /\ capacity uf' = capacity uf
  /\ Forall (fun f => In f (fields uf)) (fields uf')
  /\ (tmp_size ctx <= tmp_size ctx')%nat /\ (size uf <= tmp_size ctx')%nat.
Proof.
  intros H. pose proof (Sort_elements _ _ _ _ _ H) as He.
  apply Sort_post in H as (H1 & H2 & H3 & H4). now repeat split.
Qed.

Lemma Sort_keeps_witness :
  let a := UnknownField 40 (data_varint 1) in
  let b := UnknownField 8 (data_varint 2) in
  2%nat = 2%nat /\ 4%nat = 4%nat
  /\ Forall (fun f => In f [a; b]) [b; a]
  /\ (0 <= 8)%nat /\ (2 <= 8)%nat.
Proof.
  cbv zeta.
  apply (Sort_keeps alloc_ok (mkContext 0 0 None 0 1)
           (mkContext 0 1 (Some 8%nat) 8 1)
           (UnknownFields [UnknownField 40 (data_varint 1);
                           UnknownField 8 (data_varint 2)] 4)
           (UnknownFields [UnknownField 8 (data_varint 2);
                           UnknownField 40 (data_varint 1)] 4)).
  reflexivity.
Defined.

(** ** Where the two error results come from *)

(** X6. OutOfMemory is returned only after an allocation request that
    failed: with an allocator that never fails, no input and no budget make
    the comparison return OutOfMemory. *)
Theorem OutOfMemory_needs_failed_request (alloc : allocator)
    (buf1 buf2 : list byte) (max_depth : Z) :
  never_fails alloc ->
  upb_Message_UnknownFieldsAreEqual alloc buf1 buf2 max_depth
  <> Ret kUpb_UnknownCompareResult_OutOfMemory.
Proof.
  intros Halloc H.
  apply compare_result_inv in H
    as [H|[H|[[_ [n Hn]]|[H _]]]]; try discriminate H.
  rewrite Halloc in Hn. discriminate Hn.
Qed.

Lemma OutOfMemory_needs_failed_request_witness :
  upb_Message_UnknownFieldsAreEqual alloc_ok [x10; x09; x08; x05]
    [x08; x05; x10; x09] 1
  <> Ret kUpb_UnknownCompareResult_OutOfMemory.
Proof.
  apply (OutOfMemory_needs_failed_request alloc_ok).
  intros n. reflexivity.
Defined.

(** X7. MaxDepthExceeded is returned only for a budget of at least 1: with
    [max_depth <= 0] no input and no allocator make the comparison return
    MaxDepthExceeded, however deep the groups are nested. *)
Theorem MaxDepthExceeded_needs_positive_budget (alloc : allocator)
    (buf1 buf2 : list byte) (max_depth : Z) :
  max_depth <= 0 ->
  upb_Message_UnknownFieldsAreEqual alloc buf1 buf2 max_depth
  <> Ret kUpb_UnknownCompareResult_MaxDepthExceeded.
Proof.
  intros Hd H.
  apply compare_result_inv in H
    as [H|[H|[[H _]|[_ H]]]]; try discriminate H.
  lia.
Qed.

Lemma MaxDepthExceeded_needs_positive_budget_witness :
  upb_Message_UnknownFieldsAreEqual alloc_ok [x0b; x0b; x0c; x0c]
    [x13; x13; x14; x14] 0
  <> Ret kUpb_UnknownCompareResult_MaxDepthExceeded.
Proof.
  apply (MaxDepthExceeded_needs_positive_budget alloc_ok). lia.
Defined.

(** ** The merge *)

(** X8. What the merge writes.  For [start <= mid <= end] inside the array
    and a scratch block with room for the range, the merge returns, the
    array outside the range is as it was, and the range holds [merged] of
    the two runs: the smaller head first and the head of the first run on a
    tie; what is left of the first run once the second one is used up; but,
    once the first run is used up, the first elements of the second run
    again in place of the elements that are left of it. *)
Theorem Merge_result (arr : list upb_UnknownField) (start mid end_ room : nat) :
  (start <= mid)%nat -> (mid <= end_)%nat -> (end_ <= length arr)%nat ->
  (end_ - start <= room)%nat ->
  upb_UnknownFields_Merge arr start mid end_ (Some room)
  = Ret (firstn start arr
           ++ merged (firstn (end_ - mid) (skipn mid arr))
                (firstn (mid - start) (skipn start arr))
                (firstn (end_ - mid) (skipn mid arr))
           ++ skipn end_ arr).
Proof. apply Merge_merged. Qed.

Lemma Merge_result_witness :
  let f5 := UnknownField 40 (data_varint 1) in
  let f1 := UnknownField 8 (data_varint 2) in
  let f9 := UnknownField 72 (data_varint 3) in
  upb_UnknownFields_Merge [f5; f1; f9] 0 1 3 (Some 3%nat) = Ret [f1; f5; f1].
Proof.
  cbv zeta.
  apply (Merge_result [UnknownField 40 (data_varint 1);
                       UnknownField 8 (data_varint 2);
                       UnknownField 72 (data_varint 3)] 0 1 3 3);
    cbn [length]; lia.
Defined.

(** X9. When the merge is right.  Under the conditions of X8 the range
    holds the stable merge of the two runs in each of these cases: the
    second run has at most one element; no tag of the first run is above
    the tag of the first element of the second run; the tag of the last
    element of the first run is above every tag of the second run. *)
Theorem Merge_stable (arr run1 run2 : list upb_UnknownField)
    (start mid end_ room : nat) :
  (start <= mid)%nat -> (mid <= end_)%nat -> (end_ <= length arr)%nat ->
  (end_ - start <= room)%nat ->
  run1 = firstn (mid - start) (skipn start arr) ->
  run2 = firstn (end_ - mid) (skipn mid arr) ->
  (length run2 <= 1)%nat
  \/ Forall (fun a => match run2 with [] => True | b :: _ => tag a <= tag b end)
       run1
  \/ (exists l z, run1 = l ++ [z] /\ Forall (fun b => tag b < tag z) run2) ->
  upb_UnknownFields_Merge arr start mid end_ (Some room)
  = Ret (firstn start arr ++ stable_merge run1 run2 ++ skipn end_ arr).
Proof.
  intros H1 H2 H3 H4 -> -> Hcase. rewrite Merge_merged by assumption.
  do 3 f_equal.
  destruct Hcase as [Hshort|[Horder|(l & z & -> & Hlast)]].
  - now apply merged_short.
  - rewrite merged_in_order by exact Horder.
    now rewrite stable_merge_in_order.
  - now apply merged_outlast.
Qed.

Lemma Merge_stable_witness :
  let f1 := UnknownField 8 (data_varint 2) in
  let f5 := UnknownField 40 (data_varint 1) in
  let f9 := UnknownField 72 (data_varint 3) in
  upb_UnknownFields_Merge [f1; f9; f1; f5] 0 2 4 (Some 4%nat)
  = Ret ([] ++ stable_merge [f1; f9] [f1; f5] ++ []).
Proof.
  cbv zeta.
  apply (Merge_stable [UnknownField 8 (data_varint 2);
                       UnknownField 72 (data_varint 3);
                       UnknownField 8 (data_varint 2);
                       UnknownField 40 (data_varint 1)]
           [UnknownField 8 (data_varint 2); UnknownField 72 (data_varint 3)]
           [UnknownField 8 (data_varint 2); UnknownField 40 (data_varint 1)]
           0 2 4 4); cbn [length]; try lia; try reflexivity.
  right; right.
  exists [UnknownField 8 (data_varint 2)], (UnknownField 72 (data_varint 3)).
  split; [reflexivity | ].
  repeat constructor.
Defined.

(** X10. A range of the array whose tags do not decrease comes out of the
    recursive sort as it went in (the fuel of the embedding being at least
    the length of the range, as it is in [upb_UnknownFields_Sort]). *)
Theorem SortRecursive_sorted_unchanged (fuel : nat)
    (arr : list upb_UnknownField) (start end_ room : nat) :
  (start <= end_)%nat -> (end_ <= length arr)%nat ->
  (end_ - start <= room)%nat -> (end_ - start <= fuel)%nat ->
  ascending (firstn (end_ - start) (skipn start arr)) ->
  upb_UnknownFields_SortRecursive fuel arr start end_ (Some room) = Ret arr.
Proof. apply SortRecursive_ascending. Qed.

Lemma SortRecursive_sorted_unchanged_witness :
  let f1 := UnknownField 8 (data_varint 2) in
  let f5 := UnknownField 40 (data_varint 1) in
  let f9 := UnknownField 72 (data_varint 3) in
  upb_UnknownFields_SortRecursive 3 [f9; f1; f5; f5] 1 4 (Some 8%nat)
  = Ret [f9; f1; f5; f5].
Proof.
  cbv zeta.
  apply (SortRecursive_sorted_unchanged 3
           [UnknownField 72 (data_varint 3); UnknownField 8 (data_varint 2);
            UnknownField 40 (data_varint 1); UnknownField 40 (data_varint 1)]
           1 4 8); cbn [length]; try lia.
  cbn. lia.
Defined.

(** ** The comparator *)

(** X11. On two sets whose payloads fit the wire types of their tags, the
    comparator returns, and it returns true exactly when the two sets are
    the same tree once the capacities, which it does not read, are set
    aside. *)
Theorem IsEqual_decides_equality (uf1 uf2 : upb_UnknownFields) :
  set_typed uf1 = true -> set_typed uf2 = true ->
  exists b, upb_UnknownFields_IsEqual uf1 uf2 = Ret b
            /\ (b = true <-> erase uf1 = erase uf2).
Proof.
  intros H1 H2. destruct (IsEqual_total uf1 H1 uf2 H2) as [b Hb].
  exists b. split; [exact Hb | ].
  rewrite <- (IsEqual_erase uf1 H1 uf2 H2), Hb.
  split; [now intros -> | now intros [= ->]].
Qed.

Lemma IsEqual_decides_equality_witness :
  exists b,
    upb_UnknownFields_IsEqual
      (UnknownFields [UnknownField 11 (data_group (UnknownFields [] 0))] 4)
      (UnknownFields [UnknownField 11 (data_group (UnknownFields [] 4))] 8)
    = Ret b
    /\ (b = true <->
        erase (UnknownFields [UnknownField 11 (data_group (UnknownFields [] 0))] 4)
        = erase (UnknownFields [UnknownField 11 (data_group (UnknownFields [] 4))] 8)).
Proof.
  apply (IsEqual_decides_equality
           (UnknownFields [UnknownField 11 (data_group (UnknownFields [] 0))] 4)
           (UnknownFields [UnknownField 11 (data_group (UnknownFields [] 4))] 8));
    reflexivity.
Defined.

(** X12. On such sets the comparator is an equivalence: a set is equal to
    itself, the result does not depend on the order of the two arguments,
    and two sets equal to a third one are equal. *)
Theorem IsEqual_equivalence (uf1 uf2 uf3 : upb_UnknownFields) :
  set_typed uf1 = true -> set_typed uf2 = true -> set_typed uf3 = true ->
  upb_UnknownFields_IsEqual uf1 uf1 = Ret true
  /\ upb_UnknownFields_IsEqual uf1 uf2 = upb_UnknownFields_IsEqual uf2 uf1
  /\ (upb_UnknownFields_IsEqual uf1 uf2 = Ret true ->
      upb_UnknownFields_IsEqual uf2 uf3 = Ret true ->
      upb_UnknownFields_IsEqual uf1 uf3 = Ret true).
Proof.
  intros H1 H2 H3. split; [ | split].
  - now apply IsEqual_erase.
  - destruct (IsEqual_total uf1 H1 uf2 H2) as [b Hb].
    destruct (IsEqual_total uf2 H2 uf1 H1) as [b' Hb'].
    pose proof (IsEqual_erase uf1 H1 uf2 H2) as I.
    pose proof (IsEqual_erase uf2 H2 uf1 H1) as I'.
    rewrite Hb in *. rewrite Hb' in *.
    destruct b, b'; try reflexivity.
    + destruct I as [I _]. specialize (I eq_refl).
      destruct I' as [_ I']. now rewrite I'.
    + destruct I' as [I' _]. specialize (I' eq_refl).
      destruct I as [_ I]. now rewrite I.
  - intros E12 E23.
    apply (IsEqual_erase uf1 H1 uf2 H2) in E12.
    apply (IsEqual_erase uf2 H2 uf3 H3) in E23.
    apply (IsEqual_erase uf1 H1 uf3 H3). congruence.
Qed.

Lemma IsEqual_equivalence_witness :
  let a := UnknownFields [UnknownField 8 (data_varint 1)] 4 in
  let b := UnknownFields [UnknownField 8 (data_varint 1)] 8 in
  let c := UnknownFields [UnknownField 8 (data_varint 2)] 4 in
  upb_UnknownFields_IsEqual a a = Ret true
  /\ upb_UnknownFields_IsEqual a b = upb_UnknownFields_IsEqual b a
  /\ (upb_UnknownFields_IsEqual a b = Ret true ->
      upb_UnknownFields_IsEqual b c = Ret true ->
      upb_UnknownFields_IsEqual a c = Ret true).
Proof.
  cbv zeta.
  apply (IsEqual_equivalence
           (UnknownFields [UnknownField 8 (data_varint 1)] 4)
           (UnknownFields [UnknownField 8 (data_varint 1)] 8)
           (UnknownFields [UnknownField 8 (data_varint 2)] 4)); reflexivity.
Defined.

(** ** The builder on well-formed buffers *)

(** X13. The tree of a well-formed buffer.  Run on the encoding of the
    fields [fs] with a budget above their nesting depth and an allocator
    that does not fail, the builder returns [built_set fs] and the budget as
    it was: one field for each field of the buffer, with the decoded tag and
    the payload of its wire type, a group holding the set built from its
    body; the fields stand in the order of the buffer when the tags seen by
    the loop never went down, and otherwise as the sort of the code leaves
    them.  In particular the set has as many fields as the buffer, and a
    buffer whose tags do not decrease keeps its order. *)
Theorem Build_returns_tree (alloc : allocator) (ctx : upb_UnknownField_Context)
    (buf : list byte) (fs : list wire_field) :
  never_fails alloc -> tmp_inv ctx -> encodes buf fs ->
  Z.of_nat (nesting_depth fs) < depth ctx ->
  (exists ctx',
     upb_UnknownFields_Build alloc ctx buf = Ret (built_set fs, ctx')
     /\ depth ctx' = depth ctx)
  /\ size (built_set fs) = length fs
  /\ (ascending (map built_field fs) ->
      fields (built_set fs) = map built_field fs).
Proof.
  intros Halloc Hinv Henc Hdepth. split; [ | split].
  - destruct (Build_built alloc ctx buf fs Halloc Hinv Henc Hdepth)
      as (ctx' & E & Hd & _).
    now exists ctx'.
  - unfold built_set. now rewrite finished_size, length_map.
  - intros Hasc. unfold built_set. now rewrite finished_ascending.
Qed.

Lemma Build_returns_tree_witness :
  let fs := [W_varint [x28] [x01];
             W_group [x0b] [W_varint [x10] [x09]; W_varint [x08] [x05]] [x0c]] in
  (exists ctx',
     upb_UnknownFields_Build alloc_ok (mkContext 0 1 None 0 2)
       [x28; x01; x0b; x10; x09; x08; x05; x0c]
     = Ret (built_set fs, ctx')
     /\ depth ctx' = 2)
  /\ size (built_set fs) = 2%nat
  /\ (ascending (map built_field fs) ->
      fields (built_set fs) = map built_field fs).
Proof.
  cbv zeta.
  apply (Build_returns_tree alloc_ok (mkContext 0 1 None 0 2)
           [x28; x01; x0b; x10; x09; x08; x05; x0c]
           [W_varint [x28] [x01];
            W_group [x0b] [W_varint [x10] [x09]; W_varint [x08] [x05]] [x0c]]).
  - intros n. reflexivity.
  - left. split; reflexivity.
  - split; reflexivity.
  - vm_compute. reflexivity.
Defined.

(** X14. An end-group tag that closes no group.  After well-formed fields,
    an end-group tag at the very end of the buffer is accepted and left out
    of the tree: the builder returns the tree of the fields before it.
    When bytes follow the tag, the loop has stopped before the end of the
    buffer and the assertion of [upb_UnknownFields_Build] fails. *)
Theorem Build_unmatched_end_group (alloc : allocator)
    (ctx : upb_UnknownField_Context) (fs : list wire_field)
    (e rest : list byte) :
  never_fails alloc -> tmp_inv ctx -> forallb wire_ok fs = true ->
  is_tag e UPB_WIRE_TYPE_END_GROUP = true ->
  Z.of_nat (nesting_depth fs) < depth ctx ->
  (exists ctx',
     upb_UnknownFields_Build alloc ctx (flat_map wire_bytes fs ++ e)
     = Ret (built_set fs, ctx'))
  /\ (rest <> [] ->
      upb_UnknownFields_Build alloc ctx (flat_map wire_bytes fs ++ e ++ rest)
      = Undefined).
Proof.
  intros Halloc Hinv Hok He Hdepth. split.
  - destruct (Build_end_group alloc ctx fs e [] Halloc Hinv Hok He Hdepth)
      as (ctx' & E).
    rewrite app_nil_r in E. now exists ctx'.
  - intros Hrest.
    destruct (Build_end_group alloc ctx fs e rest Halloc Hinv Hok He Hdepth)
      as (ctx' & ->).
    destruct rest; [contradiction | reflexivity].
Qed.

Lemma Build_unmatched_end_group_witness :
  (exists ctx',
     upb_UnknownFields_Build alloc_ok (mkContext 0 1 None 0 1) [x08; x01; x0c]
     = Ret (built_set [W_varint [x08] [x01]], ctx'))
  /\ ([x08; x01] <> [] ->
      upb_UnknownFields_Build alloc_ok (mkContext 0 1 None 0 1)
        [x08; x01; x0c; x08; x01]
      = Undefined).
Proof.
  apply (Build_unmatched_end_group alloc_ok (mkContext 0 1 None 0 1)
           [W_varint [x08] [x01]] [x0c] [x08; x01]).
  - intros n. reflexivity.
  - left. split; reflexivity.
  - reflexivity.
  - reflexivity.
  - vm_compute. reflexivity.
Defined.

(** ** The entry point on well-formed buffers *)

(** X15. Two well-formed buffers, the first one not empty and not longer
    than the second, compared with a budget above both nesting depths and
    an allocator that does not fail: the result is Equal or NotEqual, and it
    is Equal exactly when the first buffer is a prefix of the second one or
    the two trees built are the same up to capacities. *)
Theorem compare_wellformed (alloc : allocator) (buf1 buf2 : list byte)
    (fs1 fs2 : list wire_field) (max_depth : Z) :
  never_fails alloc -> encodes buf1 fs1 -> encodes buf2 fs2 ->
  Z.of_nat (nesting_depth fs1) < max_depth ->
  Z.of_nat (nesting_depth fs2) < max_depth ->
  buf1 <> [] -> (length buf1 <= length buf2)%nat ->
  exists b : bool,
    upb_Message_UnknownFieldsAreEqual alloc buf1 buf2 max_depth
    = Ret (if b then kUpb_UnknownCompareResult_Equal
           else kUpb_UnknownCompareResult_NotEqual)
    /\ (b = true <->
        firstn (length buf1) buf2 = buf1
        \/ erase (built_set fs1) = erase (built_set fs2)).
Proof.
  intros Halloc He1 He2 Hd1 Hd2 Hne Hpre.
  destruct (memcmp_spec buf1 buf2)
    as [[_ H2]|[(_ & H3)|(c & H1 & H2 & _ & H3)]].
  - exists true. split; [now apply compare_fast_path | ].
    split; [now left | reflexivity].
  - lia.
  - destruct (compare_built alloc buf1 buf2 fs1 fs2 max_depth c Halloc He1 He2
                Hd1 Hd2 H1 H2) as (b & E & I).
    exists b. split; [exact E | ]. rewrite I.
    split; [now right | now intros [H|H]].
Qed.

Lemma compare_wellformed_witness :
  exists b : bool,
    upb_Message_UnknownFieldsAreEqual alloc_ok [x08; x01] [x08; x81; x00] 1
    = Ret (if b then kUpb_UnknownCompareResult_Equal
           else kUpb_UnknownCompareResult_NotEqual)
    /\ (b = true <->
        firstn (length [x08; x01]) [x08; x81; x00] = [x08; x01]
        \/ erase (built_set [W_varint [x08] [x01]])
           = erase (built_set [W_varint [x08] [x81; x00]])).
Proof.
  apply (compare_wellformed alloc_ok [x08; x01] [x08; x81; x00]
           [W_varint [x08] [x01]] [W_varint [x08] [x81; x00]] 1).
  - intros n. reflexivity.
  - split; reflexivity.
  - split; reflexivity.
  - vm_compute. reflexivity.
  - vm_compute. reflexivity.
  - discriminate.
  - cbn [length]. lia.
Defined.

(** X16. On well-formed buffers of the same length (budget above both
    nesting depths, allocator that does not fail) the result does not
    depend on the order of the two buffers. *)
Theorem compare_symmetric (alloc : allocator) (buf1 buf2 : list byte)
    (fs1 fs2 : list wire_field) (max_depth : Z) :
  never_fails alloc -> encodes buf1 fs1 -> encodes buf2 fs2 ->
  Z.of_nat (nesting_depth fs1) < max_depth ->
  Z.of_nat (nesting_depth fs2) < max_depth ->
  length buf1 = length buf2 ->
  upb_Message_UnknownFieldsAreEqual alloc buf1 buf2 max_depth
  = upb_Message_UnknownFieldsAreEqual alloc buf2 buf1 max_depth.
Proof.
  intros Halloc He1 He2 Hd1 Hd2 Hlen.
  destruct (compare_same_length alloc buf1 buf2 fs1 fs2 max_depth Halloc He1 He2
              Hd1 Hd2 Hlen) as (b & -> & I).
  destruct (compare_same_length alloc buf2 buf1 fs2 fs1 max_depth Halloc He2 He1
              Hd2 Hd1 (eq_sym Hlen)) as (b' & -> & I').
  destruct b, b'; try reflexivity; exfalso.
  - destruct I as [I _]. specialize (I eq_refl). symmetry in I.
    destruct I' as [_ I']. specialize (I' I). discriminate I'.
  - destruct I' as [I' _]. specialize (I' eq_refl). symmetry in I'.
    destruct I as [_ I]. specialize (I I'). discriminate I.
Qed.

Lemma compare_symmetric_witness :
  upb_Message_UnknownFieldsAreEqual alloc_ok [x28; x01; x08; x02]
    [x08; x02; x28; x01] 1
  = upb_Message_UnknownFieldsAreEqual alloc_ok [x08; x02; x28; x01]
      [x28; x01; x08; x02] 1.
Proof.
  apply (compare_symmetric alloc_ok [x28; x01; x08; x02] [x08; x02; x28; x01]
           [W_varint [x28] [x01]; W_varint [x08] [x02]]
           [W_varint [x08] [x02]; W_varint [x28] [x01]] 1).
  - intros n. reflexivity.
  - split; reflexivity.
  - split; reflexivity.
  - vm_compute. reflexivity.
  - vm_compute. reflexivity.
  - reflexivity.
Defined.

(** X17. On well-formed buffers of the same length (budget above the
    nesting depths, allocator that does not fail) Equal is transitive. *)
Theorem compare_transitive (alloc : allocator) (buf1 buf2 buf3 : list byte)
    (fs1 fs2 fs3 : list wire_field) (max_depth : Z) :
  never_fails alloc ->
  encodes buf1 fs1 -> encodes buf2 fs2 -> encodes buf3 fs3 ->
  Z.of_nat (nesting_depth fs1) < max_depth ->
  Z.of_nat (nesting_depth fs2) < max_depth ->
  Z.of_nat (nesting_depth fs3) < max_depth ->
  length buf1 = length buf2 -> length buf2 = length buf3 ->
  upb_Message_UnknownFieldsAreEqual alloc buf1 buf2 max_depth
  = Ret kUpb_UnknownCompareResult_Equal ->
  upb_Message_UnknownFieldsAreEqual alloc buf2 buf3 max_depth
  = Ret kUpb_UnknownCompareResult_Equal ->
  upb_Message_UnknownFieldsAreEqual alloc buf1 buf3 max_depth
  = Ret kUpb_UnknownCompareResult_Equal.
Proof.
  intros Halloc He1 He2 He3 Hd1 Hd2 Hd3 L12 L23 E12 E23.
  destruct (compare_same_length alloc buf1 buf2 fs1 fs2 max_depth Halloc He1 He2
              Hd1 Hd2 L12) as (b12 & R12 & I12).
  destruct (compare_same_length alloc buf2 buf3 fs2 fs3 max_depth Halloc He2 He3
              Hd2 Hd3 L23) as (b23 & R23 & I23).
  destruct (compare_same_length alloc buf1 buf3 fs1 fs3 max_depth Halloc He1 He3
              Hd1 Hd3 (eq_trans L12 L23)) as (b13 & -> & I13).
  rewrite R12 in E12. rewrite R23 in E23.
  destruct b12; [ | discriminate E12]. destruct b23; [ | discriminate E23].
  destruct I12 as [I12 _]. destruct I23 as [I23 _].
  destruct I13 as [_ I13]. rewrite I13; [reflexivity | ].
  rewrite (I12 eq_refl). now apply I23.
Qed.

Lemma compare_transitive_witness :
  upb_Message_UnknownFieldsAreEqual alloc_ok [x28; x81; x00; x08; x02]
    [x08; x82; x00; x28; x01] 1
  = Ret kUpb_UnknownCompareResult_Equal.
Proof.
  apply (compare_transitive alloc_ok [x28; x81; x00; x08; x02]
           [x08; x02; x28; x81; x00] [x08; x82; x00; x28; x01]
           [W_varint [x28] [x81; x00]; W_varint [x08] [x02]]
           [W_varint [x08] [x02]; W_varint [x28] [x81; x00]]
           [W_varint [x08] [x82; x00]; W_varint [x28] [x01]] 1).
  - intros n. reflexivity.
  - split; reflexivity.
  - split; reflexivity.
  - split; reflexivity.
  - vm_compute. reflexivity.
  - vm_compute. reflexivity.
  - vm_compute. reflexivity.
  - reflexivity.
  - reflexivity.
  - reflexivity.
  - reflexivity.
Defined.

(** X18. Two well-formed fields with different tags compare Equal with the
    same two fields in the other order (budget above the nesting depths,
    allocator that does not fail). *)
Theorem two_fields_order_Equal (alloc : allocator) (f g : wire_field)
    (max_depth : Z) :
  never_fails alloc -> wire_ok f = true -> wire_ok g = true ->
  wire_tag f <> wire_tag g ->
  Z.of_nat (wire_depth f) < max_depth -> Z.of_nat (wire_depth g) < max_depth ->
  upb_Message_UnknownFieldsAreEqual alloc (wire_bytes f ++ wire_bytes g)
    (wire_bytes g ++ wire_bytes f) max_depth
  = Ret kUpb_UnknownCompareResult_Equal.
Proof.
  intros Halloc Hf Hg Htag Hdf Hdg.
  destruct (compare_same_length alloc (wire_bytes f ++ wire_bytes g)
              (wire_bytes g ++ wire_bytes f) [f; g] [g; f] max_depth Halloc
              (encodes_two f g Hf Hg) (encodes_two g f Hg Hf))
    as (b & -> & [_ I]).
  - rewrite nesting_depth_two. lia.
  - rewrite nesting_depth_two. lia.
  - apply length_two.
  - rewrite I; [reflexivity | ]. rewrite !built_set_two.
    destruct (Z.ltb_spec (wire_tag g) (wire_tag f)) as [H1|H1];
      destruct (Z.ltb_spec (wire_tag f) (wire_tag g)) as [H2|H2];
      try reflexivity; lia.
Qed.

Lemma two_fields_order_Equal_witness :
  upb_Message_UnknownFieldsAreEqual alloc_ok
    ([x28; x01] ++ [x0b; x08; x05; x0c]) ([x0b; x08; x05; x0c] ++ [x28; x01]) 2
  = Ret kUpb_UnknownCompareResult_Equal.
Proof.
  apply (two_fields_order_Equal alloc_ok (W_varint [x28] [x01])
           (W_group [x0b] [W_varint [x08] [x05]] [x0c]) 2).
  - intros n. reflexivity.
  - reflexivity.
  - reflexivity.
  - vm_compute. discriminate.
  - vm_compute. reflexivity.
  - vm_compute. reflexivity.
Defined.

(** X19. Two well-formed fields with the same tag and different values
    (capacities of nested sets aside) compare NotEqual with the same two
    fields in the other order: fields of one tag are compared in the order
    of the buffer. *)
Theorem same_tag_order_NotEqual (alloc : allocator) (f g : wire_field)
    (max_depth : Z) :
  never_fails alloc -> wire_ok f = true -> wire_ok g = true ->
  wire_tag f = wire_tag g ->
  erase_field (built_field f) <> erase_field (built_field g) ->
  Z.of_nat (wire_depth f) < max_depth -> Z.of_nat (wire_depth g) < max_depth ->
  upb_Message_UnknownFieldsAreEqual alloc (wire_bytes f ++ wire_bytes g)
    (wire_bytes g ++ wire_bytes f) max_depth
  = Ret kUpb_UnknownCompareResult_NotEqual.
Proof.
  intros Halloc Hf Hg Htag Hval Hdf Hdg.
  destruct (compare_same_length alloc (wire_bytes f ++ wire_bytes g)
              (wire_bytes g ++ wire_bytes f) [f; g] [g; f] max_depth Halloc
              (encodes_two f g Hf Hg) (encodes_two g f Hg Hf))
    as (b & -> & [I _]).
  - rewrite nesting_depth_two. lia.
  - rewrite nesting_depth_two. lia.
  - apply length_two.
  - destruct b; [exfalso | reflexivity].
    specialize (I eq_refl). rewrite !built_set_two, Htag, Z.ltb_irrefl in I.
    rewrite !erase_unfold in I. cbn [map] in I.
    apply Hval. congruence.
Qed.

Lemma same_tag_order_NotEqual_witness :
  upb_Message_UnknownFieldsAreEqual alloc_ok
    ([x48; x01] ++ [x48; x02]) ([x48; x02] ++ [x48; x01]) 1
  = Ret kUpb_UnknownCompareResult_NotEqual.
Proof.
  apply (same_tag_order_NotEqual alloc_ok (W_varint [x48] [x01])
           (W_varint [x48] [x02]) 1).
  - intros n. reflexivity.
  - reflexivity.
  - reflexivity.
  - reflexivity.
  - vm_compute. discriminate.
  - vm_compute. reflexivity.
  - vm_compute. reflexivity.
Defined.

(** X20. When the second buffer is a non-empty strict prefix of the first
    one, the byte comparison over [size1] bytes reads past the end of the
    second buffer: the behaviour is undefined, whatever the bytes, the
    budget and the allocator. *)
Theorem longer_first_buffer_overread (alloc : allocator)
    (buf1 buf2 : list byte) (max_depth : Z) :
  buf2 <> [] -> firstn (length buf2) buf1 = buf2 ->
  (length buf2 < length buf1)%nat ->
  upb_Message_UnknownFieldsAreEqual alloc buf1 buf2 max_depth = Undefined.
Proof.
  intros Hne Hpre Hlt. unfold upb_Message_UnknownFieldsAreEqual.
  destruct (memcmp_spec buf1 buf2)
    as [[_ H2]|[(H1 & _)|(c & _ & _ & H4 & _)]].
  - apply (f_equal (@length byte)) in H2. rewrite length_firstn in H2. lia.
  - rewrite H1.
    destruct buf1 as [|a buf1]; [cbn [length] in Hlt; lia | ].
    destruct buf2 as [|b buf2]; [contradiction | reflexivity].
  - lia.
Qed.

Lemma longer_first_buffer_overread_witness :
  upb_Message_UnknownFieldsAreEqual alloc_ok [x08; x01; x10; x02] [x08; x01] 1
  = Undefined.
Proof.
  apply (longer_first_buffer_overread alloc_ok [x08; x01; x10; x02] [x08; x01] 1).
  - discriminate.
  - reflexivity.
  - cbn [length]. lia.
Defined.

(** ** Termination *)

(** X21. For every pair of buffers, every budget and every allocator the
    comparison comes to an end: it returns a result or runs into undefined
    behaviour.  The loops and the recursion consume the buffer, so the fuel
    of the embedding is never used up, and no jump leaves the function. *)
Theorem compare_terminates (alloc : allocator) (buf1 buf2 : list byte)
    (max_depth : Z) :
  upb_Message_UnknownFieldsAreEqual alloc buf1 buf2 max_depth <> OutOfFuel
  /\ forall r, upb_Message_UnknownFieldsAreEqual alloc buf1 buf2 max_depth
               <> LongJmp r.
Proof.
  destruct (compare_returns_or_undefined alloc buf1 buf2 max_depth)
    as [[r ->] | ->]; split; try intros r'; discriminate.
Qed.
